(** * Nuances: the reveal / dissolve animation of the "Rencontres" tab

    A shallow embedding of the reveal engine of [src/app/page.tsx]:
    [initRevealDots] (dot field and Fisher-Yates shuffle),
    [startRevealAnimation] (the frame-budgeted reveal loop),
    [togglePaletteColor], the mode toggle and [handleGeneratePalette]
    (session control).  The "Rencontres Crop" tab runs a textual copy of the
    same functions over its own state variables ([initRevealDotsCrop],
    [startRevealAnimationCrop], [handleGenerateCrop]); the model below is
    that of either tab.

    JavaScript numbers are IEEE-754 binary64 values.  Quantities that are
    array indices or lengths ([currentIndex], [dots.length], [dotsPerFrame],
    the loop counters) stay below 2^32 and are computed exactly by the
    source, so they are naturals here; quantities that are genuinely
    fractional ([Math.random()], [currentIndex / dots.length], the revealed
    count) go through the interface [JsNum], whose instance is Rocq's
    primitive binary64 floats, which is what the browser computes.  What
    the proofs use of the rounding of these operations (it is to nearest,
    so monotone, exact on the integers up to 2^53 and within a relative
    error of 2^-53) is derived in this file from the rounding function of
    the Standard Library's [SpecFloat], over the real numbers.

    Besides the reveal engine the file embeds the other pieces of logic of
    the page and of its routes: [UnderlineS], the HD viewer ([openHdModal],
    [closeHdModal], the mouse and wheel handlers, the [keydown] listener),
    the arrows of the info pages, the background colour [bgColor], the
    name given to a download, and the palette and spectrum routes
    ([src/unnamed/part_000] and the route appended to [page.tsx]), whose
    child process, [JSON.parse] and [String.prototype.trim] are
    parameters. *)

From Stdlib Require Import ZArith Floats Lia Rbase Rfunctions Lra.
From stdpp Require Import list strings numbers pretty.

Local Open Scope Z_scope.

(** ** Numbers *)

Class JsNum (num : Type) := {
  num_of_Z : Z → num;            (* an integer literal or integer-valued variable *)
  num_div : num → num → num;     (* a / b *)
  num_mul : num → num → num;     (* a * b *)
  Math_floor : num → num;        (* Math.floor(a) *)
  num_le : num → num → Prop;     (* a <= b *)
  as_index : num → option nat    (* the array index a number denotes, if any *)
}.

Definition num_of_nat {num : Type} `{!JsNum num} (n : nat) : num := num_of_Z (Z.of_nat n).

(** Numeric equality, as [==] on numbers. *)
Definition num_eqv {num : Type} `{!JsNum num} (a b : num) : Prop := num_le a b ∧ num_le b a.

(** *** Binary64 *)

(** Conversion of an integer to the nearest double (ties to even). *)
Definition float_of_Z (z : Z) : float :=
  SF2Prim (binary_normalize prec emax z 0 false).

(** [Math.floor]: NaN, infinities and zeros are returned as they are; a
    finite value [(-1)^s * m * 2^e] with [e >= 0] is already an integer;
    otherwise the mantissa is shifted right, which rounds towards minus
    infinity also for a negative mantissa. *)
Definition float_floor (x : float) : float :=
  match Prim2SF x with
  | S754_finite s m e =>
      if e <? 0 then float_of_Z (Z.shiftl (cond_Zopp s (Zpos m)) e) else x
  | _ => x
  end.

(** A double is an array index when it is a non-negative integer. *)
Definition float_index (x : float) : option nat :=
  match Prim2SF x with
  | S754_zero _ => Some 0%nat
  | S754_finite false m e =>
      if 0 <=? e then Some (Z.to_nat (Z.shiftl (Zpos m) e))
      else if Z.land (Zpos m) (Z.ones (- e)) =? 0
           then Some (Z.to_nat (Z.shiftl (Zpos m) e))
           else None
  | _ => None
  end.

#[export] Instance float_JsNum : JsNum float := {
  num_of_Z := float_of_Z;
  num_div := PrimFloat.div;
  num_mul := PrimFloat.mul;
  Math_floor := float_floor;
  num_le := λ a b, PrimFloat.leb a b = true;
  as_index := float_index
}.

(** *** The real value of a double

    What the rounding of [PrimFloat] guarantees is stated over the real
    numbers.  [SF2R] is the value of a finite double, [located] says where
    a real number lies with respect to a mantissa and its round and sticky
    bits, and [rounds_to v x] says that [x] is [v] rounded to nearest, ties
    to even, in the format of binary64: [v] lies in the binade
    [2^(k-1) <= v < 2^k], [n] is a nearest integer of [v / 2^c] for the
    exponent [c = max (k - 53) (-1074)] of that binade, even when [v] is
    half-way, and [x] is [n * 2^c] in canonical form, or infinity when the
    exponent is too large. *)
Definition pow2 (e : Z) : R := powerRZ 2 e.

Definition SF2R (x : spec_float) : R :=
  match x with
  | S754_finite s m e => IZR (cond_Zopp s (Zpos m)) * pow2 e
  | _ => 0
  end.

Definition float_real (x : float) : R := SF2R (Prim2SF x).

Definition located (v : R) (e : Z) (mrs : shr_record) : Prop :=
  let m := IZR (shr_m mrs) in
  match shr_r mrs, shr_s mrs with
  | false, false => v = m * pow2 e
  | false, true => m * pow2 e < v < (m + / 2) * pow2 e
  | true, false => v = (m + / 2) * pow2 e
  | true, true => (m + / 2) * pow2 e < v < (m + 1) * pow2 e
  end%R.

Definition in_binade (v : R) (k : Z) : Prop := (pow2 (k - 1) <= v < pow2 k)%R.

Definition nearest_even (v : R) (c n : Z) : Prop :=
  ((IZR n - / 2) * pow2 c <= v <= (IZR n + / 2) * pow2 c)%R
  ∧ ((v = (IZR n - / 2) * pow2 c ∨ v = (IZR n + / 2) * pow2 c)%R → Z.even n = true).

Definition round_result (m : positive) (e : Z) : spec_float :=
  if e <=? emax - prec then S754_finite false m e else S754_infinity false.

Definition rounds_to (v : R) (x : spec_float) : Prop :=
  ∃ (k n : Z) (m : positive) (e : Z),
    in_binade v k ∧ -1074 < k ∧ nearest_even v (fexp prec emax k) n
    ∧ canonical_mantissa prec emax m e = true
    ∧ (IZR (Z.pos m) * pow2 e = IZR n * pow2 (fexp prec emax k))%R
    ∧ x = round_result m e.

(** A zero or a positive finite double. *)
Definition nonneg (x : spec_float) : Prop :=
  match x with
  | S754_zero _ => True
  | S754_finite false m e => canonical_mantissa prec emax m e = true ∧ e ≤ 971
  | _ => False
  end.

(** Integers up to [safe_integer] are doubles. *)
Definition safe_integer : Z := 2 ^ 53.

(** ** Data model *)

(** A dot [{ x, y }]: one 1x1 unit of the canvas. *)
Definition cell : Type := nat * nat.

(** The two drawing calls the engine makes on the 2d context; [FillRect]
    carries the [fillStyle] in force. *)
Inductive draw_op :=
  | FillRect (style : string) (x y w h : nat)
  | ClearRect (x y w h : nat).

(** The canvas element: its size and the drawing calls received so far,
    oldest first. *)
Record canvas := Canvas {
  width : nat;
  height : nat;
  drawn : list draw_op
}.

Definition in_rect (x y w h : nat) (c : cell) : bool :=
  (bool_decide (x ≤ c.1 < x + w) && bool_decide (y ≤ c.2 < y + h))%nat.

(** Whether a pixel carries paint after a sequence of drawing calls; a fresh
    canvas is transparent. *)
Definition paint (covered : bool) (op : draw_op) (c : cell) : bool :=
  match op with
  | FillRect _ x y w h => if in_rect x y w h c then true else covered
  | ClearRect x y w h => if in_rect x y w h c then false else covered
  end.

Definition covered (ops : list draw_op) (c : cell) : bool :=
  fold_left (λ b op, paint b op c) ops false.

(** The canvas is in its opaque covering state: every pixel is painted. *)
Definition fully_covered (cv : canvas) : Prop :=
  ∀ x y : nat, (x < width cv)%nat → (y < height cv)%nat → covered (drawn cv) (x, y) = true.

(** The cells a sequence of drawing calls has cleared, in order. *)
Definition cleared (ops : list draw_op) : list cell :=
  omap (λ op, match op with ClearRect x y _ _ => Some (x, y) | FillRect _ _ _ _ _ => None end) ops.

Inductive ColorKey := bleu | rouge | vert | jaune | orange | marron | gris | violet.

#[export] Instance ColorKey_eq_dec : EqDecision ColorKey.
Proof. solve_decision. Defined.

Inductive mode := nuages | brumes.

#[export] Instance mode_eq_dec : EqDecision mode.
Proof. solve_decision. Defined.

(** The parsed body of a generation response.  [count] and
    [total_available] are integer counts; [total_available], [full] and
    [error] may be absent. *)
Record response := Response {
  r_error : option string;
  r_count : Z;
  r_total_available : option Z;
  r_preview : string;
  r_full : option string
}.

(** The variables captured by the [reveal] callback of
    [startRevealAnimation]; [currentIndex] is the one it mutates. *)
Record reveal_closure := Closure {
  dots : list cell;
  currentIndex : nat;
  dotsPerFrame : nat;
  totalCount : Z
}.

(** The request [handleGeneratePalette] is suspended on. *)
Record request := Request {
  endpoint : string;
  colors : list ColorKey
}.

Section Page.
Context {num : Type} `{!JsNum num}.

(** React state and refs of the tab, followed by the browser's side: the
    animation-frame callbacks scheduled and not yet run, the next request
    id, the images whose [onload] is awaited (each with the [displayCount]
    its handler captured), the requests in flight and the number of
    [Math.random()] calls made so far. *)
Record page := Page {
  selectedPaletteColors : list ColorKey;
  isPaletteGenerating : bool;
  isPaletteRevealing : bool;
  palettePreview : option (string * nat);
  paletteCount : num;
  paletteResult : option response;
  paletteError : option string;
  revealProgress : num;
  rencontresMode : mode;
  canvasRef : option canvas;
  animationRef : option nat;
  dotsRef : list cell;
  scheduled : list (nat * reveal_closure);
  next_request_id : nat;
  loading : list Z;
  fetching : list request;
  random_calls : nat
}.

(** ** Dot-field initializer *)

(** The nested loops of [initRevealDots]: rows [y] outermost, [x] within. *)
Definition grid_row (w y : nat) : list cell := (λ x, (x, y)) <$> seq 0 w.

Definition grid (w h : nat) : list cell := seq 0 h ≫= grid_row w.

(** [[dots[i], dots[j]] = [dots[j], dots[i]]].  The right-hand side is read
    first.  When [j] is not an index of the array JavaScript would store
    [undefined]; [Math.floor(Math.random() * (i + 1))] never is, and the
    model leaves the array as it is there. *)
Definition swap (ds : list cell) (i : nat) (j : option nat) : list cell :=
  match j with
  | Some j =>
      match ds !! i, ds !! j with
      | Some di, Some dj => <[j := di]> (<[i := dj]> ds)
      | _, _ => ds
      end
  | None => ds
  end.

(** [Math.floor(Math.random() * (i + 1))], [r] being the value of
    [Math.random()]. *)
Definition draw (r : num) (i : nat) : num :=
  Math_floor (num_mul r (num_of_nat (i + 1))).

(** The successive values of [Math.random()]. *)
Variable random : nat → num.

(** [for (let i = dots.length - 1; i > 0; i--)], the [k]-th call of
    [Math.random()] being the next one. *)
Fixpoint shuffle_from (k i : nat) (ds : list cell) : list cell :=
  match i with
  | O => ds
  | S i' => shuffle_from (S k) i' (swap ds i (as_index (draw (random k) i)))
  end.

Definition shuffle (k : nat) (ds : list cell) : list cell :=
  shuffle_from k (length ds - 1) ds.

(** Field updates: the React setters and the assignments to refs. *)
Definition setSelectedPaletteColors (v : list ColorKey) (s : page) : page :=
  Page v (isPaletteGenerating s) (isPaletteRevealing s) (palettePreview s)
      (paletteCount s) (paletteResult s) (paletteError s) (revealProgress s)
      (rencontresMode s) (canvasRef s) (animationRef s) (dotsRef s)
      (scheduled s) (next_request_id s) (loading s) (fetching s)
      (random_calls s).

Definition setIsPaletteGenerating (v : bool) (s : page) : page :=
  Page (selectedPaletteColors s) v (isPaletteRevealing s) (palettePreview s)
      (paletteCount s) (paletteResult s) (paletteError s) (revealProgress s)
      (rencontresMode s) (canvasRef s) (animationRef s) (dotsRef s)
      (scheduled s) (next_request_id s) (loading s) (fetching s)
      (random_calls s).

Definition setIsPaletteRevealing (v : bool) (s : page) : page :=
  Page (selectedPaletteColors s) (isPaletteGenerating s) v (palettePreview s)
      (paletteCount s) (paletteResult s) (paletteError s) (revealProgress s)
      (rencontresMode s) (canvasRef s) (animationRef s) (dotsRef s)
      (scheduled s) (next_request_id s) (loading s) (fetching s)
      (random_calls s).

Definition setPalettePreview (v : option (string * nat)) (s : page) : page :=
  Page (selectedPaletteColors s) (isPaletteGenerating s)
      (isPaletteRevealing s) v (paletteCount s) (paletteResult s)
      (paletteError s) (revealProgress s) (rencontresMode s) (canvasRef s)
      (animationRef s) (dotsRef s) (scheduled s) (next_request_id s)
      (loading s) (fetching s) (random_calls s).

Definition setPaletteCount (v : num) (s : page) : page :=
  Page (selectedPaletteColors s) (isPaletteGenerating s)
      (isPaletteRevealing s) (palettePreview s) v (paletteResult s)
      (paletteError s) (revealProgress s) (rencontresMode s) (canvasRef s)
      (animationRef s) (dotsRef s) (scheduled s) (next_request_id s)
      (loading s) (fetching s) (random_calls s).

Definition setPaletteResult (v : option response) (s : page) : page :=
  Page (selectedPaletteColors s) (isPaletteGenerating s)
      (isPaletteRevealing s) (palettePreview s) (paletteCount s) v
      (paletteError s) (revealProgress s) (rencontresMode s) (canvasRef s)
      (animationRef s) (dotsRef s) (scheduled s) (next_request_id s)
      (loading s) (fetching s) (random_calls s).

Definition setPaletteError (v : option string) (s : page) : page :=
  Page (selectedPaletteColors s) (isPaletteGenerating s)
      (isPaletteRevealing s) (palettePreview s) (paletteCount s)
      (paletteResult s) v (revealProgress s) (rencontresMode s) (canvasRef s)
      (animationRef s) (dotsRef s) (scheduled s) (next_request_id s)
      (loading s) (fetching s) (random_calls s).

Definition setRevealProgress (v : num) (s : page) : page :=
  Page (selectedPaletteColors s) (isPaletteGenerating s)
      (isPaletteRevealing s) (palettePreview s) (paletteCount s)
      (paletteResult s) (paletteError s) v (rencontresMode s) (canvasRef s)
      (animationRef s) (dotsRef s) (scheduled s) (next_request_id s)
      (loading s) (fetching s) (random_calls s).

Definition setRencontresMode (v : mode) (s : page) : page :=
  Page (selectedPaletteColors s) (isPaletteGenerating s)
      (isPaletteRevealing s) (palettePreview s) (paletteCount s)
      (paletteResult s) (paletteError s) (revealProgress s) v (canvasRef s)
      (animationRef s) (dotsRef s) (scheduled s) (next_request_id s)
      (loading s) (fetching s) (random_calls s).

Definition set_canvasRef (v : option canvas) (s : page) : page :=
  Page (selectedPaletteColors s) (isPaletteGenerating s)
      (isPaletteRevealing s) (palettePreview s) (paletteCount s)
      (paletteResult s) (paletteError s) (revealProgress s) (rencontresMode s)
      v (animationRef s) (dotsRef s) (scheduled s) (next_request_id s)
      (loading s) (fetching s) (random_calls s).

Definition set_animationRef (v : option nat) (s : page) : page :=
  Page (selectedPaletteColors s) (isPaletteGenerating s)
      (isPaletteRevealing s) (palettePreview s) (paletteCount s)
      (paletteResult s) (paletteError s) (revealProgress s) (rencontresMode s)
      (canvasRef s) v (dotsRef s) (scheduled s) (next_request_id s)
      (loading s) (fetching s) (random_calls s).

Definition set_dotsRef (v : list cell) (s : page) : page :=
  Page (selectedPaletteColors s) (isPaletteGenerating s)
      (isPaletteRevealing s) (palettePreview s) (paletteCount s)
      (paletteResult s) (paletteError s) (revealProgress s) (rencontresMode s)
      (canvasRef s) (animationRef s) v (scheduled s) (next_request_id s)
      (loading s) (fetching s) (random_calls s).

Definition set_scheduled (v : list (nat * reveal_closure)) (s : page) : page :=
  Page (selectedPaletteColors s) (isPaletteGenerating s)
      (isPaletteRevealing s) (palettePreview s) (paletteCount s)
      (paletteResult s) (paletteError s) (revealProgress s) (rencontresMode s)
      (canvasRef s) (animationRef s) (dotsRef s) v (next_request_id s)
      (loading s) (fetching s) (random_calls s).

Definition set_next_request_id (v : nat) (s : page) : page :=
  Page (selectedPaletteColors s) (isPaletteGenerating s)
      (isPaletteRevealing s) (palettePreview s) (paletteCount s)
      (paletteResult s) (paletteError s) (revealProgress s) (rencontresMode s)
      (canvasRef s) (animationRef s) (dotsRef s) (scheduled s) v (loading s)
      (fetching s) (random_calls s).

Definition set_loading (v : list Z) (s : page) : page :=
  Page (selectedPaletteColors s) (isPaletteGenerating s)
      (isPaletteRevealing s) (palettePreview s) (paletteCount s)
      (paletteResult s) (paletteError s) (revealProgress s) (rencontresMode s)
      (canvasRef s) (animationRef s) (dotsRef s) (scheduled s)
      (next_request_id s) v (fetching s) (random_calls s).

Definition set_fetching (v : list request) (s : page) : page :=
  Page (selectedPaletteColors s) (isPaletteGenerating s)
      (isPaletteRevealing s) (palettePreview s) (paletteCount s)
      (paletteResult s) (paletteError s) (revealProgress s) (rencontresMode s)
      (canvasRef s) (animationRef s) (dotsRef s) (scheduled s)
      (next_request_id s) (loading s) v (random_calls s).

Definition set_random_calls (v : nat) (s : page) : page :=
  Page (selectedPaletteColors s) (isPaletteGenerating s)
      (isPaletteRevealing s) (palettePreview s) (paletteCount s)
      (paletteResult s) (paletteError s) (revealProgress s) (rencontresMode s)
      (canvasRef s) (animationRef s) (dotsRef s) (scheduled s)
      (next_request_id s) (loading s) (fetching s) v.

(** [ctx.fillStyle = '#ffffff'; ctx.fillRect(0, 0, canvas.width, canvas.height)] *)
Definition repaint (cv : canvas) : canvas :=
  Canvas (width cv) (height cv)
         (drawn cv ++ [FillRect "#ffffff" 0 0 (width cv) (height cv)]).

(** [initRevealDots].  [canvasRef = None] stands for either readiness check
    failing (no canvas element, or no 2d context). *)
Definition initRevealDots (s : page) : page :=
  match canvasRef s with
  | None => s
  | Some cv =>
      let ds := grid (width cv) (height cv) in
      let ds' := shuffle (random_calls s) ds in
      set_canvasRef (Some (repaint cv))
        (set_dotsRef ds'
          (set_random_calls (random_calls s + (length ds - 1)) s))
  end.

(** ** Incremental revealer *)

(** [dotsPerFrame = Math.max(2000, Math.floor(dots.length / 200))], for
    [dots.length = n] *)
Definition frame_budget (n : nat) : nat := Nat.max 2000 (n / 200).

(** [currentIndex / dots.length] *)
Definition progress (c n : nat) : num := num_div (num_of_nat c) (num_of_nat n).

(** [Math.floor((currentIndex / dots.length) * totalCount)] *)
Definition revealed (c n : nat) (t : Z) : num :=
  Math_floor (num_mul (progress c n) (num_of_Z t)).

(** The cells [dots[a]], ..., [dots[b - 1]]. *)
Definition slice (ds : list cell) (a b : nat) : list cell := take (b - a) (drop a ds).

(** [ctx.clearRect(dots[i].x, dots[i].y, dotSize, dotSize)] for each cell of
    the batch.  The context was captured when the session started; the model
    draws on the canvas then current and drops the calls when there is
    none. *)
Definition clear_cells (batch : list cell) (s : page) : page :=
  match canvasRef s with
  | None => s
  | Some cv =>
      set_canvasRef
        (Some (Canvas (width cv) (height cv)
                      (drawn cv ++ ((λ c : cell, ClearRect c.1 c.2 1 1) <$> batch)))) s
  end.

(** [requestAnimationFrame(reveal)]: the callback is queued under a fresh
    non-zero id, which is stored in [animationRef]. *)
Definition requestAnimationFrame (cl : reveal_closure) (s : page) : page :=
  let id := next_request_id s in
  set_animationRef (Some id)
    (set_scheduled (scheduled s ++ [(id, cl)])
      (set_next_request_id (S id) s)).

(** [cancelAnimationFrame(id)] *)
Definition cancelAnimationFrame (id : nat) (s : page) : page :=
  set_scheduled (filter (λ e, e.1 ≠ id) (scheduled s)) s.

(** One run of the [reveal] callback. *)
Definition reveal (cl : reveal_closure) (s : page) : page :=
  let n := length (dots cl) in
  let endIndex := Nat.min (currentIndex cl + dotsPerFrame cl) n in
  let s := clear_cells (slice (dots cl) (currentIndex cl) endIndex) s in
  let s := setPaletteCount (revealed endIndex n (totalCount cl)) s in
  let s := setRevealProgress (progress endIndex n) s in
  if bool_decide (endIndex < n)%nat then
    requestAnimationFrame (Closure (dots cl) endIndex (dotsPerFrame cl) (totalCount cl)) s
  else
    setPaletteCount (num_of_Z (totalCount cl)) (setIsPaletteRevealing false s).

(** [startRevealAnimation(totalCount)] *)
Definition startRevealAnimation (t : Z) (s : page) : page :=
  match canvasRef s with
  | None => s
  | Some _ =>
      let ds := dotsRef s in
      requestAnimationFrame (Closure ds 0 (frame_budget (length ds)) t)
        (setIsPaletteRevealing true s)
  end.

(** The browser runs the callbacks scheduled for this frame, in the order
    they were requested; what they request is run the frame after. *)
Definition animation_frame (s : page) : page :=
  fold_left (λ s e, reveal e.2 s) (scheduled s) (set_scheduled [] s).

(** ** Session controller *)

(** [togglePaletteColor(color)] *)
Definition toggle (c : ColorKey) (sel : list ColorKey) : list ColorKey :=
  if bool_decide (c ∈ sel) then filter (λ c', c' ≠ c) sel else sel ++ [c].

Definition togglePaletteColor (c : ColorKey) (s : page) : page :=
  let s :=
    match palettePreview s with
    | Some _ =>
        let s := setPalettePreview None s in
        let s := setPaletteResult None s in
        let s := setPaletteCount (num_of_Z 0) s in
        let s := setRevealProgress (num_of_Z 0) s in
        match canvasRef s with
        | Some cv => set_canvasRef (Some (repaint cv)) s
        | None => s
        end
    | None => s
    end in
  setSelectedPaletteColors (toggle c (selectedPaletteColors s)) s.

(** The [onClick] of the two mode buttons. *)
Definition toggleMode (m : mode) (s : page) : page :=
  if bool_decide (rencontresMode s ≠ m) then
    let s := setRencontresMode m s in
    let s := setPalettePreview None s in
    let s := setPaletteResult None s in
    let s := setPaletteCount (num_of_Z 0) s in
    setRevealProgress (num_of_Z 0) s
  else s.

(** [handleGeneratePalette], up to the [await fetch(...)]. *)
Definition handleGeneratePalette (s : page) : page :=
  if bool_decide (length (selectedPaletteColors s) < 2)%nat then s
  else
    let s :=
      match animationRef s with
      | Some id => if bool_decide (id ≠ 0%nat) then cancelAnimationFrame id s else s
      | None => s
      end in
    let s := setIsPaletteGenerating true s in
    let s := setPaletteError None s in
    let s := setPaletteResult None s in
    let s := setPalettePreview None s in
    let s := setPaletteCount (num_of_Z 0) s in
    let s := setRevealProgress (num_of_Z 0) s in
    let s := initRevealDots s in
    let endpoint :=
      match rencontresMode s with
      | nuages => "/api/generate-palette"
      | brumes => "/api/generate-palette-crop"
      end in
    set_fetching (fetching s ++ [Request endpoint (selectedPaletteColors s)]) s.

(** [data.total_available || data.count]: the left operand when it is
    truthy, which for a number means present and neither 0 nor NaN. *)
Definition displayCount (data : response) : Z :=
  match r_total_available data with
  | Some t => if bool_decide (t ≠ 0) then t else r_count data
  | None => r_count data
  end.

(** The rest of [handleGeneratePalette], once [response.json()] has
    produced [data]; [now] is [Date.now()]. *)
Definition handleResponse (data : response) (now : nat) (s : page) : page :=
  match r_error data with
  | Some e =>
      setIsPaletteGenerating false (setPaletteError (Some e) s)
  | None =>
      let s := setPalettePreview (Some (r_preview data, now)) s in
      let s := setPaletteCount (num_of_Z (displayCount data)) s in
      let s := setPaletteResult (Some data) s in
      let s := setIsPaletteGenerating false s in
      set_loading (loading s ++ [displayCount data]) s
  end.

(** The [catch] branch: [err] is the message of the [Error] caught, if it is
    one. *)
Definition handleFailure (err : option string) (s : page) : page :=
  setIsPaletteGenerating false
    (setPaletteError (Some (default "Erreur de connexion" err)) s).

(** What can happen to the page.  The colour buttons are disabled while
    generating or revealing; the Generate button is rendered only without a
    preview and is disabled with fewer than two colours, while generating and
    while revealing; the mode buttons are always enabled.  Responses and
    image loads are delivered in the order they were requested. *)
Inductive event :=
  | ClickColor (c : ColorKey)
  | ClickMode (m : mode)
  | ClickGenerate
  | FetchResolved (data : response) (now : nat)
  | FetchRejected (err : option string)
  | ImageLoaded
  | AnimationFrame.

Definition step (s : page) (e : event) : page :=
  match e with
  | ClickColor c =>
      if isPaletteGenerating s || isPaletteRevealing s then s
      else togglePaletteColor c s
  | ClickMode m => toggleMode m s
  | ClickGenerate =>
      if bool_decide (palettePreview s = None)
         && negb (bool_decide (length (selectedPaletteColors s) < 2)%nat
                  || isPaletteGenerating s || isPaletteRevealing s)
      then handleGeneratePalette s else s
  | FetchResolved data now =>
      match fetching s with
      | _ :: rest => handleResponse data now (set_fetching rest s)
      | [] => s
      end
  | FetchRejected err =>
      match fetching s with
      | _ :: rest => handleFailure err (set_fetching rest s)
      | [] => s
      end
  | ImageLoaded =>
      match loading s with
      | t :: rest => startRevealAnimation t (set_loading rest s)
      | [] => s
      end
  | AnimationFrame => animation_frame s
  end.

Definition run (s : page) (es : list event) : page := fold_left step es s.

End Page.

Arguments page : clear implicits.

(** The page as first rendered ([useState] / [useRef] initial values), the
    canvas element being mounted or not. *)
Definition initial_page {num : Type} `{!JsNum num} (cv : option canvas) : page num :=
  Page [] false false None (num_of_Z 0) None None (num_of_Z 0) nuages
       cv None [] [] 1 [] [] 0.

(** ** Vocabulary of the properties *)

(** The drawing calls that clear a batch of cells. *)
Definition clear_ops (batch : list cell) : list draw_op :=
  (λ c : cell, ClearRect c.1 c.2 1 1) <$> batch.

(** The cursor after [k] frames over [n] cells. *)
Definition cursor (n k : nat) : nat := Nat.min (k * frame_budget n) n.

(** [ceil(n / b)] *)
Definition ceil_div (n b : nat) : nat := ((n + b - 1) / b)%nat.

(** The same cursor on binary integers, for large canvases. *)
Definition cursorZ (n k : Z) : Z := Z.min (k * Z.max 2000 (n / 200)) n.

(** Fisher-Yates with the chosen indices given: for [i] from the last
    position down to 1, exchange position [i] with position [js i]. *)
Fixpoint fisher_yates_from (js : nat → nat) (i : nat) (ds : list cell) : list cell :=
  match i with
  | O => ds
  | S i' => fisher_yates_from js i' (swap ds i (Some (js i)))
  end.

Definition fisher_yates (js : nat → nat) (ds : list cell) : list cell :=
  fisher_yates_from js (length ds - 1) ds.

(** Every chosen index is an earlier-or-equal position. *)
Definition choices_in_range (js : nat → nat) (n : nat) : Prop :=
  ∀ i, (1 ≤ i < n)%nat → (js i ≤ i)%nat.

(** The sequences of choices for [m + 1] cells: one index in [0, i] for each
    position [i = 1, ..., m], the choice for position [i] at place [i - 1];
    there are [(m + 1)!] of them. *)
Fixpoint choice_lists (m : nat) : list (list nat) :=
  match m with
  | O => [[]]
  | S m' => l ← choice_lists m'; (λ j, l ++ [j]) <$> seq 0 (m' + 2)
  end.

Definition choices_of (l : list nat) (i : nat) : nat := default 0%nat (l !! (i - 1)%nat).

(** The rule of the specification for [targetTotal]: [total_available] when
    present and positive, else [count]. *)
Definition targetTotal_when_positive (data : response) : Z :=
  match r_total_available data with
  | Some t => if bool_decide (0 < t) then t else r_count data
  | None => r_count data
  end.

Section Vocabulary.
Context {num : Type} `{!JsNum num}.

(** The state after [k] animation frames. *)
Definition frames (k : nat) (s : page num) : page num := Nat.iter k animation_frame s.

(** Where a session over the cells [ds], started on a canvas that had
    received [d0], stands when its cursor is [c]. *)
Definition at_cursor (ds : list cell) (t : Z) (w h : nat) (d0 : list draw_op)
    (c : nat) (s : page num) : Prop :=
  canvasRef s = Some (Canvas w h (d0 ++ clear_ops (take c ds))) ∧
  if bool_decide (c < length ds)%nat then
    isPaletteRevealing s = true ∧
    ∃ id, scheduled s = [(id, Closure ds c (frame_budget (length ds)) t)]
  else
    isPaletteRevealing s = false ∧ scheduled s = [] ∧ paletteCount s = num_of_Z t.

(** What the frame that moved the cursor to [c] published. *)
Definition published (ds : list cell) (t : Z) (c : nat) (s : page num) : Prop :=
  revealProgress s = progress c (length ds) ∧
  ((c < length ds)%nat → paletteCount s = revealed c (length ds) t).

(** The session terminates after exactly [k] frames: nothing is scheduled
    after the [k]-th, and a callback is pending before each earlier one. *)
Definition completes_after (k : nat) (s0 : page num) : Prop :=
  scheduled (frames k s0) = [] ∧ ∀ j, (j < k)%nat → scheduled (frames j s0) ≠ [].

(** The progress and the count a session over [n] cells publishes at its
    [k]-th frame. *)
Definition progress_at (n k : Z) : num :=
  num_div (num_of_Z (cursorZ n k)) (num_of_Z n).

Definition count_at (n t k : Z) : num :=
  if bool_decide (cursorZ n k < n)
  then Math_floor (num_mul (progress_at n k) (num_of_Z t))
  else num_of_Z t.

Variable random : nat → num.

(** The index drawn at position [i] by a shuffle of [n] cells whose first
    call of [Math.random()] is the [k]-th. *)
Definition pick (k n i : nat) : option nat :=
  as_index (draw (random (k + (n - 1 - i))) i).

(** Each draw of the shuffle is an index between 0 and [i], which is what
    [Math.floor(Math.random() * (i + 1))] is for [Math.random()] in [0, 1). *)
Definition draws_in_range (k n : nat) : Prop :=
  ∀ i, (1 ≤ i < n)%nat → ∃ j, pick k n i = Some j ∧ (j ≤ i)%nat.

End Vocabulary.

(** [Math.random()] returns a double in [0, 1). *)
Definition in_unit_interval (r : float) : Prop :=
  PrimFloat.leb (float_of_Z 0) r = true ∧ PrimFloat.ltb r (float_of_Z 1) = true.

(** [r * (i + 1)] as a real number, [r] being the value of [Math.random()]:
    what the draw [Math.floor(Math.random() * (i + 1))] rounds and
    truncates. *)
Definition scaled_draw (r : float) (i : nat) : R :=
  (float_real r * IZR (Z.of_nat (i + 1)))%R.

(** ** Concrete inputs in binary64 *)

(** A source of values in [0, 1): a small congruential generator. *)
Definition lcg (k : nat) : float :=
  PrimFloat.div (float_of_Z ((Z.of_nat k * 37 + 11) mod 64)) (float_of_Z 64).

Definition sample_response : response :=
  Response None 500 (Some 1185512) "/generated/palette_preview.png" None.

(** A canvas of 2001 x 1 cells, two colours chosen, a successful request,
    the preview loaded and one frame run: 2000 of the 2001 cells are
    cleared and the second frame is scheduled. *)
Definition mid_reveal : page float :=
  run lcg (initial_page (Some (Canvas 2001 1 [])))
      [ClickColor bleu; ClickColor rouge; ClickGenerate;
       FetchResolved sample_response 0; ImageLoaded; AnimationFrame].

Definition cleared_cells (s : page float) : list cell :=
  match canvasRef s with
  | Some cv => cleared (drawn cv)
  | None => []
  end.

(** A 3 x 2 canvas with two colours chosen; the same page once the request
    is in flight (canvas painted over, reveal order stored). *)
Definition small_canvas : canvas := Canvas 3 2 [].

Definition two_colours : page float :=
  run lcg (initial_page (Some small_canvas)) [ClickColor bleu; ClickColor rouge].

Definition awaiting_page : page float := step lcg two_colours ClickGenerate.

(** The page of the source, 800 x 800, with an unshuffled reveal order; the
    page as first rendered, whose stored permutation is empty. *)
Definition big_page : page float :=
  set_dotsRef (grid 800 800) (initial_page (Some (Canvas 800 800 []))).

Definition fresh_page : page float := initial_page (Some (Canvas 800 800 [])).

Definition error_response : response :=
  Response (Some "Nombre de couleurs invalide (1-8 requis)") 0 None "" None.

(** A canvas of 2001 cells, one more than a frame clears, on which a request
    has been sent; a response whose total is negative. *)
Definition wide_page : page float :=
  run lcg (initial_page (Some (Canvas 2001 1 [])))
      [ClickColor bleu; ClickColor rouge; ClickGenerate].

Definition negative_response : response :=
  Response None 500 (Some (-1000)) "/generated/palette_preview.png" None.

(** ** Further vocabulary of the page *)

(** The eight colour keys, in the order of [COLORS]. *)
Definition all_colors : list ColorKey :=
  [bleu; rouge; vert; jaune; orange; marron; gris; violet].

(** The cells cleared on the canvas element, if there is one. *)
Definition cleared_on (cv : option canvas) : list cell :=
  match cv with
  | Some cv => cleared (drawn cv)
  | None => []
  end.

(** The endpoint [handleGeneratePalette] posts to. *)
Definition endpoint_of (m : mode) : string :=
  match m with
  | nuages => "/api/generate-palette"
  | brumes => "/api/generate-palette-crop"
  end.

(** A request carries a selection of two to eight distinct colours. *)
Definition request_ok (r : request) : Prop :=
  NoDup (colors r) ∧ (2 ≤ length (colors r) ≤ 8)%nat.

(** An exchange with the server that yields no image: a response with an
    [error] field; the other events are not responses. *)
Definition fails (e : event) : Prop :=
  match e with
  | FetchResolved data _ => r_error data ≠ None
  | _ => True
  end.

Section PageInvariants.
Context {num : Type} `{!JsNum num}.

(** The selection is a set, the requests in flight carry a selection, there
    is at most one of them and [isPaletteGenerating] tells whether there is
    one. *)
Definition requests_ok (s : page num) : Prop :=
  NoDup (selectedPaletteColors s)
  ∧ Forall request_ok (fetching s)
  ∧ (length (fetching s) ≤ 1)%nat
  ∧ isPaletteGenerating s = bool_decide (fetching s ≠ []).

(** No session has started and none is about to; [cv0] is the canvas as it
    was at first. *)
Definition nothing_revealed (cv0 : option canvas) (s : page num) : Prop :=
  loading s = [] ∧ scheduled s = [] ∧ isPaletteRevealing s = false
  ∧ palettePreview s = None
  ∧ paletteCount s = num_of_Z 0 ∧ revealProgress s = num_of_Z 0
  ∧ cleared_on (canvasRef s) = cleared_on cv0.

End PageInvariants.

(** ** Text *)

(** [String.prototype.toLowerCase] on the ASCII letters.  Strings are
    sequences of bytes here (UTF-8); outside ASCII no letter lowers to an
    ASCII letter of a colour name or to [s]. *)
Definition lower (c : Ascii.ascii) : Ascii.ascii :=
  let n := Ascii.nat_of_ascii c in
  if (65 <=? n)%nat && (n <=? 90)%nat then Ascii.ascii_of_nat (n + 32) else c.

Fixpoint toLowerCase (s : string) : string :=
  match s with
  | EmptyString => EmptyString
  | String c s' => String (lower c) (toLowerCase s')
  end.

Fixpoint chars (s : string) : list Ascii.ascii :=
  match s with
  | EmptyString => []
  | String c s' => c :: chars s'
  end.

(** [parts.join(sep)] *)
Fixpoint join (sep : string) (parts : list string) : string :=
  match parts with
  | [] => EmptyString
  | [p] => p
  | p :: rest => p +:+ sep +:+ join sep rest
  end.

Fixpoint concat_strings (l : list string) : string :=
  match l with
  | [] => EmptyString
  | p :: rest => p +:+ concat_strings rest
  end.

(** [s.split(sep)] for a separator matched one character at a time: the
    pieces between the matches and, when [keep] is set (a capturing group
    in the pattern), the matched characters as pieces of their own. *)
Fixpoint split_string (is_sep : Ascii.ascii → bool) (keep : bool) (s : string) : list string :=
  match s with
  | EmptyString => [EmptyString]
  | String c s' =>
      if is_sep c then
        EmptyString :: (if keep then [String c EmptyString] else [])
                    ++ split_string is_sep keep s'
      else
        match split_string is_sep keep s' with
        | p :: rest => String c p :: rest
        | [] => [String c EmptyString]
        end
  end.

(** The pattern [/(s)/gi]. *)
Definition is_s (c : Ascii.ascii) : bool :=
  let n := Ascii.nat_of_ascii c in (n =? 115)%nat || (n =? 83)%nat.

(** What [UnderlineS] renders: spans of class [underline-s], and plain
    text. *)
Inductive node :=
  | Underlined (text : string)
  | PlainText (text : string).

Definition text_of (n : node) : string :=
  match n with
  | Underlined t | PlainText t => t
  end.

Definition is_underlined (n : node) : bool :=
  match n with
  | Underlined _ => true
  | PlainText _ => false
  end.

Definition render_part (part : string) : node :=
  if String.eqb (toLowerCase part) "s" then Underlined part else PlainText part.

Definition UnderlineS (children : string) : list node :=
  render_part <$> split_string is_s true children.

(** [path.split('/').pop() || fallback] *)
Definition is_slash (c : Ascii.ascii) : bool := (Ascii.nat_of_ascii c =? 47)%nat.

Definition slash_free (s : string) : Prop := Forall (λ c, is_slash c = false) (chars s).

Definition file_name (fallback path : string) : string :=
  match list.last (split_string is_slash false path) with
  | Some name => if String.eqb name "" then fallback else name
  | None => fallback
  end.

(** The anchor element a download creates and clicks. *)
Record download_link := Link {
  href : string;
  download : string
}.

(** [handleDownload(result)], [full] being [result?.full]. *)
Definition handleDownload (full : option string) : option download_link :=
  match full with
  | Some path =>
      if String.eqb path "" then None
      else Some (Link path (file_name "colorpaps.png" path))
  | None => None
  end.

(** ** The generation route *)

(** A parsed JSON value; the members of an object in the order of the text,
    with distinct keys. *)
#[warnings="-register-all"] Inductive json :=
  | JNull
  | JBool (b : bool)
  | JNum (x : float)
  | JStr (s : string)
  | JArr (items : list json)
  | JObj (members : list (string * json)).

(** [o.k] for a value [o] other than [null]: [None] is [undefined]. *)
Fixpoint member (k : string) (members : list (string * json)) : option json :=
  match members with
  | [] => None
  | (k', v) :: rest => if String.eqb k k' then Some v else member k rest
  end.

Definition property (k : string) (o : json) : option json :=
  match o with
  | JObj members => member k members
  | _ => None
  end.

(** Truthiness, as tested by [!v] and [if (v)]. *)
Definition truthy (v : option json) : bool :=
  match v with
  | None | Some JNull => false
  | Some (JBool b) => b
  | Some (JNum x) => negb (PrimFloat.eqb x 0 || PrimFloat.is_nan x)
  | Some (JStr s) => negb (String.eqb s "")
  | Some (JArr _) | Some (JObj _) => true
  end.

Definition VALID_COLORS : list string :=
  ["bleu"; "rouge"; "vert"; "jaune"; "orange"; "marron"; "gris"; "violet"].

(** What a [throw] carries: an [Error] with its message, or another value. *)
Inductive thrown :=
  | Error (message : string)
  | NotAnError.

(** How the child process ends for the promise: the first of its [close]
    event (exit code, [null] when killed by a signal, and what it wrote) and
    its [error] event. *)
Inductive process_end :=
  | Close (code : option Z) (stdout stderr : string)
  | ProcessError (err : thrown).

Record http_response := Reply {
  status : Z;
  body : json
}.

(** An answer whose body is an object with the single member [error], a
    string. *)
Definition error_body (r : http_response) : Prop :=
  ∃ m, body r = JObj [("error", JStr m)].

Inductive route_action :=
  | Respond (r : http_response)
  | RunPython (args : list string).

(** The loop over [colors]: the first colour that is not valid, or a value
    on which [color.toLowerCase()] throws. *)
Inductive checked :=
  | AllValid
  | InvalidColor (color : string)
  | NotAString (v : json).

Fixpoint check_colors (l : list json) : checked :=
  match l with
  | [] => AllValid
  | JStr c :: rest =>
      if bool_decide (toLowerCase c ∈ VALID_COLORS) then check_colors rest else InvalidColor c
  | v :: _ => NotAString v
  end.

(** [colors.map((c: string) => c.toLowerCase())], on strings. *)
Definition lowered (l : list json) : list string :=
  omap (λ v, match v with JStr c => Some (toLowerCase c) | _ => None end) l.

Section Route.

(** [path.join(process.cwd(), 'generate_palette.py')], the platform's
    [JSON.parse] (a value, or the message of the [SyntaxError]) and
    [String.prototype.trim], the message of the [TypeError] thrown by a
    property access on [null] or by calling [toLowerCase] on a value that
    has none, and the run of [python3] on given arguments. *)
Variable scriptPath : string.
Variable JSON_parse : string → json + string.
Variable trim : string → string.
Variable type_error : json → string.
Variable python3 : list string → process_end.

(** The [catch] block. *)
Definition caught (e : thrown) : http_response :=
  Reply 500 (JObj [("error",
                    JStr match e with Error m => m | NotAnError => "Erreur inconnue" end)]).

Definition bad_request (message : string) : http_response :=
  Reply 400 (JObj [("error", JStr message)]).

(** [POST], up to the [spawn]; [request.json()] has produced [body] or
    thrown. *)
Definition validate (body : json + thrown) : route_action :=
  match body with
  | inr e => Respond (caught e)
  | inl JNull => Respond (caught (Error (type_error JNull)))
  | inl body =>
      let colors := property "colors" body in
      let full := property "full" body in
      match colors with
      | Some (JArr l) =>
          if bool_decide (length l < 1)%nat || bool_decide (8 < length l)%nat then
            Respond (bad_request "Nombre de couleurs invalide (1-8 requis)")
          else
            match check_colors l with
            | InvalidColor c =>
                Respond (bad_request ("Couleur invalide: " +:+ c +:+ ". Choix: "
                                      +:+ join ", " VALID_COLORS))
            | NotAString v => Respond (caught (Error (type_error v)))
            | AllValid =>
                RunPython ([scriptPath; join "," (lowered l)]
                           ++ if truthy full then ["--full"] else [])
            end
      | _ => Respond (bad_request "Nombre de couleurs invalide (1-8 requis)")
      end
  end.

Definition show_code (code : option Z) : string :=
  match code with
  | Some c => pretty c
  | None => "null"
  end.

(** The promise around the child process, [JSON.parse(result.trim())] and
    [NextResponse.json(jsonResult)]. *)
Definition finish (p : process_end) : http_response :=
  match p with
  | Close (Some 0) stdout _ =>
      match JSON_parse (trim stdout) with
      | inl v => Reply 200 v
      | inr m => caught (Error m)
      end
  | Close code _ stderr =>
      caught (Error ("Python exited with code " +:+ show_code code +:+ ": " +:+ stderr))
  | ProcessError e => caught e
  end.

Definition POST (body : json + thrown) : http_response :=
  match validate body with
  | Respond r => r
  | RunPython args => finish (python3 args)
  end.

(** The spectrum route: the same promise, on the script
    [path.join(process.cwd(), 'generate_spectrum.py')] and with no
    argument. *)
Definition POST_spectrum (spectrumPath : string) : http_response :=
  finish (python3 [spectrumPath]).

End Route.

(** The string a [ColorKey] is, and the body the page posts:
    [JSON.stringify({ colors, full: false })], as the route parses it. *)
Definition key_name (c : ColorKey) : string :=
  match c with
  | bleu => "bleu" | rouge => "rouge" | vert => "vert" | jaune => "jaune"
  | orange => "orange" | marron => "marron" | gris => "gris" | violet => "violet"
  end.

Definition request_body (r : request) : json :=
  JObj [("colors", JArr ((λ c, JStr (key_name c)) <$> colors r)); ("full", JBool false)].

(** The separator of the colours argument. *)
Definition comma : Ascii.ascii := Ascii.ascii_of_nat 44.

Definition lowercase_letter (c : Ascii.ascii) : Prop :=
  (97 ≤ Ascii.nat_of_ascii c ≤ 122)%nat.

(** ** The HD viewer and the info pages *)

(** The rest of the arithmetic the viewer uses. *)
Class JsArith (num : Type) `{!JsNum num} := {
  num_sub : num → num → num;     (* a - b *)
  num_leb : num → num → bool;    (* a <= b *)
  num_ltb : num → num → bool;    (* a < b *)
  Math_min : num → num → num;
  Math_max : num → num → num
}.

(** [Math.max] and [Math.min] of two doubles: NaN when either is; of two
    zeros, [+0] is the larger. *)
Definition float_max (a b : float) : float :=
  if PrimFloat.is_nan a || PrimFloat.is_nan b then nan
  else if PrimFloat.ltb a b then b
  else if PrimFloat.ltb b a then a
  else if PrimFloat.get_sign a then b else a.

Definition float_min (a b : float) : float :=
  if PrimFloat.is_nan a || PrimFloat.is_nan b then nan
  else if PrimFloat.ltb a b then a
  else if PrimFloat.ltb b a then b
  else if PrimFloat.get_sign a then a else b.

#[export] Instance float_JsArith : JsArith float := {
  num_sub := PrimFloat.sub;
  num_leb := PrimFloat.leb;
  num_ltb := PrimFloat.ltb;
  Math_min := float_min;
  Math_max := float_max
}.

(** A decimal literal [a / b], such as [0.9]: the double nearest to the
    fraction, which is what the correctly rounded quotient of the two
    integers is. *)
Definition decimal {num : Type} `{!JsNum num} (a b : Z) : num :=
  num_div (num_of_Z a) (num_of_Z b).

Inductive InfoPageKey := demarche | methode | artiste.

#[export] Instance InfoPageKey_eq_dec : EqDecision InfoPageKey.
Proof. solve_decision. Defined.

(** [const pages: InfoPage[] = ['demarche', 'methode', 'artiste']];
    [InfoPage] includes [null]. *)
Definition pages : list (option InfoPageKey) := [Some demarche; Some methode; Some artiste].

(** [pages.indexOf(p)], -1 when absent. *)
Fixpoint indexOf (p : option InfoPageKey) (l : list (option InfoPageKey)) : Z :=
  match l with
  | [] => -1
  | q :: rest =>
      if bool_decide (q = p) then 0
      else let i := indexOf p rest in if i <? 0 then -1 else i + 1
  end.

(** [pages[i]]; out of range it is [undefined], which the page treats as
    [null]. *)
Definition page_at (i : Z) : option InfoPageKey :=
  if i <? 0 then None else mjoin (pages !! Z.to_nat i).

Definition previous_page (p : option InfoPageKey) : option InfoPageKey :=
  let currentIndex := indexOf p pages in
  let prevIndex := if currentIndex =? 0 then Z.of_nat (length pages) - 1 else currentIndex - 1 in
  page_at prevIndex.

Definition next_page (p : option InfoPageKey) : option InfoPageKey :=
  let currentIndex := indexOf p pages in
  let nextIndex := if currentIndex =? Z.of_nat (length pages) - 1 then 0 else currentIndex + 1 in
  page_at nextIndex.

(** The labels beside the two arrows. *)
Definition left_label (p : option InfoPageKey) : string :=
  match p with
  | Some demarche => "Artiste"
  | Some methode => "Démarche"
  | _ => "Méthode"
  end.

Definition right_label (p : option InfoPageKey) : string :=
  match p with
  | Some demarche => "Méthode"
  | Some methode => "Artiste"
  | _ => "Démarche"
  end.

(** The text of the links of the navigation bar that open the info
    pages. *)
Definition link_label (q : InfoPageKey) : string :=
  match q with
  | demarche => "Démarche"
  | methode => "Méthode"
  | artiste => "L'Artiste"
  end.

(** [s.endsWith(suffix)] *)
Definition ends_with (suffix s : string) : bool :=
  let n := String.length s in
  let k := String.length suffix in
  (k <=? n)%nat && String.eqb (String.substring (n - k) k s) suffix.

Section Viewer.
Context {num : Type} `{!JsNum num} `{!JsArith num}.

Record viewer := Viewer {
  hdModalOpen : bool;
  hdModalImage : option string;
  hdModalTitle : string;
  isDragging : bool;
  dragStart : num * num;
  imagePos : num * num;
  imageScale : num;
  infoPage : option InfoPageKey
}.

Definition openHdModal (imagePath title : string) (v : viewer) : viewer :=
  Viewer true (Some imagePath) title (isDragging v) (dragStart v)
         (num_of_Z 0, num_of_Z 0) (num_of_Z 1) (infoPage v).

Definition closeHdModal (v : viewer) : viewer :=
  Viewer false None "" (isDragging v) (dragStart v)
         (num_of_Z 0, num_of_Z 0) (num_of_Z 1) (infoPage v).

Definition setInfoPage (p : option InfoPageKey) (v : viewer) : viewer :=
  Viewer (hdModalOpen v) (hdModalImage v) (hdModalTitle v) (isDragging v) (dragStart v)
         (imagePos v) (imageScale v) p.

Definition handleMouseDown (clientX clientY : num) (v : viewer) : viewer :=
  if num_leb (imageScale v) (num_of_Z 1) then v
  else Viewer (hdModalOpen v) (hdModalImage v) (hdModalTitle v) true
              (num_sub clientX (imagePos v).1, num_sub clientY (imagePos v).2)
              (imagePos v) (imageScale v) (infoPage v).

Definition handleMouseMove (clientX clientY : num) (v : viewer) : viewer :=
  if isDragging v then
    Viewer (hdModalOpen v) (hdModalImage v) (hdModalTitle v) (isDragging v) (dragStart v)
           (num_sub clientX (dragStart v).1, num_sub clientY (dragStart v).2)
           (imageScale v) (infoPage v)
  else v.

Definition handleMouseUp (v : viewer) : viewer :=
  Viewer (hdModalOpen v) (hdModalImage v) (hdModalTitle v) false (dragStart v)
         (imagePos v) (imageScale v) (infoPage v).

(** [handleWheel]; [rect] is the top-left corner of the wrapper's bounding
    rectangle, [None] when [modalWrapperRef.current] is [null]. *)
Definition handleWheel (clientX clientY deltaY : num) (rect : option (num * num))
    (v : viewer) : viewer :=
  match rect with
  | None => v
  | Some (rectLeft, rectTop) =>
      let mouseX := num_sub clientX rectLeft in
      let mouseY := num_sub clientY rectTop in
      let delta := if num_ltb (num_of_Z 0) deltaY then decimal 9 10 else decimal 11 10 in
      let newScale :=
        Math_min (Math_max (num_mul (imageScale v) delta) (num_of_Z 1)) (num_of_Z 25) in
      let scaleChange := num_div newScale (imageScale v) in
      let newX := num_sub mouseX (num_mul (num_sub mouseX (imagePos v).1) scaleChange) in
      let newY := num_sub mouseY (num_mul (num_sub mouseY (imagePos v).2) scaleChange) in
      Viewer (hdModalOpen v) (hdModalImage v) (hdModalTitle v) (isDragging v) (dragStart v)
             (newX, newY) newScale (infoPage v)
  end.

(** The [keydown] listener. *)
Definition handleKeyDown (key : string) (v : viewer) : viewer :=
  if String.eqb key "Escape" then
    let v := if hdModalOpen v then closeHdModal v else v in
    match infoPage v with
    | Some _ => setInfoPage None v
    | None => v
    end
  else v.

(** The modal is rendered, with its handlers, when [hdModalOpen &&
    hdModalImage]; the arrows of the info pages when [infoPage] is set. *)
Definition modal_shown (v : viewer) : bool :=
  hdModalOpen v && match hdModalImage v with Some p => negb (String.eqb p "") | None => false end.

Inductive viewer_event :=
  | OpenHd (imagePath title : string)
  | OverlayClick
  | MouseDown (clientX clientY : num)
  | MouseMove (clientX clientY : num)
  | MouseUp
  | Wheel (clientX clientY deltaY : num) (rect : option (num * num))
  | KeyDown (key : string)
  | ShowInfo (p : InfoPageKey)
  | CloseInfo
  | PreviousInfo
  | NextInfo.

Definition viewer_step (v : viewer) (e : viewer_event) : viewer :=
  match e with
  | OpenHd imagePath title => openHdModal imagePath title v
  | OverlayClick => if modal_shown v then closeHdModal v else v
  | MouseDown x y => if modal_shown v then handleMouseDown x y v else v
  | MouseMove x y => if modal_shown v then handleMouseMove x y v else v
  | MouseUp => if modal_shown v then handleMouseUp v else v
  | Wheel x y d rect => if modal_shown v then handleWheel x y d rect v else v
  | KeyDown key => handleKeyDown key v
  | ShowInfo p => setInfoPage (Some p) v
  | CloseInfo => match infoPage v with Some _ => setInfoPage None v | None => v end
  | PreviousInfo =>
      match infoPage v with Some _ => setInfoPage (previous_page (infoPage v)) v | None => v end
  | NextInfo =>
      match infoPage v with Some _ => setInfoPage (next_page (infoPage v)) v | None => v end
  end.

Definition viewer_run (v : viewer) (es : list viewer_event) : viewer :=
  fold_left viewer_step es v.

(** The events of the mouse buttons and of the pointer. *)
Definition mouse_only (e : viewer_event) : Prop :=
  match e with
  | MouseDown _ _ | MouseMove _ _ | MouseUp => True
  | _ => False
  end.

End Viewer.

Arguments viewer : clear implicits.
Arguments viewer_event : clear implicits.

Definition initial_viewer {num : Type} `{!JsNum num} : viewer num :=
  Viewer false None "" false (num_of_Z 0, num_of_Z 0) (num_of_Z 0, num_of_Z 0)
         (num_of_Z 1) None.

(** The zoom factor is a double between 1 and 25. *)
Definition scale_in_range (v : viewer float) : Prop :=
  PrimFloat.leb (float_of_Z 1) (imageScale v) = true
  ∧ PrimFloat.leb (imageScale v) (float_of_Z 25) = true.

(** ** The background colour *)

Inductive TabKey :=
  | monochromes | monochromesbis | rencontres | rencontrescrop | spectrum | galerie.

Definition TINTS (c : ColorKey) : string :=
  match c with
  | bleu => "#e8eff5"
  | rouge => "#f5e8e8"
  | vert => "#e8f2ea"
  | jaune => "#f7f2e8"
  | orange => "#f5ede5"
  | marron => "#f0ebe8"
  | gris => "#eeefec"
  | violet => "#f2e8f5"
  end.

Definition SPECTRUM_BG : string := "#f0f2f5".
Definition PALETTE_BG : string := "#f5f0f5".

(** [s.replace('#', '')]: the first [#] is removed. *)
Fixpoint remove_hash (s : string) : string :=
  match s with
  | EmptyString => EmptyString
  | String c s' => if (Ascii.nat_of_ascii c =? 35)%nat then s' else String c (remove_hash s')
  end.

(** [s.slice(a, b)] for [0 <= a <= b]. *)
Definition slice_string (a b : nat) (s : string) : string := String.substring a (b - a) s.

Definition hex_digit (c : Ascii.ascii) : option Z :=
  let n := Z.of_nat (Ascii.nat_of_ascii c) in
  if (48 <=? n) && (n <=? 57) then Some (n - 48)
  else if (97 <=? n) && (n <=? 102) then Some (n - 87)
  else if (65 <=? n) && (n <=? 70) then Some (n - 55)
  else None.

(** The longest prefix of hexadecimal digits, read after [acc]; [None] when
    no digit has been read. *)
Fixpoint hex_prefix (acc : option Z) (s : string) : option Z :=
  match s with
  | EmptyString => acc
  | String c s' =>
      match hex_digit c with
      | Some d => hex_prefix (Some (default 0 acc * 16 + d)) s'
      | None => acc
      end
  end.

Definition is_space (c : Ascii.ascii) : bool :=
  let n := Ascii.nat_of_ascii c in ((9 <=? n) && (n <=? 13) || (n =? 32))%nat.

Fixpoint skip_spaces (s : string) : string :=
  match s with
  | String c s' => if is_space c then skip_spaces s' else s
  | EmptyString => s
  end.

(** [parseInt(s, 16)] on ASCII text: leading white space, a sign and a
    [0x] prefix are skipped, and NaN is returned when no digit follows. *)
Definition parseInt16 (s : string) : float :=
  let s := skip_spaces s in
  let '(negative, s) :=
    match s with
    | String c s' =>
        if (Ascii.nat_of_ascii c =? 45)%nat then (true, s')
        else if (Ascii.nat_of_ascii c =? 43)%nat then (false, s')
        else (false, s)
    | EmptyString => (false, s)
    end in
  let s :=
    match s with
    | String c (String x s') =>
        if (Ascii.nat_of_ascii c =? 48)%nat
           && ((Ascii.nat_of_ascii x =? 120) || (Ascii.nat_of_ascii x =? 88))%nat
        then s' else s
    | _ => s
    end in
  match hex_prefix None s with
  | Some z => if negative then PrimFloat.opp (float_of_Z z) else float_of_Z z
  | None => nan
  end.

(** [Math.round]: the nearest integer, a tie going up; a result of zero
    keeps the sign of the argument. *)
Definition float_round (x : float) : float :=
  match Prim2SF x with
  | S754_finite s m e =>
      if e <? 0 then
        let n := Z.shiftr (2 * cond_Zopp s (Zpos m) + 2 ^ (- e)) (- e + 1) in
        if n =? 0 then SF2Prim (S754_zero s) else float_of_Z n
      else x
  | _ => x
  end.

(** A CSS colour: a literal of the source, or the text
    [rgb(${r}, ${g}, ${b})] for three numbers. *)
Inductive css :=
  | Css (text : string)
  | Rgb (r g b : float).

(** The three channels of a tint. *)
Definition rgb_of (c : ColorKey) : float * float * float :=
  let hex := remove_hash (TINTS c) in
  (parseInt16 (slice_string 0 2 hex), parseInt16 (slice_string 2 4 hex),
   parseInt16 (slice_string 4 6 hex)).

(** The branch of a "Rencontres" tab, [colors] being the selection in the
    order of [Array.from]. *)
Definition mix (colors : list ColorKey) : css :=
  match colors with
  | [] => Css PALETTE_BG
  | [c] => Css (TINTS c)
  | _ =>
      let rgbColors := rgb_of <$> colors in
      let avg :=
        fold_left (λ (a c : float * float * float),
                     (PrimFloat.add a.1.1 c.1.1, PrimFloat.add a.1.2 c.1.2,
                      PrimFloat.add a.2 c.2))
                  rgbColors (float_of_Z 0, float_of_Z 0, float_of_Z 0) in
      let n := float_of_Z (Z.of_nat (length colors)) in
      Rgb (float_round (PrimFloat.div avg.1.1 n)) (float_round (PrimFloat.div avg.1.2 n))
          (float_round (PrimFloat.div avg.2 n))
  end.

Definition bgColor (activeTab : TabKey) (selectedColor : ColorKey)
    (selectedPaletteColors selectedCropColors : list ColorKey) : css :=
  match activeTab with
  | spectrum => Css SPECTRUM_BG
  | galerie => Css "#f5f5f0"
  | rencontres => mix selectedPaletteColors
  | rencontrescrop => mix selectedCropColors
  | monochromesbis => Css (TINTS bleu)
  | monochromes => Css (TINTS selectedColor)
  end.

(** The channels of a tint as integers, and the mean of integers rounded to
    the nearest, a tie going up. *)
Definition channel (k : nat) (c : ColorKey) : Z :=
  default 0 (hex_prefix None (slice_string (2 * k) (2 * k + 2) (remove_hash (TINTS c)))).

Definition rounded_mean (l : list Z) : Z :=
  (2 * foldr Z.add 0 l + Z.of_nat (length l)) / (2 * Z.of_nat (length l)).

#[export] Instance spec_float_eq_dec : EqDecision spec_float.
Proof. solve_decision. Defined.

(** The same double, bit for bit. *)
Definition same_float (x y : float) : bool := bool_decide (Prim2SF x = Prim2SF y).

(** The sum of a channel over a selection. *)
Definition channel_sum (k : nat) (l : list ColorKey) : Z := foldr Z.add 0 (channel k <$> l).

(** The channels of the eight tints. *)
Definition tint_channels : list Z := c ← all_colors; (λ k, channel k c) <$> [0; 1; 2]%nat.

(** ** Further concrete inputs *)

(** A request body with mixed case and [full] set; a drag attempted on the
    viewer as first rendered; a viewer zoomed to twice the size, its image
    moved by a tenth of a pixel. *)
Definition sample_body : json :=
  JObj [("colors", JArr [JStr "Bleu"; JStr "rouge"]); ("full", JBool true)].

Definition sample_drag : list (viewer_event float) :=
  [MouseDown (float_of_Z 1) (float_of_Z 2); MouseMove (float_of_Z 30) (float_of_Z 40); MouseUp].

Definition zoomed_viewer : viewer float :=
  Viewer true (Some "/generated/bleu_hq.webp") "bleus" false (float_of_Z 0, float_of_Z 0)
         (PrimFloat.div (float_of_Z 1) (float_of_Z 10), float_of_Z 0) (float_of_Z 2) None.

(** * Properties *)

(** ** The reveal loop, frame by frame *)

Section Revealer.
Context {num : Type} `{!JsNum num}.
Implicit Types (s : page num) (ds : list cell) (cl : reveal_closure).

Lemma frame_budget_pos n : (2000 ≤ frame_budget n)%nat.
Proof. unfold frame_budget. lia. Qed.

Lemma take_slice ds a b : (a ≤ b)%nat → take a ds ++ slice ds a b = take b ds.
Proof.
  intros Hab. unfold slice.
  rewrite <- (take_drop a (take b ds)) at 1.
  rewrite take_take, Nat.min_l by lia.
  f_equal. now rewrite skipn_firstn_comm.
Qed.

Lemma cleared_clear_ops batch : cleared (clear_ops batch) = batch.
Proof.
  unfold cleared, clear_ops. induction batch as [|[x y] batch IH]; [done|].
  cbn. now rewrite IH.
Qed.

Lemma animation_frame_idle s : scheduled s = [] → animation_frame s = s.
Proof. intros Hs. unfold animation_frame. rewrite Hs. now destruct s; cbn in *; subst. Qed.

Lemma animation_frame_one s id cl :
  scheduled s = [(id, cl)] → animation_frame s = reveal cl (set_scheduled [] s).
Proof. intros Hs. unfold animation_frame. now rewrite Hs. Qed.

Lemma start_at_cursor s cv t :
  canvasRef s = Some cv → scheduled s = [] → dotsRef s ≠ [] →
  at_cursor (dotsRef s) t (width cv) (height cv) (drawn cv) 0 (startRevealAnimation t s).
Proof.
  intros Hcv Hsch Hne. unfold at_cursor, startRevealAnimation. rewrite Hcv. cbn.
  rewrite Hcv, Hsch, app_nil_r. split; [by destruct cv|].
  rewrite bool_decide_true; [eauto|].
  destruct (dotsRef s); [done | cbn; lia].
Qed.

Lemma frame_at_cursor ds t w h d0 c s :
  let b := frame_budget (length ds) in
  at_cursor ds t w h d0 c s → (c < length ds)%nat →
  at_cursor ds t w h d0 (Nat.min (c + b) (length ds)) (animation_frame s)
  ∧ published ds t (Nat.min (c + b) (length ds)) (animation_frame s).
Proof.
  intros b [Hcv Hrun] Hc. rewrite bool_decide_true in Hrun by done.
  destruct Hrun as [Hact [id Hsch]].
  rewrite (animation_frame_one _ _ _ Hsch).
  unfold reveal, at_cursor, published. cbn [dots currentIndex dotsPerFrame totalCount].
  fold b. set (e := Nat.min (c + b) (length ds)).
  assert (Hce : (c ≤ e)%nat) by (unfold e; lia).
  assert (Hdrawn : (d0 ++ clear_ops (take c ds))
                   ++ ((λ c0 : cell, ClearRect c0.1 c0.2 1 1) <$> slice ds c e)
                   = d0 ++ clear_ops (take e ds)).
  { rewrite <- app_assoc. f_equal. rewrite <- (take_slice ds c e) by done.
    unfold clear_ops. now rewrite fmap_app. }
  unfold clear_cells. cbn. rewrite Hcv. cbn.
  destruct (bool_decide (e < length ds)%nat) eqn:He; cbn; rewrite Hdrawn.
  - rewrite Hact. eauto 6.
  - apply bool_decide_eq_false in He. repeat split; done.
Qed.

Lemma idle_at_cursor ds t w h d0 s :
  at_cursor ds t w h d0 (length ds) s →
  at_cursor ds t w h d0 (length ds) (animation_frame s) ∧
  (published ds t (length ds) s → published ds t (length ds) (animation_frame s)).
Proof.
  intros Hat. assert (Hs : scheduled s = []).
  { destruct Hat as [_ Hfin]. rewrite bool_decide_false in Hfin by lia. tauto. }
  now rewrite (animation_frame_idle _ Hs).
Qed.

Lemma cursor_0 n : cursor n 0 = 0%nat.
Proof. unfold cursor. lia. Qed.

Lemma cursor_S n k :
  cursor n (S k) =
  if bool_decide (cursor n k < n)%nat then Nat.min (cursor n k + frame_budget n) n else n.
Proof. unfold cursor. rewrite Nat.mul_succ_l. case_bool_decide; lia. Qed.

Lemma cursor_le n k : (cursor n k ≤ n)%nat.
Proof. unfold cursor. lia. Qed.

Lemma cursor_mono n k j : (k ≤ j)%nat → (cursor n k ≤ cursor n j)%nat.
Proof. unfold cursor. nia. Qed.

(** The whole session: after [k] frames the cursor is [cursor n k], and from
    the first frame on the published values are those of that cursor. *)
Lemma session_frames s cv t k :
  canvasRef s = Some cv → scheduled s = [] → dotsRef s ≠ [] →
  let ds := dotsRef s in
  let sk := frames k (startRevealAnimation t s) in
  at_cursor ds t (width cv) (height cv) (drawn cv) (cursor (length ds) k) sk
  ∧ ((1 ≤ k)%nat → published ds t (cursor (length ds) k) sk).
Proof.
  intros Hcv Hsch Hne ds. induction k as [|k [IHat IHpub]]; cbn zeta.
  - rewrite cursor_0. split; [by apply start_at_cursor | lia].
  - unfold frames in *.
    change (Nat.iter (S k) animation_frame ?x) with (animation_frame (Nat.iter k animation_frame x)).
    rewrite cursor_S. destruct (decide (cursor (length ds) k < length ds)%nat) as [Hc|Hc].
    + rewrite bool_decide_true by done.
      destruct (frame_at_cursor _ _ _ _ _ _ _ IHat Hc) as [Hq Hp]. split; [exact Hq | intros _; exact Hp].
    + rewrite bool_decide_false by done.
      assert (Hn : cursor (length ds) k = length ds) by (pose proof (cursor_le (length ds) k); lia).
      rewrite Hn in *. destruct (idle_at_cursor _ _ _ _ _ _ IHat) as [Hq Hp]. split; [exact Hq|].
      intros _. apply Hp, IHpub. destruct k; [|lia]. rewrite cursor_0 in Hn.
      exfalso. apply Hne. apply nil_length_inv. now symmetry.
Qed.

Lemma ceil_div_le n b k : (0 < b)%nat → (ceil_div n b ≤ k)%nat ↔ (n ≤ k * b)%nat.
Proof.
  intros Hb. unfold ceil_div. split; intros Hk.
  - destruct (decide (n ≤ k * b)%nat) as [|Hn]; [done|]. exfalso.
    assert (S k ≤ (n + b - 1) / b)%nat; [|lia].
    apply Nat.div_le_lower_bound; lia.
  - assert ((n + b - 1) / b < S k)%nat; [|lia].
    apply Nat.Div0.div_lt_upper_bound; lia.
Qed.

Lemma cursor_done n k :
  cursor n k = n ↔ (ceil_div n (frame_budget n) ≤ k)%nat.
Proof.
  pose proof (frame_budget_pos n). rewrite ceil_div_le by lia. unfold cursor. lia.
Qed.

Lemma at_cursor_scheduled ds t w h d0 c s :
  at_cursor ds t w h d0 c s → (scheduled s ≠ [] ↔ (c < length ds)%nat).
Proof.
  intros [_ H]. case_bool_decide as Hc.
  - destruct H as [_ [id ->]]. split; [done|]. intros _. discriminate.
  - destruct H as (_ & -> & _). tauto.
Qed.

(** C2: for a non-empty permutation and every [targetTotal] (non-negative or
    not), one run of the callback reschedules itself exactly when its new
    cursor is strictly below [totalCells], and otherwise marks the session
    inactive and sets the displayed count to [targetTotal]; over the
    session, a callback is pending after [k] frames exactly while the cursor
    is below [totalCells], the session is active until then, and once the
    cursor has reached [totalCells], which it does after
    [ceil(totalCells / B)] frames, the session is inactive and the displayed
    count is [targetTotal] itself, not a floored product. *)
Theorem reveal_completion (s : page num) (cv : canvas) (t : Z) :
  canvasRef s = Some cv → scheduled s = [] → (0 < length (dotsRef s))%nat →
  let n := length (dotsRef s) in
  let s0 := startRevealAnimation t s in
  (∀ (cl : reveal_closure) (s' : page num),
     let e := Nat.min (currentIndex cl + dotsPerFrame cl) (length (dots cl)) in
     ((e < length (dots cl))%nat →
        scheduled (reveal cl s') =
          scheduled s' ++ [(next_request_id s',
                            Closure (dots cl) e (dotsPerFrame cl) (totalCount cl))])
     ∧ (¬ (e < length (dots cl))%nat →
        scheduled (reveal cl s') = scheduled s'
        ∧ isPaletteRevealing (reveal cl s') = false
        ∧ paletteCount (reveal cl s') = num_of_Z (totalCount cl)))
  ∧ (∀ k, (scheduled (frames k s0) ≠ [] ↔ (cursor n k < n)%nat)
          ∧ ((cursor n k < n)%nat → isPaletteRevealing (frames k s0) = true)
          ∧ (cursor n k = n →
               isPaletteRevealing (frames k s0) = false
               ∧ paletteCount (frames k s0) = num_of_Z t))
  ∧ cursor n (ceil_div n (frame_budget n)) = n.
Proof.
  intros Hcv Hsch Hn n s0. split; [|split].
  - intros cl s' e. unfold reveal. fold e. split; intros He.
    + rewrite bool_decide_true by done. unfold clear_cells.
      destruct (canvasRef s'); reflexivity.
    + rewrite bool_decide_false by done. unfold clear_cells.
      destruct (canvasRef s'); cbn; done.
  - intros k.
    assert (Hne : dotsRef s ≠ []) by (intros E; rewrite E in Hn; cbn in Hn; lia).
    destruct (session_frames s cv t k Hcv Hsch Hne) as [Hat _].
    split; [exact (at_cursor_scheduled _ _ _ _ _ _ _ Hat)|].
    destruct Hat as [_ Hat]. fold n in Hat. fold s0 in Hat.
    split; intros Hc.
    + rewrite bool_decide_true in Hat by done. tauto.
    + rewrite bool_decide_false in Hat by lia. tauto.
  - now apply cursor_done.
Qed.

(** The values published by the [k]-th frame, for [k >= 1]. *)
Lemma published_values (s : page num) (cv : canvas) (t : Z) (k : nat) :
  canvasRef s = Some cv → scheduled s = [] → (0 < length (dotsRef s))%nat →
  (1 ≤ k)%nat →
  let n := length (dotsRef s) in
  let sk := frames k (startRevealAnimation t s) in
  revealProgress sk = progress (cursor n k) n
  ∧ ((cursor n k < n)%nat → paletteCount sk = revealed (cursor n k) n t)
  ∧ (cursor n k = n → paletteCount sk = num_of_Z t).
Proof.
  intros Hcv Hsch Hn Hk n sk.
  assert (Hne : dotsRef s ≠ []) by (intros E; rewrite E in Hn; cbn in Hn; lia).
  destruct (session_frames s cv t k Hcv Hsch Hne) as [[_ Hat] Hpub].
  destruct (Hpub Hk) as [Hp Hc]. fold n in Hat, Hp, Hc. fold sk in Hat, Hp, Hc.
  split; [exact Hp|]. split; [exact Hc|].
  intros Hd. rewrite bool_decide_false in Hat by lia. tauto.
Qed.

(** The cells cleared so far are the first [cursor n k] of the permutation. *)
Lemma cleared_so_far (s : page num) (cv : canvas) (t : Z) (k : nat) :
  canvasRef s = Some cv → scheduled s = [] → (0 < length (dotsRef s))%nat →
  let n := length (dotsRef s) in
  canvasRef (frames k (startRevealAnimation t s)) =
    Some (Canvas (width cv) (height cv)
                 (drawn cv ++ clear_ops (take (cursor n k) (dotsRef s)))).
Proof.
  intros Hcv Hsch Hn n.
  assert (Hne : dotsRef s ≠ []) by (intros E; rewrite E in Hn; cbn in Hn; lia).
  now destruct (session_frames s cv t k Hcv Hsch Hne) as [[Hc _] _].
Qed.

(** C4, amended: for a non-empty permutation of [n] cells, with
    [B = max(2000, floor(n / 200))], the cells cleared after [k] frames are
    the first [min(k * B, n)] of the permutation, so each frame clears the
    next [B] cells, the last one the at most [B] that remain; the reveal
    terminates after exactly [ceil(n / B)] frames; for [n = 1,000,000],
    [B = 5000] and that is 200 frames. *)
Theorem frame_budget_frames (s : page num) (cv : canvas) (t : Z) :
  canvasRef s = Some cv → scheduled s = [] → (0 < length (dotsRef s))%nat →
  let n := length (dotsRef s) in
  let b := frame_budget n in
  let s0 := startRevealAnimation t s in
  b = Nat.max 2000 (n / 200)
  ∧ (∀ k, ∃ cvk, canvasRef (frames k s0) = Some cvk
          ∧ cleared (drawn cvk) = cleared (drawn cv) ++ take (cursor n k) (dotsRef s))
  ∧ (∀ k, (S k < ceil_div n b)%nat → (cursor n (S k) - cursor n k = b)%nat)
  ∧ (∀ k, (S k = ceil_div n b)%nat →
          (0 < cursor n (S k) - cursor n k ≤ b)%nat ∧ cursor n (S k) = n)
  ∧ completes_after (ceil_div n b) s0
  ∧ (n = Z.to_nat 1000000 → b = 5000%nat ∧ ceil_div n b = 200%nat).
Proof.
  intros Hcv Hsch Hn n b s0.
  assert (Hne : dotsRef s ≠ []) by (intros E; rewrite E in Hn; cbn in Hn; lia).
  pose proof (frame_budget_pos n) as Hb. fold b in Hb.
  assert (Hlt : ∀ k, (k < ceil_div n b)%nat ↔ (cursor n k < n)%nat).
  { intros k. pose proof (cursor_done n k) as Hd. fold b in Hd.
    pose proof (cursor_le n k). lia. }
  split; [reflexivity|]. split; [|split; [|split; [|split]]].
  - intros k. eexists. split; [by apply cleared_so_far|]. cbn.
    unfold cleared. rewrite omap_app. f_equal. apply cleared_clear_ops.
  - intros k Hk. apply Hlt in Hk. unfold cursor in *. fold b in Hk |- *.
    rewrite Nat.mul_succ_l in *. lia.
  - intros k Hk.
    assert (H1 : (cursor n k < n)%nat) by (apply Hlt; lia).
    assert (H2 : cursor n (S k) = n) by (apply cursor_done; fold b; lia).
    split; [|done]. rewrite H2. unfold cursor in *. fold b in H1 |- *. lia.
  - split.
    + destruct (session_frames s cv t (ceil_div n b) Hcv Hsch Hne) as [Hat _].
      apply at_cursor_scheduled in Hat. fold n s0 in Hat.
      destruct (scheduled (frames (ceil_div n b) s0)); [done|]. exfalso.
      assert (cursor n (ceil_div n b) = n) by (apply cursor_done; fold b; lia).
      assert (cursor n (ceil_div n b) < n)%nat by (apply Hat; done). lia.
    + intros j Hj.
      destruct (session_frames s cv t j Hcv Hsch Hne) as [Hat _].
      apply at_cursor_scheduled in Hat. apply Hat. fold n. now apply Hlt.
  - intros E. unfold b, ceil_div, frame_budget. rewrite E.
    split; apply Nat2Z.inj;
      rewrite ?Nat2Z.inj_max, ?Nat2Z.inj_div, ?Nat2Z.inj_sub, ?Nat2Z.inj_add,
              ?Nat2Z.inj_max, ?Nat2Z.inj_div, ?Z2Nat.id by lia; reflexivity.
Qed.

(** The same values through the cursor on binary integers. *)
Lemma cursor_Z (n k : nat) : Z.of_nat (cursor n k) = cursorZ (Z.of_nat n) (Z.of_nat k).
Proof.
  unfold cursor, cursorZ, frame_budget.
  now rewrite Nat2Z.inj_min, Nat2Z.inj_mul, Nat2Z.inj_max, Nat2Z.inj_div.
Qed.

Lemma progress_cursor (n k : nat) :
  progress (cursor n k) n = progress_at (Z.of_nat n) (Z.of_nat k).
Proof. unfold progress, progress_at, num_of_nat. now rewrite cursor_Z. Qed.

Lemma published_at (s : page num) (cv : canvas) (t : Z) (k : nat) :
  canvasRef s = Some cv → scheduled s = [] → (0 < length (dotsRef s))%nat →
  (1 ≤ k)%nat →
  let n := Z.of_nat (length (dotsRef s)) in
  let sk := frames k (startRevealAnimation t s) in
  revealProgress sk = progress_at n (Z.of_nat k)
  ∧ paletteCount sk = count_at n t (Z.of_nat k).
Proof.
  intros Hcv Hsch Hn Hk n sk.
  destruct (published_values s cv t k Hcv Hsch Hn Hk) as (Hp & Hc & Hd).
  fold sk in Hp, Hc, Hd. rewrite progress_cursor in Hp. fold n in Hp.
  split; [exact Hp|]. unfold count_at.
  pose proof (cursor_Z (length (dotsRef s)) k) as HZ. fold n in HZ.
  pose proof (cursor_le (length (dotsRef s)) k) as Hle.
  case_bool_decide as Hlt.
  - rewrite Hc by lia. unfold revealed. now rewrite progress_cursor.
  - apply Hd. lia.
Qed.

End Revealer.

(** ** The published values *)

(** C3: for a non-empty permutation of [n] cells, the frame that moves the
    cursor to [c] sets [progressFraction] to [c / n] and, while [c < n],
    [displayedCount] to [floor((c / n) * targetTotal)], a function of the
    progress alone; the frame that reaches [c = n] leaves [targetTotal]
    itself.  In binary64, with [n = 640,000] and [targetTotal = 1,185,512]:
    after 100 frames the cursor is 320,000, the progress 0.5 and the count
    592,756; after 200 frames the cursor is 640,000 and the count
    1,185,512. *)
Theorem count_follows_progress :
  (∀ (num : Type) (J : JsNum num) (s : page num) (cv : canvas) (t : Z) (k : nat),
     canvasRef s = Some cv → scheduled s = [] → (0 < length (dotsRef s))%nat →
     (1 ≤ k)%nat →
     let n := length (dotsRef s) in
     let sk := frames k (startRevealAnimation t s) in
     revealProgress sk = num_div (num_of_nat (cursor n k)) (num_of_nat n)
     ∧ ((cursor n k < n)%nat →
        paletteCount sk =
          Math_floor (num_mul (num_div (num_of_nat (cursor n k)) (num_of_nat n))
                              (num_of_Z t)))
     ∧ (cursor n k = n → paletteCount sk = num_of_Z t))
  ∧ (∀ (s : page float) (cv : canvas),
       canvasRef s = Some cv → scheduled s = [] →
       Z.of_nat (length (dotsRef s)) = 640000 →
       let s0 := startRevealAnimation 1185512 s in
       Z.of_nat (cursor (length (dotsRef s)) 100) = 320000
       ∧ revealProgress (frames 100 s0) = 0.5%float
       ∧ paletteCount (frames 100 s0) = 592756%float
       ∧ Z.of_nat (cursor (length (dotsRef s)) 200) = 640000
       ∧ paletteCount (frames 200 s0) = 1185512%float).
Proof.
  split.
  - intros num J s cv t k Hcv Hsch Hn Hk. exact (published_values s cv t k Hcv Hsch Hn Hk).
  - intros s cv Hcv Hsch Hlen s0.
    assert (Hn : (0 < length (dotsRef s))%nat) by lia.
    destruct (published_at s cv 1185512 100 Hcv Hsch Hn ltac:(lia)) as [Hp Hc].
    destruct (published_at s cv 1185512 200 Hcv Hsch Hn ltac:(lia)) as [_ Hd].
    fold s0 in Hp, Hc, Hd. rewrite Hlen in Hp, Hc, Hd. rewrite !cursor_Z, Hlen.
    split; [vm_compute; reflexivity|]. split; [rewrite Hp; vm_compute; reflexivity|].
    split; [rewrite Hc; vm_compute; reflexivity|]. split; [vm_compute; reflexivity|].
    rewrite Hd. vm_compute. reflexivity.
Qed.

(** ** Rounding in binary64

    The operations of [PrimFloat] are those of [SpecFloat] ([FloatAxioms]),
    which round a mantissa, an exponent and a location with
    [binary_round_aux].  This part shows that the result is the real value
    rounded to nearest, ties to even ([rounds_to]), for positive values of
    at least 2^-1074, and derives what the reveal loop, the shuffle and the
    viewer need: rounding is monotone, it leaves representable numbers
    unchanged, its relative error is at most 2^-53, and a product by a
    number below 1 stays below the other factor. *)

(** *** Powers of two *)

Lemma pow2_pos (e : Z) : (0 < pow2 e)%R.
Proof. apply powerRZ_lt. lra. Qed.

Lemma pow2_add (a b : Z) : pow2 (a + b) = (pow2 a * pow2 b)%R.
Proof. apply powerRZ_add. lra. Qed.

Lemma pow2_S (e : Z) : pow2 (e + 1) = (2 * pow2 e)%R.
Proof. rewrite pow2_add. unfold pow2 at 2. rewrite powerRZ_1. lra. Qed.

Lemma pow2_IZR (n : Z) : 0 ≤ n → pow2 n = IZR (2 ^ n).
Proof.
  intros Hn. unfold pow2. rewrite <- (Z2Nat.id n) by done.
  rewrite <- pow_powerRZ. rewrite <- pow_IZR. reflexivity.
Qed.

Lemma pow2_le (a b : Z) : a ≤ b → (pow2 a <= pow2 b)%R.
Proof.
  intros Hab. replace b with (a + (b - a)) by lia. rewrite pow2_add.
  rewrite (pow2_IZR (b - a)) by lia.
  assert (1 <= IZR (2 ^ (b - a)))%R by (apply IZR_le; lia).
  pose proof (pow2_pos a). nra.
Qed.

Lemma pow2_lt (a b : Z) : a < b → (pow2 a < pow2 b)%R.
Proof.
  intros Hab. replace b with (a + (b - a)) by lia. rewrite pow2_add.
  rewrite (pow2_IZR (b - a)) by lia.
  assert (2 <= IZR (2 ^ (b - a)))%R.
  { apply IZR_le. change 2 with (2 ^ 1) at 1. apply Z.pow_le_mono_r; lia. }
  pose proof (pow2_pos a). nra.
Qed.

(** *** Shifting a mantissa

    One shift to the right halves the mantissa and keeps the location of
    the value, the exponent being one more. *)
Lemma shr_1_m (mrs : shr_record) : 0 ≤ shr_m mrs → shr_m (shr_1 mrs) = shr_m mrs / 2.
Proof.
  destruct mrs as [[|[p|p|]|p] r s]; cbn [shr_1 shr_m]; intros H; try lia.
  - reflexivity.
  - rewrite (Pos2Z.inj_xI p). apply Z.div_unique with 1; lia.
  - rewrite (Pos2Z.inj_xO p). apply Z.div_unique with 0; lia.
  - reflexivity.
Qed.

Lemma shr_1_located (v : R) (e : Z) (mrs : shr_record) :
  0 ≤ shr_m mrs → located v e mrs → located v (e + 1) (shr_1 mrs).
Proof.
  destruct mrs as [m r s]. unfold located. cbn [shr_m shr_r shr_s]. intros Hm.
  rewrite pow2_S. pose proof (pow2_pos e) as Hu. set (u := pow2 e) in *.
  destruct m as [|[p|p|]|p]; [| | | |lia]; cbn [shr_1 shr_m shr_r shr_s orb].
  - destruct r, s; cbn [orb]; intros H; lra.
  - rewrite (Pos2Z.inj_xI p), plus_IZR, mult_IZR. set (x := IZR (Z.pos p)).
    destruct r, s; cbn [orb]; intros H; nra.
  - rewrite (Pos2Z.inj_xO p), mult_IZR. set (x := IZR (Z.pos p)).
    destruct r, s; cbn [orb]; intros H; nra.
  - destruct r, s; cbn [orb]; intros H; lra.
Qed.

Lemma iter_shr_1 (v : R) (p : positive) (e : Z) (mrs : shr_record) :
  0 ≤ shr_m mrs → located v e mrs →
  let mrs' := SpecFloat.iter_pos shr_1 p mrs in
  0 ≤ shr_m mrs' ∧ located v (e + Z.pos p) mrs' ∧ shr_m mrs' = shr_m mrs / 2 ^ Z.pos p.
Proof.
  revert e mrs. induction p as [p IH|p IH|]; intros e mrs Hm Hl; cbn [SpecFloat.iter_pos].
  - pose proof (shr_1_located v e mrs Hm Hl) as H1.
    pose proof (shr_1_m mrs Hm) as E1.
    assert (H0 : 0 ≤ shr_m (shr_1 mrs)) by (rewrite E1; apply Z.div_pos; lia).
    destruct (IH _ _ H0 H1) as (H2 & H3 & E2).
    destruct (IH _ _ H2 H3) as (H4 & H5 & E3).
    split; [done|]. split.
    + replace (e + Z.pos p~1) with (e + 1 + Z.pos p + Z.pos p) by lia. done.
    + rewrite E3, E2, E1, !Z.div_div by lia. f_equal.
      rewrite (Pos2Z.inj_xI p). replace (2 * Z.pos p + 1) with (1 + Z.pos p + Z.pos p) by lia.
      rewrite !Z.pow_add_r by lia. ring.
  - destruct (IH _ _ Hm Hl) as (H2 & H3 & E2).
    destruct (IH _ _ H2 H3) as (H4 & H5 & E3).
    split; [done|]. split.
    + replace (e + Z.pos p~0) with (e + Z.pos p + Z.pos p) by lia. done.
    + rewrite E3, E2, !Z.div_div by lia. f_equal.
      rewrite (Pos2Z.inj_xO p). replace (2 * Z.pos p) with (Z.pos p + Z.pos p) by lia.
      rewrite Z.pow_add_r by lia. done.
  - split; [rewrite shr_1_m by done; apply Z.div_pos; lia|].
    split; [by apply shr_1_located|]. by rewrite shr_1_m.
Qed.
(** *** Digits and exponents *)

Lemma fexp_eq (k : Z) : fexp prec emax k = Z.max (k - 53) (-1074).
Proof. reflexivity. Qed.

Lemma digits2_pos_bounds (p : positive) :
  2 ^ (Z.pos (digits2_pos p) - 1) ≤ Z.pos p < 2 ^ Z.pos (digits2_pos p).
Proof.
  induction p as [p IH|p IH|]; cbn [digits2_pos]; [| |done].
  - rewrite Pos2Z.inj_succ, (Pos2Z.inj_xI p). set (d := Z.pos (digits2_pos p)) in *.
    replace (Z.succ d - 1) with (Z.succ (d - 1)) by lia.
    rewrite !Z.pow_succ_r by lia. lia.
  - rewrite Pos2Z.inj_succ, (Pos2Z.inj_xO p). set (d := Z.pos (digits2_pos p)) in *.
    replace (Z.succ d - 1) with (Z.succ (d - 1)) by lia.
    rewrite !Z.pow_succ_r by lia. lia.
Qed.

Lemma Zdigits2_bounds (m : Z) :
  0 < m → 1 ≤ Zdigits2 m ∧ 2 ^ (Zdigits2 m - 1) ≤ m < 2 ^ Zdigits2 m.
Proof.
  destruct m as [|p|p]; try lia. intros _. cbn [Zdigits2].
  split; [lia|apply digits2_pos_bounds].
Qed.

Lemma Zdigits2_unique (m d : Z) : 1 ≤ d → 2 ^ (d - 1) ≤ m < 2 ^ d → Zdigits2 m = d.
Proof.
  intros Hd Hm. assert (H0 : 0 < m) by (pose proof (Z.pow_pos_nonneg 2 (d - 1)); lia).
  destruct (Zdigits2_bounds m H0) as [H1 H2]. set (D := Zdigits2 m) in *.
  assert (D - 1 < d) by (apply (Z.pow_lt_mono_r_iff 2); lia).
  assert (d - 1 < D) by (apply (Z.pow_lt_mono_r_iff 2); lia).
  lia.
Qed.

Lemma div_pow2_bounds (m d s : Z) :
  0 ≤ s < d → 2 ^ (d - 1) ≤ m < 2 ^ d → 2 ^ (d - s - 1) ≤ m / 2 ^ s < 2 ^ (d - s).
Proof.
  intros Hs Hm. assert (Hp : 0 < 2 ^ s) by (apply Z.pow_pos_nonneg; lia). split.
  - apply Z.div_le_lower_bound; [done|]. rewrite <- Z.pow_add_r by lia.
    replace (s + (d - s - 1)) with (d - 1) by lia. lia.
  - apply Z.div_lt_upper_bound; [done|]. rewrite <- Z.pow_add_r by lia.
    replace (s + (d - s)) with d by lia. lia.
Qed.

Lemma Zdigits2_div_pow2 (m s : Z) :
  0 < m → 0 ≤ s < Zdigits2 m → Zdigits2 (m / 2 ^ s) = Zdigits2 m - s.
Proof.
  intros Hm Hs. destruct (Zdigits2_bounds m Hm) as [H1 H2].
  apply Zdigits2_unique; [lia|].
  replace (Zdigits2 m - s - 1) with (Zdigits2 m - s - 1) by lia.
  by apply div_pow2_bounds.
Qed.

Lemma shr_record_of_loc_m (m : Z) (l : location) : shr_m (shr_record_of_loc m l) = m.
Proof. by destruct l as [|[]]. Qed.

Lemma located_bounds (v : R) (e : Z) (mrs : shr_record) :
  located v e mrs → (IZR (shr_m mrs) * pow2 e <= v < (IZR (shr_m mrs) + 1) * pow2 e)%R.
Proof.
  unfold located. pose proof (pow2_pos e). destruct (shr_r mrs), (shr_s mrs); cbv zeta; nra.
Qed.

Lemma located_binade (v : R) (e : Z) (mrs : shr_record) :
  0 < shr_m mrs → located v e mrs → in_binade v (Zdigits2 (shr_m mrs) + e).
Proof.
  intros Hm Hl. apply located_bounds in Hl.
  destruct (Zdigits2_bounds _ Hm) as [Hd [H1 H2]].
  set (m := shr_m mrs) in *. set (d := Zdigits2 m) in *. unfold in_binade.
  replace (d + e - 1) with ((d - 1) + e) by lia.
  rewrite !pow2_add, (pow2_IZR (d - 1)), (pow2_IZR d) by lia. pose proof (pow2_pos e).
  apply IZR_le in H1. assert (H3 : m + 1 ≤ 2 ^ d) by lia. apply IZR_le in H3.
  rewrite plus_IZR in H3. split; nra.
Qed.

(** The shift of [shr_fexp] brings the mantissa to the exponent of the
    binade of the value. *)
Lemma shr_fexp_located (v : R) (m e : Z) (l : location) :
  0 ≤ m → located v e (shr_record_of_loc m l) →
  e ≤ fexp prec emax (Zdigits2 m + e) →
  ∃ mrs, shr_fexp prec emax m e l = (mrs, fexp prec emax (Zdigits2 m + e))
         ∧ located v (fexp prec emax (Zdigits2 m + e)) mrs
         ∧ shr_m mrs = m / 2 ^ (fexp prec emax (Zdigits2 m + e) - e).
Proof.
  intros Hm Hl He. unfold shr_fexp, shr. set (c := fexp prec emax (Zdigits2 m + e)) in *.
  destruct (c - e) as [|p|p] eqn:E; [| |lia].
  - exists (shr_record_of_loc m l). replace c with e by lia.
    rewrite shr_record_of_loc_m, Z.div_1_r. done.
  - destruct (iter_shr_1 v p e (shr_record_of_loc m l)) as (_ & H1 & H2);
      [by rewrite shr_record_of_loc_m|done|].
    exists (SpecFloat.iter_pos shr_1 p (shr_record_of_loc m l)).
    replace c with (e + Z.pos p) by lia. rewrite H2, shr_record_of_loc_m. done.
Qed.

(** [round_nearest_even] selects a nearest integer, the even one at a
    half-way point. *)
Lemma round_nearest_even_spec (v : R) (c : Z) (mrs : shr_record) :
  located v c mrs →
  let n := round_nearest_even (shr_m mrs) (loc_of_shr_record mrs) in
  nearest_even v c n ∧ shr_m mrs ≤ n ≤ shr_m mrs + 1.
Proof.
  destruct mrs as [m r s]. unfold located, nearest_even. cbn [shr_m shr_r shr_s].
  pose proof (pow2_pos c) as Hu. set (u := pow2 c) in *.
  destruct r, s; cbn [loc_of_shr_record round_nearest_even]; intros H.
  - rewrite plus_IZR. split; [|lia]. split; [nra|]. intros [E|E]; nra.
  - change (IntDef.Z.even m) with (Z.even m). destruct (Z.even m) eqn:Ev.
    + split; [|lia]. split; [nra|]. intros _. done.
    + rewrite plus_IZR. split; [|lia]. split; [nra|]. intros _.
      rewrite Z.even_add, Ev. done.
  - split; [|lia]. split; [nra|]. intros [E|E]; nra.
  - split; [|lia]. split; [nra|]. intros [E|E]; nra.
Qed.
(** The rounding function of [SpecFloat] rounds to nearest, ties to
    even. *)
Lemma binary_round_aux_rounds (v : R) (m e : Z) (l : location) :
  0 < m → located v e (shr_record_of_loc m l) →
  e ≤ fexp prec emax (Zdigits2 m + e) → -1074 < Zdigits2 m + e →
  rounds_to v (binary_round_aux prec emax false m e l).
Proof.
  intros Hm Hl He Hk.
  destruct (Zdigits2_bounds m Hm) as [Hd Hmb].
  pose proof (located_binade v e _ ltac:(by rewrite shr_record_of_loc_m) Hl) as Hb.
  rewrite shr_record_of_loc_m in Hb.
  set (k := Zdigits2 m + e) in *. set (c := fexp prec emax k) in *.
  assert (Hc : c = Z.max (k - 53) (-1074)) by apply fexp_eq.
  destruct (shr_fexp_located v m e l ltac:(lia) Hl He) as (mrs & E1 & Hl1 & Em1).
  fold k c in E1, Hl1, Em1.
  assert (Hm1 : 2 ^ (k - c - 1) ≤ shr_m mrs < 2 ^ (k - c)).
  { rewrite Em1. replace (k - c - 1) with (Zdigits2 m - (c - e) - 1) by lia.
    replace (k - c) with (Zdigits2 m - (c - e)) by lia.
    apply div_pow2_bounds; [lia|done]. }
  destruct (round_nearest_even_spec v c mrs Hl1) as [Hn Hn1].
  set (n := round_nearest_even (shr_m mrs) (loc_of_shr_record mrs)) in *.
  assert (H1 : 1 ≤ 2 ^ (k - c - 1)) by (apply (Z.pow_le_mono_r 2 0); lia).
  assert (Hn0 : 0 < n) by lia.
  assert (Hpow : 2 ^ (k - c) = 2 * 2 ^ (k - c - 1)).
  { replace (k - c) with (Z.succ (k - c - 1)) at 1 by lia. apply Z.pow_succ_r. lia. }
  assert (Hl2 : located (IZR n * pow2 c) c (shr_record_of_loc n loc_Exact)) by reflexivity.
  set (d2 := Zdigits2 n). set (c2 := fexp prec emax (d2 + c)).
  assert (Hc2 : c2 = Z.max (d2 + c - 53) (-1074)) by apply fexp_eq.
  assert (Hd2 : d2 = k - c ∨ (d2 = k - c + 1 ∧ n = 2 ^ (k - c))).
  { destruct (decide (n < 2 ^ (k - c))) as [Hlt|Hge].
    - left. apply Zdigits2_unique; lia.
    - right. assert (n = 2 ^ (k - c)) as -> by lia. split; [|done].
      apply Zdigits2_unique; [lia|]. replace (k - c + 1 - 1) with (k - c) by lia.
      replace (k - c + 1) with (Z.succ (k - c)) by lia. rewrite Z.pow_succ_r by lia. lia. }
  destruct (shr_fexp_located (IZR n * pow2 c) n c loc_Exact ltac:(lia) Hl2) as (mrs2 & E2 & _ & Em2).
  { fold d2 c2. lia. }
  fold d2 c2 in E2, Em2.
  assert (Hs : c2 = c ∨ (c2 = c + 1 ∧ n = 2 ^ (k - c))) by lia.
  assert (Hm3 : 0 < shr_m mrs2 ∧ shr_m mrs2 * 2 ^ (c2 - c) = n).
  { rewrite Em2. destruct Hs as [->|[-> ->]].
    - rewrite Z.sub_diag, Z.div_1_r. lia.
    - replace (c + 1 - c) with 1 by lia. rewrite Hpow, Z.pow_1_r.
      rewrite (Z.mul_comm 2), Z.div_mul by lia. lia. }
  destruct Hm3 as [Hm3 En].
  assert (Hcan : Zdigits2 (shr_m mrs2) + c2 = d2 + c).
  { rewrite Em2, Zdigits2_div_pow2; [fold d2; lia|lia|fold d2; lia]. }
  unfold binary_round_aux. rewrite E1. fold n. rewrite E2.
  destruct (shr_m mrs2) as [|m3|m3] eqn:E3; [lia| |lia].
  exists k, n, m3, c2. split; [done|]. split; [done|]. split; [done|].
  split; [|split; [|reflexivity]].
  - unfold canonical_mantissa. apply Z.eqb_eq.
    change (Z.pos (digits2_pos m3)) with (Zdigits2 (Z.pos m3)). by rewrite Hcan.
  - fold c. rewrite <- En, mult_IZR. replace c2 with (c + (c2 - c)) at 1 by lia.
    rewrite pow2_add, (pow2_IZR (c2 - c)) by lia. ring.
Qed.
(** *** The order of canonical doubles *)

Lemma canonical_cases (m : positive) (e : Z) :
  canonical_mantissa prec emax m e = true →
  -1074 ≤ e ∧ 1 ≤ Z.pos m < 2 ^ 53 ∧ (-1074 < e → 2 ^ 52 ≤ Z.pos m)
  ∧ Zdigits2 (Z.pos m) + e - 53 ≤ e ∧ fexp prec emax (Zdigits2 (Z.pos m) + e) = e.
Proof.
  unfold canonical_mantissa. intros H. apply Z.eqb_eq in H.
  change (Z.pos (digits2_pos m)) with (Zdigits2 (Z.pos m)) in H.
  pose proof H as H'. rewrite fexp_eq in H.
  destruct (Zdigits2_bounds (Z.pos m) ltac:(lia)) as [Hd [H1 H2]].
  set (d := Zdigits2 (Z.pos m)) in *.
  assert (Hd53 : d ≤ 53) by lia.
  split; [lia|]. split; [|split; [|split; [lia|done]]].
  - split; [lia|]. eapply Z.lt_le_trans; [exact H2|]. apply Z.pow_le_mono_r; lia.
  - intros He. assert (d = 53) as Ed by lia. rewrite Ed in H1. exact H1.
Qed.

Lemma canonical_lt (m : positive) (e : Z) (m' : positive) (e' : Z) :
  canonical_mantissa prec emax m e = true → canonical_mantissa prec emax m' e' = true →
  e < e' ∨ (e = e' ∧ (m < m')%positive) →
  (IZR (Z.pos m) * pow2 e < IZR (Z.pos m') * pow2 e')%R.
Proof.
  intros Hc Hc' [He|[-> Hm]].
  - destruct (canonical_cases m e Hc) as (He0 & [_ Hm] & _).
    destruct (canonical_cases m' e' Hc') as (_ & _ & Hm' & _).
    specialize (Hm' ltac:(lia)).
    apply IZR_lt in Hm. apply IZR_le in Hm'.
    replace e' with (e + (e' - e)) by lia. rewrite pow2_add, (pow2_IZR (e' - e)) by lia.
    assert (H2 : (2 <= IZR (2 ^ (e' - e)))%R).
    { apply IZR_le. change 2 with (2 ^ 1) at 1. apply Z.pow_le_mono_r; lia. }
    pose proof (pow2_pos e) as Hu.
    replace (2 ^ 53) with (2 * 2 ^ 52) in Hm by reflexivity. rewrite mult_IZR in Hm.
    set (A := IZR (2 ^ 52)) in *. assert (0 < A)%R by (apply IZR_lt; reflexivity).
    set (T := IZR (2 ^ (e' - e))) in *.
    assert (H3 : (2 * pow2 e <= pow2 e * T)%R) by nra.
    assert (H4 : (IZR (Z.pos m) * pow2 e < A * (2 * pow2 e))%R) by nra.
    assert (H5 : (A * (2 * pow2 e) <= A * (pow2 e * T))%R) by nra.
    assert (H6 : (A * (pow2 e * T) <= IZR (Z.pos m') * (pow2 e * T))%R) by nra.
    lra.
  - pose proof (pow2_pos e') as Hu. assert (IZR (Z.pos m) < IZR (Z.pos m'))%R by (apply IZR_lt; lia).
    nra.
Qed.

Lemma canonical_le (m : positive) (e : Z) (m' : positive) (e' : Z) :
  canonical_mantissa prec emax m e = true → canonical_mantissa prec emax m' e' = true →
  (IZR (Z.pos m) * pow2 e <= IZR (Z.pos m') * pow2 e')%R ↔
  e < e' ∨ (e = e' ∧ (m ≤ m')%positive).
Proof.
  intros Hc Hc'. split.
  - intros Hv.
    destruct (decide (e < e' ∨ (e = e' ∧ (m ≤ m')%positive))) as [H|H]; [done|].
    assert (H' : e' < e ∨ (e' = e ∧ (m' < m)%positive)) by lia.
    pose proof (canonical_lt m' e' m e Hc' Hc H'). lra.
  - intros [He|[-> Hm]].
    + apply Rlt_le. apply canonical_lt; auto.
    + pose proof (pow2_pos e'). assert (IZR (Z.pos m) <= IZR (Z.pos m'))%R by (apply IZR_le; lia).
      nra.
Qed.

Lemma SFleb_finite (m : positive) (e : Z) (m' : positive) (e' : Z) :
  SFleb (S754_finite false m e) (S754_finite false m' e') = true ↔
  e < e' ∨ (e = e' ∧ (m ≤ m')%positive).
Proof.
  unfold SFleb, SFcompare. change (Pos.compare_cont Eq m m') with (Pos.compare m m').
  destruct (Z.compare_spec e e') as [E|E|E].
  - subst.
    destruct (Pos.compare_spec m m') as [F|F|F]; split; intros H; try done; lia.
  - split; [lia|done].
  - split; [done|lia].
Qed.

Lemma SFltb_finite (m : positive) (e : Z) (m' : positive) (e' : Z) :
  SFltb (S754_finite false m e) (S754_finite false m' e') = true ↔
  e < e' ∨ (e = e' ∧ (m < m')%positive).
Proof.
  unfold SFltb, SFcompare. change (Pos.compare_cont Eq m m') with (Pos.compare m m').
  destruct (Z.compare_spec e e') as [E|E|E].
  - subst.
    destruct (Pos.compare_spec m m') as [F|F|F]; split; intros H; try done; lia.
  - split; [lia|done].
  - split; [done|lia].
Qed.

Lemma round_result_leb (m : positive) (e : Z) (m' : positive) (e' : Z) :
  canonical_mantissa prec emax m e = true → canonical_mantissa prec emax m' e' = true →
  (IZR (Z.pos m) * pow2 e <= IZR (Z.pos m') * pow2 e')%R →
  SFleb (round_result m e) (round_result m' e') = true.
Proof.
  intros Hc Hc' Hv. apply (canonical_le m e m' e' Hc Hc') in Hv.
  unfold round_result. change (emax - prec) with 971.
  destruct (Z.leb_spec e 971), (Z.leb_spec e' 971); [|done|lia|done].
  by apply SFleb_finite.
Qed.

(** *** Rounding is monotone *)

Lemma in_binade_le (v v' : R) (k k' : Z) :
  in_binade v k → in_binade v' k' → (v <= v')%R → k ≤ k'.
Proof.
  intros [H1 H2] [H3 H4] Hv. destruct (decide (k ≤ k')) as [|Hn]; [done|].
  assert (k' ≤ k - 1) as Hk by lia. apply pow2_le in Hk. lra.
Qed.

Lemma in_binade_unique (v : R) (k k' : Z) : in_binade v k → in_binade v k' → k = k'.
Proof.
  intros H H'. pose proof (in_binade_le v v k k' H H' ltac:(lra)).
  pose proof (in_binade_le v v k' k H' H ltac:(lra)). lia.
Qed.

Lemma nearest_even_mono (v v' : R) (c n n' : Z) :
  nearest_even v c n → nearest_even v' c n' → (v <= v')%R → n ≤ n'.
Proof.
  intros [[H1 H2] He] [[H3 H4] He'] Hv. pose proof (pow2_pos c) as Hu.
  destruct (decide (n ≤ n')) as [|Hn]; [done|]. exfalso.
  assert (Hge : (IZR n' + 1 <= IZR n)%R) by (rewrite <- plus_IZR; apply IZR_le; lia).
  assert (E1 : v = ((IZR n - / 2) * pow2 c)%R) by nra.
  assert (E2 : v' = ((IZR n' + / 2) * pow2 c)%R) by nra.
  assert (E3 : (IZR n = IZR n' + 1)%R) by nra.
  rewrite <- plus_IZR in E3. apply eq_IZR in E3.
  specialize (He (or_introl E1)). specialize (He' (or_intror E2)).
  rewrite E3, Z.even_add, He' in He. done.
Qed.

Lemma nearest_even_range (v : R) (k n : Z) :
  -1074 < k → in_binade v k → nearest_even v (fexp prec emax k) n →
  2 ^ (k - fexp prec emax k - 1) ≤ n ≤ 2 ^ (k - fexp prec emax k).
Proof.
  intros Hk [H1 H2] [[H3 H4] _]. rewrite !fexp_eq in *. set (c := Z.max (k - 53) (-1074)) in *.
  pose proof (pow2_pos c) as Hu.
  replace (k - 1) with ((k - c - 1) + c) in H1 by lia.
  replace (pow2 k) with (pow2 ((k - c) + c)) in H2 by (f_equal; lia).
  rewrite pow2_add, pow2_IZR in H1, H2 by lia.
  split.
  - assert (H : (IZR (2 ^ (k - c - 1)) < IZR n + 1)%R) by nra.
    rewrite <- plus_IZR in H. apply lt_IZR in H. lia.
  - assert (H : (IZR n < IZR (2 ^ (k - c)) + 1)%R) by nra.
    rewrite <- plus_IZR in H. apply lt_IZR in H. lia.
Qed.

Lemma rounds_to_mono (v v' : R) (x x' : spec_float) :
  rounds_to v x → rounds_to v' x' → (v <= v')%R → SFleb x x' = true.
Proof.
  intros (k & n & m & e & Hb & Hk & Hn & Hc & Hv & ->)
         (k' & n' & m' & e' & Hb' & Hk' & Hn' & Hc' & Hv' & ->) Hle.
  apply round_result_leb; [done|done|]. rewrite Hv, Hv'.
  pose proof (in_binade_le _ _ _ _ Hb Hb' Hle) as Hkk.
  destruct (decide (fexp prec emax k = fexp prec emax k')) as [E|E].
  - rewrite E in *. pose proof (nearest_even_mono _ _ _ _ _ Hn Hn' Hle) as Hnn.
    apply IZR_le in Hnn. pose proof (pow2_pos (fexp prec emax k')). nra.
  - pose proof (nearest_even_range v k n Hk Hb Hn) as [_ H1].
    pose proof (nearest_even_range v' k' n' Hk' Hb' Hn') as [H2 _].
    rewrite !fexp_eq in *. assert (Hlt : k < k') by lia.
    set (c := Z.max (k - 53) (-1074)) in *.
    set (c' := Z.max (k' - 53) (-1074)) in *.
    assert (Hcc : c < k ∧ c' < k') by lia.
    apply IZR_le in H1, H2. rewrite <- pow2_IZR in H1, H2 by lia.
    pose proof (pow2_pos c). pose proof (pow2_pos c').
    assert (H3 : (IZR n * pow2 c <= pow2 k)%R).
    { replace (pow2 k) with (pow2 ((k - c) + c)) by (f_equal; lia). rewrite pow2_add. nra. }
    assert (H4 : (pow2 (k' - 1) <= IZR n' * pow2 c')%R).
    { replace (k' - 1) with ((k' - c' - 1) + c') by lia. rewrite pow2_add. nra. }
    pose proof (pow2_le k (k' - 1) ltac:(lia)). lra.
Qed.

(** A double is the rounding of its own value. *)
Lemma rounds_to_canonical (m : positive) (e : Z) :
  canonical_mantissa prec emax m e = true →
  rounds_to (IZR (Z.pos m) * pow2 e) (round_result m e).
Proof.
  intros Hc. destruct (canonical_cases m e Hc) as (He & Hm & _ & _ & Hf).
  destruct (Zdigits2_bounds (Z.pos m) ltac:(lia)) as [Hd _].
  exists (Zdigits2 (Z.pos m) + e), (Z.pos m), m, e.
  split; [|split; [lia|split; [|split; [done|split; [by rewrite Hf|done]]]]].
  - apply (located_binade _ e (Build_shr_record (Z.pos m) false false)); [done|].
    reflexivity.
  - rewrite Hf. pose proof (pow2_pos e). split; [nra|]. intros [E|E]; nra.
Qed.
(** *** Comparisons, as comparisons of real numbers *)

Lemma valid_finite (x : float) (s : bool) (m : positive) (e : Z) :
  Prim2SF x = S754_finite s m e → canonical_mantissa prec emax m e = true ∧ e ≤ 971.
Proof.
  intros E. pose proof (FloatAxioms.Prim2SF_valid x) as H. rewrite E in H.
  cbn [SpecFloat.valid_binary] in H. unfold bounded in H.
  apply andb_true_iff in H as [H1 H2]. split; [done|]. apply Z.leb_le in H2. exact H2.
Qed.

Lemma nonneg_valid (x : spec_float) : nonneg x → SpecFloat.valid_binary prec emax x = true.
Proof.
  destruct x as [s|s| |[] m e]; cbn; try done. intros [H1 H2]. unfold bounded.
  rewrite H1. apply Z.leb_le. exact H2.
Qed.

Lemma SF2R_pos (m : positive) (e : Z) : (0 < SF2R (S754_finite false m e))%R.
Proof.
  cbn. pose proof (pow2_pos e). assert (0 < IZR (Z.pos m))%R by (apply IZR_lt; lia). nra.
Qed.

Lemma SFleb_real (x y : spec_float) :
  nonneg x → nonneg y → SFleb x y = true ↔ (SF2R x <= SF2R y)%R.
Proof.
  destruct x as [s|s| |[] m e], y as [s'|s'| |[] m' e']; cbn [nonneg]; try done; intros Hx Hy.
  - pose proof (SF2R_pos m' e'). cbn [SF2R] in *. split; [intros _; lra|done].
  - pose proof (SF2R_pos m e). cbn [SF2R] in *. split; [done|intros; lra].
  - rewrite SFleb_finite. cbn [SF2R cond_Zopp]. symmetry. apply canonical_le; tauto.
Qed.

Lemma SFltb_real (x y : spec_float) :
  nonneg x → nonneg y → SFltb x y = true ↔ (SF2R x < SF2R y)%R.
Proof.
  destruct x as [s|s| |[] m e], y as [s'|s'| |[] m' e']; cbn [nonneg]; try done; intros Hx Hy.
  - cbn. split; [done|intros; lra].
  - pose proof (SF2R_pos m' e'). cbn [SF2R] in *. split; [intros _; lra|done].
  - pose proof (SF2R_pos m e). cbn [SF2R] in *. split; [done|intros; lra].
  - rewrite SFltb_finite. cbn [SF2R cond_Zopp]. destruct Hx as [Hx _], Hy as [Hy _]. split.
    + by apply canonical_lt.
    + intros Hlt. destruct (decide (e < e' ∨ e = e' ∧ (m < m')%positive)) as [|Hn]; [done|].
      assert (H' : e' < e ∨ (e' = e ∧ (m' ≤ m)%positive)) by lia.
      apply (canonical_le m' e' m e Hy Hx) in H'. lra.
Qed.

(** *** Rounding against a representable number *)

Lemma round_result_finite (m : positive) (e : Z) :
  e ≤ 971 → round_result m e = S754_finite false m e.
Proof. intros H. unfold round_result. change (emax - prec) with 971. by rewrite (proj2 (Z.leb_le _ _) H). Qed.

Lemma rounds_to_self (x : spec_float) (m : positive) (e : Z) :
  x = S754_finite false m e → nonneg x → rounds_to (SF2R x) x.
Proof.
  intros -> [Hc He]. cbn [SF2R cond_Zopp]. rewrite <- (round_result_finite m e He).
  by apply rounds_to_canonical.
Qed.

(** A rounded value below a representable number. *)
Lemma rounds_to_below (v : R) (x y : spec_float) (m : positive) (e : Z) :
  rounds_to v x → y = S754_finite false m e → nonneg y → (v <= SF2R y)%R →
  (∃ m' e', x = S754_finite false m' e') ∧ nonneg x ∧ (SF2R x <= SF2R y)%R.
Proof.
  intros Hx Ey Hy Hv. pose proof (rounds_to_self y m e Ey Hy) as Hy'.
  pose proof (rounds_to_mono v (SF2R y) x y Hx Hy' Hv) as Hle.
  destruct Hx as (k & n & m' & e' & _ & _ & _ & Hc & _ & ->).
  unfold round_result in *. change (emax - prec) with 971 in *.
  destruct (Z.leb_spec e' 971) as [He|He].
  - assert (Hn : nonneg (S754_finite false m' e')) by done.
    split; [eauto|]. split; [done|]. by apply SFleb_real.
  - subst y. done.
Qed.

Lemma rounds_to_above (v : R) (x y : spec_float) (m : positive) (e : Z) :
  rounds_to v x → y = S754_finite false m e → nonneg y → (SF2R y <= v)%R →
  SFleb y x = true.
Proof.
  intros Hx Ey Hy Hv. pose proof (rounds_to_self y m e Ey Hy) as Hy'.
  exact (rounds_to_mono (SF2R y) v y x Hy' Hx Hv).
Qed.

(** *** Multiplication *)

Lemma Zdigits2_mul_lower (a b : Z) :
  0 < a → 0 < b → Zdigits2 a + Zdigits2 b - 1 ≤ Zdigits2 (a * b).
Proof.
  intros Ha Hb. destruct (Zdigits2_bounds a Ha) as [Hda [Ha1 _]].
  destruct (Zdigits2_bounds b Hb) as [Hdb [Hb1 _]].
  destruct (Zdigits2_bounds (a * b) ltac:(lia)) as [Hd [_ H2]].
  set (da := Zdigits2 a) in *. set (db := Zdigits2 b) in *. set (d := Zdigits2 (a * b)) in *.
  assert (H : 2 ^ (da - 1 + (db - 1)) < 2 ^ d).
  { rewrite Z.pow_add_r by lia. nia. }
  apply Z.pow_lt_mono_r_iff in H; lia.
Qed.

(** The product of two positive doubles is the rounding of the product. *)
Lemma SFmul_rounds (mx : positive) (ex : Z) (my : positive) (ey : Z) :
  canonical_mantissa prec emax mx ex = true → canonical_mantissa prec emax my ey = true →
  -1074 < Zdigits2 (Z.pos mx) + ex + (Zdigits2 (Z.pos my) + ey) - 1 →
  rounds_to (SF2R (S754_finite false mx ex) * SF2R (S754_finite false my ey))
            (SFmul prec emax (S754_finite false mx ex) (S754_finite false my ey)).
Proof.
  intros Hx Hy H1. cbn [SFmul xorb SF2R cond_Zopp].
  destruct (canonical_cases mx ex Hx) as (Hex & _ & _ & Hdx & _).
  destruct (canonical_cases my ey Hy) as (Hey & _ & _ & Hdy & _).
  destruct (Zdigits2_bounds (Z.pos mx) ltac:(lia)) as [Hdx1 _].
  destruct (Zdigits2_bounds (Z.pos my) ltac:(lia)) as [Hdy1 _].
  pose proof (Zdigits2_mul_lower (Z.pos mx) (Z.pos my) ltac:(lia) ltac:(lia)) as Hd.
  assert (Ec : fexp prec emax (Zdigits2 (Z.pos mx) + ex) = ex) by (by destruct (canonical_cases mx ex Hx) as (_ & _ & _ & _ & ?)).
  assert (Ec' : fexp prec emax (Zdigits2 (Z.pos my) + ey) = ey) by (by destruct (canonical_cases my ey Hy) as (_ & _ & _ & _ & ?)).
  rewrite fexp_eq in Ec, Ec'.
  apply binary_round_aux_rounds.
  - lia.
  - unfold located. cbn [shr_record_of_loc shr_m shr_r shr_s].
    rewrite Pos2Z.inj_mul, mult_IZR, pow2_add. ring.
  - rewrite Pos2Z.inj_mul, fexp_eq. lia.
  - rewrite Pos2Z.inj_mul. lia.
Qed.

(** *** Division *)

Lemma new_location_spec (my r : Z) :
  0 < my → 0 ≤ r < my →
  let l := new_location my r in
  (r = 0 ∧ l = loc_Exact) ∨ (0 < 2 * r < my ∧ l = loc_Inexact Lt)
  ∨ (2 * r = my ∧ l = loc_Inexact Eq) ∨ (my < 2 * r ∧ l = loc_Inexact Gt).
Proof.
  intros Hy Hr. cbv zeta. unfold new_location, new_location_even, new_location_odd.
  destruct (Z.eqb_spec r 0) as [->|Hr0].
  { left. by destruct (Z.even my). }
  right. destruct (Z.even my) eqn:Ev; cbv beta; rewrite (proj2 (Z.eqb_neq r 0) Hr0).
  - destruct (Z.compare_spec (2 * r) my); [right; left|left|right; right]; split; (lia || done).
  - assert (Hodd : 2 * r ≠ my).
    { intros <-. rewrite Z.even_mul in Ev. done. }
    destruct (Z.compare_spec (2 * r + 1) my); [left|left|right; right]; split; (lia || done).
Qed.

Lemma SFdiv_core_located (mx : positive) (ex : Z) (my : positive) (ey : Z) :
  -1021 ≤ Zdigits2 (Z.pos mx) + ex - (Zdigits2 (Z.pos my) + ey) →
  ∃ q e' l, SFdiv_core_binary prec emax (Z.pos mx) ex (Z.pos my) ey = (q, e', l)
    ∧ 0 < q
    ∧ located (SF2R (S754_finite false mx ex) / SF2R (S754_finite false my ey)) e'
              (shr_record_of_loc q l)
    ∧ e' ≤ fexp prec emax (Zdigits2 q + e') ∧ -1074 < Zdigits2 q + e'.
Proof.
  intros HX. unfold SFdiv_core_binary.
  destruct (Zdigits2_bounds (Z.pos mx) ltac:(lia)) as [Hd1 [Hx1 Hx2]].
  destruct (Zdigits2_bounds (Z.pos my) ltac:(lia)) as [Hd2 [Hy1 Hy2]].
  set (d1 := Zdigits2 (Z.pos mx)) in *. set (d2 := Zdigits2 (Z.pos my)) in *.
  rewrite fexp_eq. set (e' := Z.min (Z.max (d1 + ex - (d2 + ey) - 53) (-1074)) (ex - ey)).
  set (s := ex - ey - e').
  assert (Hs : 0 ≤ s ∧ 53 - d1 + d2 ≤ s) by lia.
  set (m' := match s with Z.pos _ => Z.shiftl (Z.pos mx) s | 0 => Z.pos mx | Z.neg _ => 0 end).
  assert (Em : m' = Z.pos mx * 2 ^ s).
  { unfold m'. destruct s as [|p|p] eqn:Es; [lia| |lia]. apply Z.shiftl_mul_pow2. lia. }
  clearbody m'.
  pose proof (Z_div_mod m' (Z.pos my) ltac:(lia)) as Hdiv.
  change (IntDef.Z.div_eucl m' (Z.pos my)) with (Z.div_eucl m' (Z.pos my)).
  destruct (Z.div_eucl m' (Z.pos my)) as [q r]. destruct Hdiv as [Eq Hr].
  exists q, e', (new_location (Z.pos my) r). split; [done|].
  set (t := d1 - 1 + s - d2).
  assert (Ht : 52 ≤ t) by lia.
  assert (Hq : 2 ^ t ≤ q).
  { assert (H : 2 ^ t * Z.pos my < Z.pos my * (q + 1)).
    { apply Z.lt_le_trans with (2 ^ t * 2 ^ d2).
      - apply Z.mul_lt_mono_pos_l; [apply Z.pow_pos_nonneg; lia|lia].
      - rewrite <- Z.pow_add_r by lia. replace (t + d2) with (d1 - 1 + s) by lia.
        rewrite Z.pow_add_r by lia. nia. }
    nia. }
  assert (Hq0 : 0 < q) by (pose proof (Z.pow_pos_nonneg 2 t); lia).
  destruct (Zdigits2_bounds q Hq0) as [Hdq [_ Hq2]].
  assert (Hdq' : t < Zdigits2 q) by (apply (Z.pow_lt_mono_r_iff 2); lia).
  split; [done|]. split; [|rewrite fexp_eq; lia].
  cbn [SF2R cond_Zopp].
  pose proof (pow2_pos e') as Hu. pose proof (pow2_pos ey) as Huy.
  assert (HY : (0 < IZR (Z.pos my))%R) by (apply IZR_lt; lia).
  set (v := (IZR (Z.pos mx) * pow2 ex / (IZR (Z.pos my) * pow2 ey))%R).
  assert (Ev : (v * IZR (Z.pos my) = (IZR q * IZR (Z.pos my) + IZR r) * pow2 e')%R).
  { unfold v. replace ex with (s + e' + ey) by lia. rewrite !pow2_add, (pow2_IZR s) by lia.
    rewrite <- mult_IZR, <- plus_IZR, (Z.mul_comm q), <- Eq, Em, mult_IZR. field. lra. }
  clearbody v.
  destruct (new_location_spec (Z.pos my) r ltac:(lia) Hr) as [[-> ->]|[[Hr' ->]|[[Hr' ->]|[Hr' ->]]]];
    unfold located; cbn [shr_record_of_loc shr_m shr_r shr_s].
  - nra.
  - assert (0 < IZR r)%R by (apply IZR_lt; lia).
    assert (2 * IZR r < IZR (Z.pos my))%R by (rewrite <- mult_IZR; apply IZR_lt; lia).
    split; nra.
  - assert (2 * IZR r = IZR (Z.pos my))%R by (rewrite <- mult_IZR; f_equal; lia).
    nra.
  - assert (IZR (Z.pos my) < 2 * IZR r)%R by (rewrite <- mult_IZR; apply IZR_lt; lia).
    assert (IZR r < IZR (Z.pos my))%R by (apply IZR_lt; lia).
    split; nra.
Qed.

(** The quotient of two positive doubles is the rounding of the
    quotient. *)
Lemma SFdiv_rounds (mx : positive) (ex : Z) (my : positive) (ey : Z) :
  -1021 ≤ Zdigits2 (Z.pos mx) + ex - (Zdigits2 (Z.pos my) + ey) →
  rounds_to (SF2R (S754_finite false mx ex) / SF2R (S754_finite false my ey))
            (SFdiv prec emax (S754_finite false mx ex) (S754_finite false my ey)).
Proof.
  intros HX. destruct (SFdiv_core_located mx ex my ey HX) as (q & e' & l & E & Hq & Hl & He & Hk).
  cbn [SFdiv xorb]. rewrite E. by apply binary_round_aux_rounds.
Qed.
(** *** Integers *)

Lemma pos_iter_xO (m d : positive) : Z.pos (Pos.iter xO m d) = Z.pos m * 2 ^ Z.pos d.
Proof.
  induction d as [|d IH] using Pos.peano_ind.
  - cbn [Pos.iter]. rewrite (Pos2Z.inj_xO m). change (2 ^ 1) with 2. lia.
  - rewrite Pos.iter_succ, (Pos2Z.inj_xO (Pos.iter xO m d)), IH, Pos2Z.inj_succ.
    rewrite Z.pow_succ_r by lia. ring.
Qed.

Lemma Zdigits2_mul_pow2 (m s : Z) : 0 < m → 0 ≤ s → Zdigits2 (m * 2 ^ s) = Zdigits2 m + s.
Proof.
  intros Hm Hs. destruct (Zdigits2_bounds m Hm) as [Hd [H1 H2]].
  apply Zdigits2_unique; [lia|].
  replace (Zdigits2 m + s - 1) with ((Zdigits2 m - 1) + s) by lia.
  rewrite !Z.pow_add_r by lia. pose proof (Z.pow_pos_nonneg 2 s). nia.
Qed.

(** [binary_round], which normalises a mantissa, rounds its value. *)
Lemma binary_round_rounds (m : positive) (e : Z) :
  -1074 < Zdigits2 (Z.pos m) + e →
  rounds_to (IZR (Z.pos m) * pow2 e) (binary_round prec emax false m e).
Proof.
  intros Hk. unfold binary_round, shl_align.
  change (Z.pos (digits2_pos m)) with (Zdigits2 (Z.pos m)).
  set (c := fexp prec emax (Zdigits2 (Z.pos m) + e)).
  destruct (c - e) as [|d|d] eqn:E.
  - apply binary_round_aux_rounds; [lia|reflexivity|fold c; lia|done].
  - apply binary_round_aux_rounds; [lia|reflexivity|fold c; lia|done].
  - assert (Ed : Zdigits2 (Z.pos (Pos.iter xO m d)) + c = Zdigits2 (Z.pos m) + e).
    { rewrite pos_iter_xO, Zdigits2_mul_pow2 by lia. lia. }
    apply binary_round_aux_rounds; [lia| |rewrite Ed; fold c; lia|by rewrite Ed].
    unfold located. cbn [shr_record_of_loc shr_m shr_r shr_s].
    rewrite pos_iter_xO, mult_IZR. replace e with (Z.pos d + c) by lia.
    rewrite pow2_add, (pow2_IZR (Z.pos d)) by lia. ring.
Qed.

Lemma nearest_even_exact (c n N : Z) : nearest_even (IZR N * pow2 c) c n → n = N.
Proof.
  intros [[H1 H2] _]. pose proof (pow2_pos c) as Hu.
  assert (H3 : (IZR n - 1 < IZR N)%R) by nra.
  assert (H4 : (IZR N < IZR n + 1)%R) by nra.
  rewrite <- minus_IZR in H3. rewrite <- plus_IZR in H4.
  apply lt_IZR in H3, H4. lia.
Qed.

(** A value with a mantissa below 2^53 is rounded to itself. *)
Lemma rounds_to_exact (v : R) (x : spec_float) (N c0 : Z) :
  rounds_to v x → 0 < N < 2 ^ 53 → -1074 ≤ c0 → v = (IZR N * pow2 c0)%R →
  (v < pow2 972)%R →
  nonneg x ∧ (∃ m e, x = S754_finite false m e) ∧ SF2R x = v.
Proof.
  intros (k & n & m & e & Hb & Hk & Hn & Hc & Hv & ->) HN Hc0 Ev Hmax.
  assert (Hb' : in_binade v (Zdigits2 N + c0)).
  { rewrite Ev. apply (located_binade _ c0 (Build_shr_record N false false)); [cbn; lia|].
    reflexivity. }
  pose proof (in_binade_unique v _ _ Hb Hb') as ->.
  destruct (Zdigits2_bounds N ltac:(lia)) as [Hd [H1 H2]].
  assert (Hd53 : Zdigits2 N ≤ 53).
  { destruct (decide (Zdigits2 N ≤ 53)) as [|Hn']; [done|].
    assert (2 ^ 53 ≤ 2 ^ (Zdigits2 N - 1)) by (apply Z.pow_le_mono_r; lia). lia. }
  rewrite fexp_eq in *. set (c := Z.max (Zdigits2 N + c0 - 53) (-1074)) in *.
  assert (Hcc : c ≤ c0) by lia.
  assert (Ev' : v = (IZR (N * 2 ^ (c0 - c)) * pow2 c)%R).
  { rewrite Ev, mult_IZR. replace (pow2 c0) with (pow2 ((c0 - c) + c)) by (f_equal; lia).
    rewrite pow2_add, (pow2_IZR (c0 - c)) by lia. ring. }
  rewrite Ev' in Hn. apply nearest_even_exact in Hn. subst n. rewrite <- Ev' in Hv.
  assert (He : e ≤ 971).
  { destruct (decide (e ≤ 971)) as [|Hn']; [done|].
    assert (H : (pow2 972 <= pow2 e)%R) by (apply pow2_le; lia).
    assert (1 <= IZR (Z.pos m))%R by (apply IZR_le; lia). pose proof (pow2_pos e). nra. }
  rewrite (round_result_finite m e He). split; [done|]. split; [eauto|]. exact Hv.
Qed.

Lemma float_of_Z_0 : Prim2SF (float_of_Z 0) = S754_zero false.
Proof. reflexivity. Qed.

(** The integers from 1 to 2^53 are doubles. *)
Lemma float_of_Z_spec (z : Z) :
  0 < z ≤ 2 ^ 53 →
  (∃ m e, Prim2SF (float_of_Z z) = S754_finite false m e)
  ∧ nonneg (Prim2SF (float_of_Z z)) ∧ float_real (float_of_Z z) = IZR z.
Proof.
  intros Hz. unfold float_real, float_of_Z.
  assert (Hr : rounds_to (IZR z) (binary_normalize prec emax z 0 false)).
  { destruct z as [|p|p]; try lia. cbn [binary_normalize].
    replace (IZR (Z.pos p)) with (IZR (Z.pos p) * pow2 0)%R by (unfold pow2; cbn; ring).
    apply binary_round_rounds. destruct (Zdigits2_bounds (Z.pos p)); lia. }
  assert (Hmax : (IZR z < pow2 972)%R).
  { rewrite pow2_IZR by lia. apply IZR_lt.
    apply Z.le_lt_trans with (2 ^ 53); [lia|]. apply Z.pow_lt_mono_r; lia. }
  assert (H : nonneg (binary_normalize prec emax z 0 false)
              ∧ (∃ m e, binary_normalize prec emax z 0 false = S754_finite false m e)
              ∧ SF2R (binary_normalize prec emax z 0 false) = IZR z).
  { destruct (decide (z < 2 ^ 53)) as [Hlt|Hge].
    - apply (rounds_to_exact _ _ z 0); [done|lia|lia| |done]. unfold pow2. cbn. ring.
    - assert (z = 2 ^ 53) as Ez by lia.
      apply (rounds_to_exact _ _ (2 ^ 52) 1); [done|lia|lia| |done].
      rewrite Ez. unfold pow2. rewrite powerRZ_1, <- mult_IZR. f_equal. }
  destruct H as (Hn & He & Hv).
  rewrite FloatAxioms.Prim2SF_SF2Prim by (by apply nonneg_valid). done.
Qed.

Lemma canonical_digits_real (m : positive) (e : Z) :
  ((1 <= IZR (Z.pos m) * pow2 e)%R → 1 ≤ Zdigits2 (Z.pos m) + e)
  ∧ ((IZR (Z.pos m) * pow2 e <= IZR (2 ^ 53))%R → Zdigits2 (Z.pos m) + e ≤ 54).
Proof.
  pose proof (located_binade (IZR (Z.pos m) * pow2 e) e (Build_shr_record (Z.pos m) false false)
                ltac:(cbn; lia) eq_refl) as [H1 H2].
  cbn [shr_m] in H1, H2. set (k := Zdigits2 (Z.pos m) + e) in *. split; intros H.
  - destruct (decide (1 ≤ k)) as [|Hn]; [done|].
    assert (H3 : (pow2 k <= pow2 0)%R) by (apply pow2_le; lia).
    unfold pow2 at 2 in H3. cbn in H3. lra.
  - destruct (decide (k ≤ 54)) as [|Hn]; [done|].
    assert (H3 : (pow2 54 <= pow2 (k - 1))%R) by (apply pow2_le; lia).
    rewrite (pow2_IZR 54) in H3 by lia.
    assert (IZR (2 ^ 53) < IZR (2 ^ 54))%R by (apply IZR_lt; reflexivity). lra.
Qed.

(** [x * y] and [x / y] on primitive floats. *)
Lemma mul_rounds (x y : float) (mx : positive) (ex : Z) (my : positive) (ey : Z) :
  Prim2SF x = S754_finite false mx ex → Prim2SF y = S754_finite false my ey →
  (1 <= float_real x)%R ∨ (1 <= float_real y)%R →
  rounds_to (float_real x * float_real y) (Prim2SF (x * y)).
Proof.
  intros Ex Ey H1. unfold float_real in *. rewrite FloatAxioms.mul_spec, Ex, Ey in *.
  destruct (valid_finite x _ _ _ Ex) as [Hx _]. destruct (valid_finite y _ _ _ Ey) as [Hy _].
  apply SFmul_rounds; [done|done|].
  destruct (canonical_cases mx ex Hx) as (? & _).
  destruct (canonical_cases my ey Hy) as (? & _).
  destruct (Zdigits2_bounds (Z.pos mx) ltac:(lia)) as [? _].
  destruct (Zdigits2_bounds (Z.pos my) ltac:(lia)) as [? _].
  destruct H1 as [H1|H1]; apply canonical_digits_real in H1; lia.
Qed.

Lemma div_rounds (x y : float) (mx : positive) (ex : Z) (my : positive) (ey : Z) :
  Prim2SF x = S754_finite false mx ex → Prim2SF y = S754_finite false my ey →
  (1 <= float_real x)%R → (float_real y <= IZR (2 ^ 53))%R →
  rounds_to (float_real x / float_real y) (Prim2SF (x / y)).
Proof.
  intros Ex Ey H1 H2. unfold float_real in *. rewrite FloatAxioms.div_spec, Ex, Ey in *.
  apply SFdiv_rounds.
  pose proof (proj1 (canonical_digits_real mx ex) H1).
  pose proof (proj2 (canonical_digits_real my ey) H2). lia.
Qed.

(** *** Order, floor and indices on primitive floats *)

Lemma leb_real (x y : float) :
  nonneg (Prim2SF x) → nonneg (Prim2SF y) →
  PrimFloat.leb x y = true ↔ (float_real x <= float_real y)%R.
Proof. intros Hx Hy. rewrite FloatAxioms.leb_spec. by apply SFleb_real. Qed.

Lemma ltb_real (x y : float) :
  nonneg (Prim2SF x) → nonneg (Prim2SF y) →
  PrimFloat.ltb x y = true ↔ (float_real x < float_real y)%R.
Proof. intros Hx Hy. rewrite FloatAxioms.ltb_spec. by apply SFltb_real. Qed.

Lemma float_of_Z_nonneg (z : Z) :
  0 ≤ z ≤ 2 ^ 53 → nonneg (Prim2SF (float_of_Z z)) ∧ float_real (float_of_Z z) = IZR z.
Proof.
  intros Hz. destruct (decide (z = 0)) as [->|Hz0].
  - unfold float_real. rewrite float_of_Z_0. done.
  - destruct (float_of_Z_spec z ltac:(lia)) as (_ & H1 & H2). done.
Qed.

(** A double in [0, 1) is at most [1 - 2^-53]. *)
Lemma unit_interval (r : float) :
  PrimFloat.leb (float_of_Z 0) r = true → PrimFloat.ltb r (float_of_Z 1) = true →
  nonneg (Prim2SF r) ∧ (0 <= float_real r)%R
  ∧ (float_real r * IZR (2 ^ 53) <= IZR (2 ^ 53 - 1))%R.
Proof.
  rewrite FloatAxioms.leb_spec, FloatAxioms.ltb_spec. unfold float_real.
  rewrite float_of_Z_0. change (Prim2SF (float_of_Z 1)) with (S754_finite false (2 ^ 52) (-52)).
  destruct (Prim2SF r) as [s|[]| |[] m e] eqn:E; cbn [SFleb SFltb SFcompare]; try done.
  - intros _ _. cbn [nonneg SF2R]. split; [done|]. split; [lra|].
    rewrite Rmult_0_l. apply IZR_le. done.
  - intros _ H. apply SFltb_finite in H.
    destruct (valid_finite r _ _ _ E) as [Hc He].
    destruct (canonical_cases m e Hc) as (He0 & [_ Hm] & Hn & _).
    assert (He53 : e ≤ -53).
    { destruct H as [H|[-> H]]; [lia|]. specialize (Hn ltac:(lia)).
      change (Z.pos (2 ^ 52)) with (2 ^ 52) in H. lia. }
    split; [done|]. cbn [SF2R cond_Zopp]. pose proof (pow2_pos e) as Hu.
    assert (H0 : (0 < IZR (Z.pos m))%R) by (apply IZR_lt; lia).
    split; [nra|]. rewrite <- (pow2_IZR 53) by lia.
    rewrite Rmult_assoc, <- pow2_add.
    assert (H1 : (pow2 (e + 53) <= pow2 0)%R) by (apply pow2_le; lia).
    unfold pow2 at 2 in H1. cbn in H1.
    assert (H2 : (IZR (Z.pos m) <= IZR (2 ^ 53 - 1))%R) by (apply IZR_le; lia).
    pose proof (pow2_pos (e + 53)). nra.
Qed.

(** [Math.floor] of a non-negative double of at most 2^53 is the integer
    part of its value. *)
Lemma float_floor_spec (x : float) :
  nonneg (Prim2SF x) → (float_real x <= IZR (2 ^ 53))%R →
  ∃ z, 0 ≤ z ≤ 2 ^ 53 ∧ (IZR z <= float_real x < IZR z + 1)%R
       ∧ nonneg (Prim2SF (float_floor x)) ∧ float_real (float_floor x) = IZR z.
Proof.
  unfold float_floor, float_real. destruct (Prim2SF x) as [s|s| |[] m e] eqn:E; try done.
  - intros _ _. exists 0. rewrite E. cbn [SF2R nonneg]. split; [lia|]. split; [lra|done].
  - intros [Hc He] Hv. cbn [SF2R cond_Zopp] in *. pose proof (pow2_pos e) as Hu.
    assert (H0 : (0 < IZR (Z.pos m))%R) by (apply IZR_lt; lia).
    destruct (Z.ltb_spec e 0) as [Hneg|Hpos].
    + rewrite Z.shiftl_div_pow2 by lia.
      set (P := 2 ^ (- e)). assert (HP : 0 < P) by (apply Z.pow_pos_nonneg; lia).
      set (z := Z.pos m / P).
      assert (Hz : z * P ≤ Z.pos m < (z + 1) * P).
      { unfold z. pose proof (Z.mul_div_le (Z.pos m) P HP).
        pose proof (Z.mul_succ_div_gt (Z.pos m) P HP). lia. }
      assert (EP : (pow2 e * IZR P = 1)%R).
      { unfold P. rewrite <- pow2_IZR, <- pow2_add by lia.
        replace (e + - e) with 0 by lia. reflexivity. }
      assert (HPr : (0 < IZR P)%R) by (apply IZR_lt; lia).
      destruct Hz as [Hz1 Hz2]. apply IZR_le in Hz1. apply IZR_lt in Hz2.
      rewrite mult_IZR in Hz1. rewrite mult_IZR, plus_IZR in Hz2.
      assert (Hz0 : 0 ≤ z) by (apply Z.div_pos; lia).
      assert (Hlo : (IZR z <= IZR (Z.pos m) * pow2 e)%R).
      { replace (IZR z) with (IZR z * IZR P * pow2 e)%R by (rewrite Rmult_assoc, (Rmult_comm (IZR P)), EP; ring).
        apply Rmult_le_compat_r; lra. }
      assert (Hhi : (IZR (Z.pos m) * pow2 e < IZR z + 1)%R).
      { replace (IZR z + 1)%R with ((IZR z + 1) * IZR P * pow2 e)%R by (rewrite Rmult_assoc, (Rmult_comm (IZR P)), EP; ring).
        apply Rmult_lt_compat_r; lra. }
      assert (Hz53 : z ≤ 2 ^ 53) by (apply le_IZR; lra).
      exists z. split; [lia|]. split; [lra|]. by apply float_of_Z_nonneg.
    + exists (Z.pos m * 2 ^ e).
      assert (Ev : (IZR (Z.pos m) * pow2 e)%R = IZR (Z.pos m * 2 ^ e)).
      { rewrite mult_IZR, <- pow2_IZR by lia. done. }
      rewrite E. cbn [SF2R cond_Zopp nonneg]. rewrite Ev in *.
      split; [|split; [lra|done]]. split; [|by apply le_IZR].
      pose proof (Z.pow_pos_nonneg 2 e). lia.
Qed.

(** A double whose value is a non-negative integer is that index. *)
Lemma float_index_spec (x : float) (z : Z) :
  nonneg (Prim2SF x) → float_real x = IZR z → float_index x = Some (Z.to_nat z).
Proof.
  unfold float_index, float_real. destruct (Prim2SF x) as [s|s| |[] m e] eqn:E; try done.
  - intros _ Hz. cbn [SF2R] in Hz. apply eq_IZR in Hz. by subst z.
  - intros [Hc He] Hz. cbn [SF2R cond_Zopp] in Hz.
    destruct (Z.leb_spec 0 e) as [Hpos|Hneg].
    + rewrite Z.shiftl_mul_pow2 by lia. do 2 f_equal. apply eq_IZR.
      rewrite <- Hz, mult_IZR, <- pow2_IZR by lia. done.
    + set (P := 2 ^ (- e)). assert (HP : 0 < P) by (apply Z.pow_pos_nonneg; lia).
      assert (EP : (pow2 e * IZR P = 1)%R).
      { unfold P. rewrite <- pow2_IZR, <- pow2_add by lia.
        replace (e + - e) with 0 by lia. reflexivity. }
      assert (Em : Z.pos m = z * P).
      { apply eq_IZR. rewrite mult_IZR, <- Hz, Rmult_assoc, EP. ring. }
      rewrite Z.land_ones by lia. fold P. rewrite Em, Z.mod_mul by lia. cbn [Z.eqb].
      rewrite Z.shiftl_div_pow2 by lia. fold P. rewrite Z.div_mul by lia. done.
Qed.

(** A product by a number in [0, 1 - 2^-53] is rounded below the other
    factor. *)
Lemma rounds_to_strict (v : R) (x : spec_float) (M : positive) (eM : Z) :
  rounds_to v x → canonical_mantissa prec emax M eM = true → -1074 < eM → eM ≤ 971 →
  (v * IZR (2 ^ 53) <= IZR (2 ^ 53 - 1) * (IZR (Z.pos M) * pow2 eM))%R →
  nonneg x ∧ (SF2R x < IZR (Z.pos M) * pow2 eM)%R.
Proof.
  intros (k & n & m & e & Hb & Hk & Hn & Hc & Hv & ->) HM HeM HeM' Hle.
  destruct (canonical_cases M eM HM) as (_ & [_ HM2] & HM1 & _). specialize (HM1 HeM).
  pose proof (pow2_pos eM) as Hu.
  change (2 ^ 53) with 9007199254740992 in *. change (2 ^ 52) with 4503599627370496 in *.
  change (9007199254740992 - 1) with 9007199254740991 in *.
  assert (HMr : (4503599627370496 <= IZR (Z.pos M))%R) by (apply IZR_le; lia).
  assert (HMr2 : (IZR (Z.pos M) <= 9007199254740991)%R) by (apply IZR_le; lia).
  set (y := (IZR (Z.pos M) * pow2 eM)%R) in *.
  assert (Hy0 : (0 < y)%R) by (unfold y; nra).
  assert (Hvy : (v < y)%R) by nra.
  assert (Hby : in_binade y (53 + eM)).
  { unfold in_binade, y. replace (53 + eM - 1) with (52 + eM) by lia.
    rewrite !pow2_add, (pow2_IZR 52), (pow2_IZR 53) by lia.
    change (2 ^ 53) with 9007199254740992. change (2 ^ 52) with 4503599627370496.
    split; nra. }
  pose proof (in_binade_le v y k (53 + eM) Hb Hby ltac:(lra)) as Hkk.
  assert (Hval : (IZR n * pow2 (fexp prec emax k) < y)%R).
  { pose proof (nearest_even_range v k n Hk Hb Hn) as [_ Hn2].
    destruct Hn as [[Hn1 _] _]. rewrite fexp_eq in *.
    destruct (decide (k = 53 + eM)) as [Ek|Ek].
    - replace (Z.max (k - 53) (-1074)) with eM in * by lia.
      destruct Hb as [Hb1 _]. rewrite Ek in Hb1. replace (53 + eM - 1) with (52 + eM) in Hb1 by lia.
      rewrite pow2_add, (pow2_IZR 52) in Hb1 by lia.
      change (2 ^ 52) with 4503599627370496 in Hb1. fold y in Hle.
      assert (Z1 : 4503599627370496 * 9007199254740992 ≤ 9007199254740991 * Z.pos M).
      { apply le_IZR. rewrite !mult_IZR. apply (Rmult_le_reg_r (pow2 eM)); [done|].
        unfold y in Hle. nra. }
      assert (Z2 : (2 * n - 1) * 9007199254740992 ≤ 2 * 9007199254740991 * Z.pos M).
      { apply le_IZR. rewrite !mult_IZR, minus_IZR, mult_IZR.
        apply (Rmult_le_reg_r (pow2 eM)); [done|]. unfold y in Hle. nra. }
      assert (Hlt : n < Z.pos M) by lia. apply IZR_lt in Hlt. unfold y. nra.
    - destruct (decide (k = 52 + eM)) as [Ek'|Ek'].
      + replace (Z.max (k - 53) (-1074)) with (eM - 1) in * by lia.
        assert (Eu : pow2 eM = (2 * pow2 (eM - 1))%R).
        { replace eM with ((eM - 1) + 1) at 1 by lia. apply pow2_S. }
        pose proof (pow2_pos (eM - 1)) as Hu'.
        assert (Z2 : (2 * n - 1) * 9007199254740992 ≤ 4 * 9007199254740991 * Z.pos M).
        { apply le_IZR. rewrite !mult_IZR, minus_IZR, mult_IZR.
          apply (Rmult_le_reg_r (pow2 (eM - 1))); [done|]. unfold y in Hle. rewrite Eu in Hle. nra. }
        assert (Hlt : n < 2 * Z.pos M) by lia. apply IZR_lt in Hlt. rewrite mult_IZR in Hlt.
        unfold y. rewrite Eu. nra.
      + assert (Hk2 : k ≤ 51 + eM) by lia.
        set (c := Z.max (k - 53) (-1074)) in *.
        apply IZR_le in Hn2. rewrite <- pow2_IZR in Hn2 by lia.
        pose proof (pow2_pos c) as Hc0.
        assert (H3 : (IZR n * pow2 c <= pow2 k)%R).
        { replace (pow2 k) with (pow2 ((k - c) + c)) by (f_equal; lia). rewrite pow2_add. nra. }
        pose proof (pow2_lt k (52 + eM) ltac:(lia)) as H4.
        rewrite pow2_add, (pow2_IZR 52) in H4 by lia.
        change (2 ^ 52) with 4503599627370496 in H4. unfold y. nra. }
  rewrite <- Hv in Hval.
  assert (He : e ≤ eM).
  { destruct (decide (e ≤ eM)) as [|Hgt]; [done|].
    pose proof (canonical_lt M eM m e HM Hc ltac:(lia)). unfold y in Hval. lra. }
  rewrite (round_result_finite m e ltac:(lia)). split; [split; [done|lia]|]. exact Hval.
Qed.

(** Relative error of a rounding in the normal range. *)
Lemma rounds_to_error (v : R) (x : spec_float) :
  rounds_to v x → nonneg x → (1 <= SF2R x)%R →
  (SF2R x * IZR (2 ^ 53) <= v * (IZR (2 ^ 53) + 1))%R.
Proof.
  intros (k & n & m & e & Hb & Hk & Hn & Hc & Hv & ->) Hx H1.
  unfold round_result in *. change (emax - prec) with 971 in *.
  destruct (Z.leb_spec e 971) as [He|He]; [|done].
  cbn [SF2R cond_Zopp] in *. rewrite Hv in *.
  pose proof (nearest_even_range v k n Hk Hb Hn) as [_ Hn2].
  destruct Hn as [[Hn1 _] _]. destruct Hb as [Hb1 Hb2]. rewrite fexp_eq in *.
  set (c := Z.max (k - 53) (-1074)) in *. pose proof (pow2_pos c) as Hc0.
  assert (Hk0 : 0 ≤ k).
  { destruct (decide (0 ≤ k)) as [|Hneg]; [done|].
    apply IZR_le in Hn2. rewrite <- pow2_IZR in Hn2 by lia.
    assert (H3 : (IZR n * pow2 c <= pow2 k)%R).
    { replace (pow2 k) with (pow2 ((k - c) + c)) by (f_equal; lia). rewrite pow2_add. nra. }
    pose proof (pow2_lt k 0 ltac:(lia)) as H4. unfold pow2 at 2 in H4. cbn in H4. lra. }
  assert (Ec : c = k - 53) by lia.
  assert (E1 : pow2 (k - 1) = (pow2 c * 4503599627370496)%R).
  { replace (k - 1) with (c + 52) by lia. rewrite pow2_add, (pow2_IZR 52) by lia. done. }
  rewrite E1 in Hb1. change (2 ^ 53) with 9007199254740992. nra.
Qed.

(** *** The quotient and the product of the reveal loop *)

Lemma float_of_Z_1 : Prim2SF (float_of_Z 1) = S754_finite false (2 ^ 52) (-52).
Proof. reflexivity. Qed.

(** [a / n] for integers [0 <= a <= n], [0 < n <= 2^53]. *)
Lemma ratio_spec (a n : Z) :
  0 ≤ a ≤ n → 0 < n ≤ 2 ^ 53 →
  let p := PrimFloat.div (float_of_Z a) (float_of_Z n) in
  nonneg (Prim2SF p) ∧ (0 <= float_real p <= 1)%R
  ∧ (a = 0 → Prim2SF p = S754_zero false)
  ∧ (0 < a → (∃ m e, Prim2SF p = S754_finite false m e)
             ∧ rounds_to (IZR a / IZR n) (Prim2SF p)).
Proof.
  intros Ha Hn p.
  destruct (float_of_Z_spec n ltac:(lia)) as ((mn & en & En) & Hnn & Rn).
  destruct (decide (a = 0)) as [->|Ha0].
  - assert (E : Prim2SF p = S754_zero false).
    { unfold p. rewrite FloatAxioms.div_spec, float_of_Z_0, En. reflexivity. }
    unfold float_real. rewrite E. cbn [nonneg SF2R]. split; [done|]. split; [lra|].
    split; [done|lia].
  - destruct (float_of_Z_spec a ltac:(lia)) as ((ma & ea & Ea) & Hna & Ra).
    assert (Hr : rounds_to (IZR a / IZR n) (Prim2SF p)).
    { rewrite <- Ra, <- Rn. apply (div_rounds _ _ ma ea mn en); [done|done| |].
      - rewrite Ra. apply IZR_le. lia.
      - rewrite Rn. apply IZR_le. lia. }
    assert (Hn0 : (0 < IZR n)%R) by (apply IZR_lt; lia).
    assert (Hle : (IZR a / IZR n <= SF2R (S754_finite false (2 ^ 52) (-52)))%R).
    { replace (SF2R (S754_finite false (2 ^ 52) (-52))) with 1%R.
      - assert (IZR a <= IZR n)%R by (apply IZR_le; lia).
        apply (Rmult_le_reg_r (IZR n)); [lra|]. unfold Rdiv.
        rewrite Rmult_assoc, Rinv_l by lra. lra.
      - cbn [SF2R cond_Zopp]. change (Z.pos (2 ^ 52)) with (2 ^ 52).
        rewrite <- (pow2_IZR 52), <- pow2_add by lia. reflexivity. }
    destruct (rounds_to_below _ _ _ (2 ^ 52) (-52) Hr eq_refl ltac:(done) Hle) as (Hfin & Hnn' & Hv).
    split; [done|]. split.
    + split.
      * destruct Hfin as (m & e & E). unfold float_real. rewrite E.
        apply Rlt_le, SF2R_pos.
      * unfold float_real. replace 1%R with (SF2R (S754_finite false (2 ^ 52) (-52))); [done|].
        cbn [SF2R cond_Zopp]. change (Z.pos (2 ^ 52)) with (2 ^ 52).
        rewrite <- (pow2_IZR 52), <- pow2_add by lia. reflexivity.
    + split; [lia|]. intros _. done.
Qed.

Lemma ratio_mono (a b n : Z) :
  0 ≤ a ≤ b → b ≤ n → 0 < n ≤ 2 ^ 53 →
  PrimFloat.leb (PrimFloat.div (float_of_Z a) (float_of_Z n))
                (PrimFloat.div (float_of_Z b) (float_of_Z n)) = true.
Proof.
  intros Hab Hbn Hn.
  destruct (ratio_spec a n ltac:(lia) Hn) as (Ha1 & Ha2 & Ha3 & Ha4).
  destruct (ratio_spec b n ltac:(lia) Hn) as (Hb1 & Hb2 & Hb3 & Hb4).
  destruct (decide (a = 0)) as [Ea|Ea].
  - apply leb_real; [done|done|]. unfold float_real at 1. rewrite (Ha3 Ea). cbn [SF2R]. lra.
  - destruct (Ha4 ltac:(lia)) as [_ Hra]. destruct (Hb4 ltac:(lia)) as [_ Hrb].
    rewrite FloatAxioms.leb_spec. apply (rounds_to_mono _ _ _ _ Hra Hrb).
    assert (Hn0 : (0 < IZR n)%R) by (apply IZR_lt; lia).
    apply Rmult_le_compat_r; [apply Rlt_le, Rinv_0_lt_compat; lra|]. apply IZR_le. lia.
Qed.

(** [p * t] for a number [p] in [0, 1] and an integer [0 <= t <= 2^53]. *)
Lemma scaled_spec (p : float) (t : Z) :
  nonneg (Prim2SF p) → (float_real p <= 1)%R → 0 ≤ t ≤ 2 ^ 53 →
  let q := PrimFloat.mul p (float_of_Z t) in
  nonneg (Prim2SF q) ∧ (0 <= float_real q <= IZR t)%R
  ∧ ((∃ s, Prim2SF p = S754_zero s) ∨ t = 0 → ∃ s, Prim2SF q = S754_zero s)
  ∧ ((∃ m e, Prim2SF p = S754_finite false m e) → 0 < t →
       rounds_to (float_real p * IZR t) (Prim2SF q)).
Proof.
  intros Hp Hp1 Ht q.
  assert (Hzero : (∃ s, Prim2SF p = S754_zero s) ∨ t = 0 → ∃ s, Prim2SF q = S754_zero s).
  { intros Hz. unfold q. rewrite FloatAxioms.mul_spec.
    destruct (decide (t = 0)) as [->|Ht0].
    - rewrite float_of_Z_0. destruct (Prim2SF p) as [s|s| |[] m e]; cbn in *; try done; eauto.
    - destruct Hz as [[s ->]|]; [|done].
      destruct (float_of_Z_spec t ltac:(lia)) as ((mt & et & ->) & _). cbn. eauto. }
  destruct (decide ((∃ s, Prim2SF p = S754_zero s) ∨ t = 0)) as [Hz|Hnz].
  - destruct (Hzero Hz) as [s E]. unfold float_real. rewrite E. cbn [nonneg SF2R].
    split; [done|]. split; [split; [lra|apply IZR_le; lia]|]. split; [eauto|].
    intros (m & e & Ep) Ht0. destruct Hz as [[s' Hz]|Hz]; [congruence|lia].
  - assert (Ht0 : 0 < t) by lia.
    destruct (Prim2SF p) as [s|s| |[] m e] eqn:Ep; try done; [exfalso; eauto|].
    destruct (float_of_Z_spec t ltac:(lia)) as ((mt & et & Et) & Hnt & Rt).
    assert (Hr : rounds_to (float_real p * IZR t) (Prim2SF q)).
    { rewrite <- Rt. apply (mul_rounds _ _ m e mt et Ep Et). right. rewrite Rt. apply IZR_le. lia. }
    assert (Hp0 : (0 < float_real p)%R) by (unfold float_real; rewrite Ep; apply SF2R_pos).
    assert (Hle : (float_real p * IZR t <= SF2R (Prim2SF (float_of_Z t)))%R).
    { change (SF2R (Prim2SF (float_of_Z t))) with (float_real (float_of_Z t)). rewrite Rt.
      assert (0 < IZR t)%R by (apply IZR_lt; lia). nra. }
    destruct (rounds_to_below _ _ _ mt et Hr Et Hnt Hle) as ((m' & e' & E') & Hnn & Hv).
    split; [done|]. split.
    + unfold float_real at 1 2. rewrite E'. split; [apply Rlt_le, SF2R_pos|].
      rewrite <- E', <- Rt. exact Hv.
    + split; [done|]. intros _ _. exact Hr.
Qed.

Lemma scaled_mono (p p' : float) (t : Z) :
  nonneg (Prim2SF p) → nonneg (Prim2SF p') →
  (float_real p <= float_real p')%R → (float_real p' <= 1)%R → 0 ≤ t ≤ 2 ^ 53 →
  PrimFloat.leb (PrimFloat.mul p (float_of_Z t)) (PrimFloat.mul p' (float_of_Z t)) = true.
Proof.
  intros Hp Hp' Hle H1 Ht.
  destruct (scaled_spec p t Hp ltac:(lra) Ht) as (Hq & Hq1 & Hqz & Hqr).
  destruct (scaled_spec p' t Hp' H1 Ht) as (Hq' & Hq1' & Hqz' & Hqr').
  destruct (decide ((∃ s, Prim2SF p = S754_zero s) ∨ t = 0)) as [Hz|Hnz].
  - destruct (Hqz Hz) as [s E]. apply leb_real; [done|done|].
    unfold float_real at 1. rewrite E. cbn [SF2R]. lra.
  - assert (Ht0 : 0 < t) by lia.
    destruct (Prim2SF p) as [s|s| |[] m e] eqn:Ep; try done; [exfalso; eauto|].
    assert (Hp0 : (0 < float_real p)%R) by (unfold float_real; rewrite Ep; apply SF2R_pos).
    destruct (Prim2SF p') as [s'|s'| |[] m' e'] eqn:Ep'; try done.
    { unfold float_real at 2 in Hle. rewrite Ep' in Hle. cbn [SF2R] in Hle. lra. }
    rewrite FloatAxioms.leb_spec.
    apply (rounds_to_mono _ _ _ _ (Hqr ltac:(eauto) Ht0) (Hqr' ltac:(eauto) Ht0)).
    assert (0 < IZR t)%R by (apply IZR_lt; lia). nra.
Qed.

(** [Math.floor] is monotone, and yields an integer. *)
Lemma floor_mono_float (x y : float) :
  nonneg (Prim2SF x) → nonneg (Prim2SF y) →
  (float_real x <= float_real y)%R → (float_real y <= IZR (2 ^ 53))%R →
  PrimFloat.leb (float_floor x) (float_floor y) = true.
Proof.
  intros Hx Hy Hle Hmax.
  destruct (float_floor_spec x Hx ltac:(lra)) as (zx & _ & Hzx & Hnx & Rx).
  destruct (float_floor_spec y Hy Hmax) as (zy & _ & Hzy & Hny & Ry).
  apply leb_real; [done|done|]. rewrite Rx, Ry. apply IZR_le.
  assert (H : (IZR zx < IZR zy + 1)%R) by lra.
  rewrite <- plus_IZR in H. apply lt_IZR in H. lia.
Qed.

Lemma floor_integer_float (x : float) (t : Z) :
  nonneg (Prim2SF x) → (float_real x <= IZR t)%R → 0 ≤ t ≤ 2 ^ 53 →
  ∃ z, 0 ≤ z ≤ t ∧ nonneg (Prim2SF (float_floor x)) ∧ float_real (float_floor x) = IZR z.
Proof.
  intros Hx Hle Ht.
  assert (Hmax : (float_real x <= IZR (2 ^ 53))%R).
  { apply Rle_trans with (IZR t); [done|]. apply IZR_le. lia. }
  destruct (float_floor_spec x Hx Hmax) as (z & Hz & Hzx & Hn & Rz).
  assert (Hzt : z ≤ t) by (apply le_IZR; lra).
  exists z. split; [lia|done].
Qed.

(** Two non-negative doubles of the same value are equal as numbers. *)
Lemma same_value_eqv (x y : float) :
  nonneg (Prim2SF x) → nonneg (Prim2SF y) → float_real x = float_real y →
  PrimFloat.leb x y = true ∧ PrimFloat.leb y x = true.
Proof. intros Hx Hy E. split; apply leb_real; try done; lra. Qed.

(** ** The published values are monotone *)

(** The progress [c / n] is a double between 0 and 1, and grows with the
    cursor. *)
Lemma progress_range (a n : nat) :
  (a ≤ n)%nat → (0 < n)%nat → Z.of_nat n ≤ safe_integer →
  nonneg (Prim2SF (@progress float _ a n))
  ∧ (0 <= float_real (@progress float _ a n) <= 1)%R.
Proof.
  intros Ha Hn Hs. unfold progress, num_of_nat. cbn [num_div num_of_Z float_JsNum].
  destruct (ratio_spec (Z.of_nat a) (Z.of_nat n) ltac:(lia) ltac:(unfold safe_integer in Hs; lia))
    as (H1 & H2 & _). done.
Qed.

Lemma progress_mono (a b n : nat) :
  (a ≤ b ≤ n)%nat → (0 < n)%nat → Z.of_nat n ≤ safe_integer →
  PrimFloat.leb (@progress float _ a n) (@progress float _ b n) = true.
Proof.
  intros Hab Hn Hs. unfold progress, num_of_nat. cbn [num_div num_of_Z float_JsNum].
  apply ratio_mono; unfold safe_integer in Hs; lia.
Qed.

(** The count [floor((c / n) * t)] grows with the cursor and is an integer
    between 0 and [t]. *)
Lemma revealed_mono (a b n : nat) (t : Z) :
  (a ≤ b ≤ n)%nat → (0 < n)%nat → Z.of_nat n ≤ safe_integer → 0 ≤ t ≤ safe_integer →
  PrimFloat.leb (@revealed float _ a n t) (@revealed float _ b n t) = true.
Proof.
  intros Hab Hn Hs Ht. unfold revealed. cbn [Math_floor num_mul num_of_Z float_JsNum].
  destruct (progress_range a n ltac:(lia) Hn Hs) as [Ha1 Ha2].
  destruct (progress_range b n ltac:(lia) Hn Hs) as [Hb1 Hb2].
  pose proof (progress_mono a b n Hab Hn Hs) as Hm.
  apply leb_real in Hm; [|done|done].
  unfold safe_integer in Ht.
  destruct (scaled_spec _ t Ha1 ltac:(lra) Ht) as (Hqa & Hqa1 & _).
  destruct (scaled_spec _ t Hb1 ltac:(lra) Ht) as (Hqb & Hqb1 & _).
  pose proof (scaled_mono _ _ t Ha1 Hb1 Hm ltac:(lra) Ht) as Hq.
  apply leb_real in Hq; [|done|done].
  apply floor_mono_float; [done|done|done|].
  apply Rle_trans with (IZR t); [lra|]. apply IZR_le. lia.
Qed.

Lemma revealed_integer (a n : nat) (t : Z) :
  (a ≤ n)%nat → (0 < n)%nat → Z.of_nat n ≤ safe_integer → 0 ≤ t ≤ safe_integer →
  ∃ z : Z, 0 ≤ z ≤ t ∧ nonneg (Prim2SF (@revealed float _ a n t))
           ∧ float_real (@revealed float _ a n t) = IZR z.
Proof.
  intros Ha Hn Hs Ht. unfold revealed.
  cbn [Math_floor num_mul num_of_Z num_le float_JsNum].
  destruct (progress_range a n Ha Hn Hs) as [Ha1 Ha2]. unfold safe_integer in Ht.
  destruct (scaled_spec _ t Ha1 ltac:(lra) Ht) as (Hqa & Hqa1 & _).
  apply floor_integer_float; [done|lra|done].
Qed.

(** C6, amended: in binary64, for a non-empty permutation and an integer
    [targetTotal] with [0 <= targetTotal <= 2^53], the values that
    successive frames of one session publish are non-decreasing, both
    [progressFraction] and [displayedCount]; [progressFraction] lies between
    0 and 1 and [displayedCount] is an integer between 0 and [targetTotal].
    Starting the session publishes nothing: while [isPaletteRevealing] is
    already true the count on screen is still the one set before, which
    the first frame replaces. *)
Theorem observed_values_monotone (s : page float) (cv : canvas) (t : Z) (k j : nat) :
  canvasRef s = Some cv → scheduled s = [] → (0 < length (dotsRef s))%nat →
  Z.of_nat (length (dotsRef s)) ≤ safe_integer → 0 ≤ t ≤ safe_integer →
  (1 ≤ k ≤ j)%nat →
  let s0 := startRevealAnimation t s in
  let sk := frames k s0 in
  let sj := frames j s0 in
  PrimFloat.leb (revealProgress sk) (revealProgress sj) = true
  ∧ PrimFloat.leb (paletteCount sk) (paletteCount sj) = true
  ∧ PrimFloat.leb (float_of_Z 0) (revealProgress sk) = true
  ∧ PrimFloat.leb (revealProgress sk) (float_of_Z 1) = true
  ∧ (∃ z : Z, 0 ≤ z ≤ t ∧ num_eqv (paletteCount sk) (num_of_Z z))
  ∧ isPaletteRevealing s0 = true ∧ paletteCount s0 = paletteCount s.
Proof.
  intros Hcv Hsch Hn Hs Ht Hkj s0 sk sj.
  set (n := length (dotsRef s)) in *.
  destruct (published_values s cv t k Hcv Hsch Hn ltac:(lia)) as (Hpk & Hck & Hdk).
  destruct (published_values s cv t j Hcv Hsch Hn ltac:(lia)) as (Hpj & Hcj & Hdj).
  fold n s0 sk in Hpk, Hck, Hdk. fold n s0 sj in Hpj, Hcj, Hdj.
  pose proof (cursor_le n k) as Hk. pose proof (cursor_le n j) as Hj.
  pose proof (cursor_mono n k j ltac:(lia)) as Hm.
  destruct (progress_range (cursor n k) n Hk Hn Hs) as [Hn1 Hr].
  destruct (float_of_Z_nonneg 0 ltac:(lia)) as [Hz0 Rz0].
  destruct (float_of_Z_nonneg 1 ltac:(lia)) as [Hz1 Rz1].
  assert (Ht' : 0 ≤ t ≤ 2 ^ 53) by exact Ht.
  destruct (float_of_Z_nonneg t Ht') as [Hnt Rt].
  assert (Hint : ∃ z : Z, 0 ≤ z ≤ t ∧ nonneg (Prim2SF (paletteCount sk))
                          ∧ float_real (paletteCount sk) = IZR z).
  { destruct (decide (cursor n k < n)%nat) as [Hlt|Hge].
    - rewrite (Hck Hlt). by apply revealed_integer.
    - rewrite Hdk by lia. exists t. split; [lia|done]. }
  destruct Hint as (z & Hz & Hnk & Rk).
  destruct (float_of_Z_nonneg z ltac:(lia)) as [Hnz Rz].
  rewrite Hpk, Hpj. split; [apply progress_mono; lia|]. split.
  { destruct (decide (cursor n j < n)%nat) as [Hlt|Hge].
    - rewrite Hck, Hcj by lia. apply revealed_mono; lia.
    - rewrite Hdj by lia. cbn [num_of_Z float_JsNum]. apply leb_real; [done|done|].
      rewrite Rk, Rt. apply IZR_le. lia. }
  split; [apply leb_real; [done|done|rewrite Rz0; lra]|].
  split; [apply leb_real; [done|done|rewrite Rz1; lra]|].
  split.
  { exists z. split; [done|]. apply same_value_eqv; [done|done|]. rewrite Rk. exact (eq_sym Rz). }
  unfold s0, startRevealAnimation. rewrite Hcv. done.
Qed.

(** ** An empty permutation *)

Lemma progress_empty : @progress float _ 0 0 = nan.
Proof. vm_compute. reflexivity. Qed.

Lemma revealed_empty (t : Z) : Prim2SF (@revealed float _ 0 0 t) = S754_nan.
Proof.
  unfold revealed. rewrite progress_empty. cbn [Math_floor num_mul float_JsNum].
  assert (H : Prim2SF (PrimFloat.mul nan (num_of_Z t)) = S754_nan)
    by (rewrite FloatAxioms.mul_spec; reflexivity).
  unfold float_floor. now rewrite H.
Qed.

(** C10: in binary64, when the reveal loop starts on an empty stored
    permutation it runs a single frame: a callback is pending at the start
    and none after that frame, which clears no cell, marks the session
    inactive and leaves [displayedCount = targetTotal]; the progress it
    reports is [0 / 0 = NaN], which is not a number between 0 and 1, and the
    count it computes before the pin, [floor(NaN * targetTotal)], is NaN as
    well. *)
Theorem empty_permutation_nan (s : page float) (cv : canvas) (t : Z) :
  canvasRef s = Some cv → scheduled s = [] → dotsRef s = [] →
  let s0 := startRevealAnimation t s in
  let s1 := frames 1 s0 in
  scheduled s0 ≠ [] ∧ scheduled s1 = [] ∧ isPaletteRevealing s1 = false
  ∧ canvasRef s1 = Some (Canvas (width cv) (height cv) (drawn cv ++ []))
  ∧ paletteCount s1 = float_of_Z t
  ∧ revealProgress s1 = PrimFloat.div (float_of_Z 0) (float_of_Z 0)
  ∧ Prim2SF (revealProgress s1) = S754_nan
  ∧ ¬ (num_le (num_of_Z 0) (revealProgress s1) ∧ num_le (revealProgress s1) (num_of_Z 1))
  ∧ Prim2SF (revealed 0 0 t) = S754_nan.
Proof.
  intros Hcv Hsch Hds s0 s1.
  assert (Hs0 : scheduled s0 =
                [(next_request_id s, Closure [] 0 (frame_budget 0) t)]).
  { unfold s0, startRevealAnimation. rewrite Hcv. cbn. now rewrite Hsch, Hds. }
  assert (Hcv0 : canvasRef s0 = Some cv).
  { unfold s0, startRevealAnimation. rewrite Hcv. exact Hcv. }
  split; [by rewrite Hs0|].
  subst s1. change (frames 1 s0) with (animation_frame s0).
  rewrite (animation_frame_one _ _ _ Hs0).
  unfold reveal. rewrite bool_decide_false by (cbn; lia).
  unfold clear_cells. cbn. rewrite Hcv0. cbn.
  repeat split; try reflexivity.
  - intros [H _]. revert H. vm_compute. discriminate.
  - apply revealed_empty.
Qed.

(** ** The dot field *)

Lemma grid_row_length (w y : nat) : length (grid_row w y) = w.
Proof. unfold grid_row. now rewrite length_fmap, length_seq. Qed.

Lemma grid_S (w h : nat) : grid w (S h) = grid w h ++ grid_row w h.
Proof. unfold grid. now rewrite seq_S, bind_app, bind_singleton. Qed.

Lemma grid_length (w h : nat) : length (grid w h) = (w * h)%nat.
Proof.
  induction h as [|h IH]; [cbn; lia|].
  rewrite grid_S, length_app, IH, grid_row_length. lia.
Qed.

Lemma elem_of_grid (w h x y : nat) : (x, y) ∈ grid w h ↔ (x < w)%nat ∧ (y < h)%nat.
Proof.
  unfold grid, grid_row. rewrite list_elem_of_bind. split.
  - intros (y' & Hx & Hy). apply list_elem_of_fmap in Hx as (x' & E & Hx).
    apply elem_of_seq in Hx, Hy. simplify_eq. lia.
  - intros [Hx Hy]. exists y. split.
    + apply list_elem_of_fmap. exists x. split; [done|]. apply elem_of_seq. lia.
    + apply elem_of_seq. lia.
Qed.

Lemma grid_NoDup (w h : nat) : NoDup (grid w h).
Proof.
  unfold grid. apply NoDup_bind; [| |apply NoDup_seq].
  - intros y1 y2 [x y] _ _ H1 H2. unfold grid_row in *.
    apply list_elem_of_fmap in H1 as (? & ? & _), H2 as (? & ? & _). congruence.
  - intros y _. unfold grid_row. apply NoDup_fmap_2_strong; [|apply NoDup_seq].
    intros x1 x2 _ _ E. congruence.
Qed.

(** Row-major order: the cell [(x, y)] is generated at position [y * w + x]. *)
Lemma grid_row_major (w h x y : nat) :
  (x < w)%nat → (y < h)%nat → grid w h !! (y * w + x)%nat = Some (x, y).
Proof.
  intros Hx. induction h as [|h IH]; [lia|]. intros Hy. rewrite grid_S.
  destruct (decide (y < h)%nat) as [Hlt|Hge].
  - rewrite lookup_app_l; [auto|]. rewrite grid_length. nia.
  - assert (y = h) as -> by lia.
    rewrite lookup_app_r; rewrite grid_length; [|lia].
    replace (h * w + x - w * h)%nat with x by lia.
    unfold grid_row. rewrite list_lookup_fmap, lookup_seq_lt by done. done.
Qed.

(** ** The shuffle *)

Section Shuffle.
Context {num : Type} `{!JsNum num}.
Variable random : nat → num.

Lemma swap_length ds i j : length (swap ds i j) = length ds.
Proof.
  unfold swap. destruct j as [j|]; [|done].
  destruct (ds !! i), (ds !! j); now rewrite ?length_insert.
Qed.

Lemma swap_perm ds i j : swap ds i j ≡ₚ ds.
Proof.
  unfold swap. destruct j as [j|]; [|done].
  destruct (ds !! i) eqn:Hi, (ds !! j) eqn:Hj; try done.
  now apply Permutation_insert_swap.
Qed.

Lemma shuffle_from_perm k i ds : shuffle_from random k i ds ≡ₚ ds.
Proof.
  revert k ds. induction i as [|i IH]; intros k ds; [done|].
  cbn [shuffle_from]. now rewrite IH, swap_perm.
Qed.

Lemma shuffle_perm k ds : shuffle random k ds ≡ₚ ds.
Proof. apply shuffle_from_perm. Qed.

Lemma fisher_yates_from_perm js i ds : fisher_yates_from js i ds ≡ₚ ds.
Proof.
  revert ds. induction i as [|i IH]; intros ds; [done|].
  cbn [fisher_yates_from]. now rewrite IH, swap_perm.
Qed.

(** The loop of [initRevealDots] is Fisher-Yates on the indices it draws. *)
Lemma shuffle_from_fisher_yates js k i ds :
  (∀ i', (1 ≤ i' ≤ i)%nat → as_index (draw (random (k + (i - i'))) i') = Some (js i')) →
  shuffle_from random k i ds = fisher_yates_from js i ds.
Proof.
  revert k ds. induction i as [|i IH]; intros k ds Hjs; [done|].
  cbn [shuffle_from fisher_yates_from]. rewrite <- (Hjs (S i)) by lia. rewrite Nat.sub_diag, Nat.add_0_r.
  apply IH. intros i' Hi'. rewrite <- Hjs by lia. do 3 f_equal. lia.
Qed.

Lemma shuffle_fisher_yates js k ds :
  (∀ i, (1 ≤ i < length ds)%nat → pick random k (length ds) i = Some (js i)) →
  shuffle random k ds = fisher_yates js ds.
Proof.
  intros Hjs. apply shuffle_from_fisher_yates. intros i Hi. apply Hjs. lia.
Qed.

End Shuffle.

(** *** Fisher-Yates as a bijection between index choices and permutations *)

Lemma swap_lookup_target ds i j :
  (i < length ds)%nat → (j < length ds)%nat → swap ds i (Some j) !! i = ds !! j.
Proof.
  intros Hi Hj. unfold swap.
  destruct (lookup_lt_is_Some_2 ds i Hi) as [di Hdi].
  destruct (lookup_lt_is_Some_2 ds j Hj) as [dj Hdj]. rewrite Hdi, Hdj.
  destruct (decide (i = j)) as [->|Hne].
  - rewrite list_lookup_insert_eq by (rewrite length_insert; lia). congruence.
  - rewrite list_lookup_insert_ne by done. now rewrite list_lookup_insert_eq.
Qed.

Lemma swap_lookup_other ds i j p :
  p ≠ i → p ≠ j → swap ds i (Some j) !! p = ds !! p.
Proof.
  intros Hi Hj. unfold swap. destruct (ds !! i), (ds !! j); try done.
  now rewrite !list_lookup_insert_ne.
Qed.

Lemma swap_NoDup ds i j : NoDup ds → NoDup (swap ds i j).
Proof. intros Hnd. now rewrite swap_perm. Qed.

(** Positions above [i] are out of reach of the steps from [i] down. *)
Lemma fisher_yates_from_above js i ds p :
  (∀ i', (1 ≤ i' ≤ i)%nat → (js i' ≤ i')%nat) → (i < p)%nat →
  fisher_yates_from js i ds !! p = ds !! p.
Proof.
  revert ds. induction i as [|i IH]; intros ds Hjs Hp; [done|].
  cbn [fisher_yates_from]. rewrite IH by (auto with lia).
  apply swap_lookup_other; [lia|]. specialize (Hjs (S i)). lia.
Qed.

(** The step at [i] settles position [i]. *)
Lemma fisher_yates_from_settled js i ds :
  (∀ i', (1 ≤ i' ≤ S i)%nat → (js i' ≤ i')%nat) → (S i < length ds)%nat →
  fisher_yates_from js (S i) ds !! S i = ds !! js (S i).
Proof.
  intros Hjs Hi. cbn [fisher_yates_from].
  rewrite fisher_yates_from_above by (auto with lia).
  apply swap_lookup_target; [done|]. specialize (Hjs (S i)). lia.
Qed.

Lemma fisher_yates_from_ext js js' i ds :
  (∀ i', (1 ≤ i' ≤ i)%nat → js i' = js' i') →
  fisher_yates_from js i ds = fisher_yates_from js' i ds.
Proof.
  revert ds. induction i as [|i IH]; intros ds Hjs; [done|].
  cbn [fisher_yates_from]. rewrite (Hjs (S i)) by lia. apply IH. auto with lia.
Qed.

(** Two sequences of choices with the same outcome are the same. *)
Lemma fisher_yates_from_inj js js' i ds :
  NoDup ds → (i < length ds)%nat →
  (∀ i', (1 ≤ i' ≤ i)%nat → (js i' ≤ i')%nat) →
  (∀ i', (1 ≤ i' ≤ i)%nat → (js' i' ≤ i')%nat) →
  fisher_yates_from js i ds = fisher_yates_from js' i ds →
  ∀ i', (1 ≤ i' ≤ i)%nat → js i' = js' i'.
Proof.
  revert ds. induction i as [|i IH]; intros ds Hnd Hi Hjs Hjs' Heq i' Hi'; [lia|].
  assert (Hlast : js (S i) = js' (S i)).
  { pose proof (fisher_yates_from_settled js i ds Hjs Hi) as H1.
    pose proof (fisher_yates_from_settled js' i ds Hjs' Hi) as H2.
    rewrite Heq, H2 in H1.
    pose proof (Hjs (S i) ltac:(lia)). pose proof (Hjs' (S i) ltac:(lia)).
    destruct (lookup_lt_is_Some_2 ds (js (S i)) ltac:(lia)) as [d Hd].
    rewrite Hd in H1. symmetry. exact (NoDup_lookup ds _ _ d Hnd H1 Hd). }
  destruct (decide (i' = S i)) as [->|Hne]; [done|].
  cbn [fisher_yates_from] in Heq. rewrite <- Hlast in Heq.
  apply (IH (swap ds (S i) (Some (js (S i))))); auto with lia.
  - now apply swap_NoDup.
  - rewrite swap_length. lia.
Qed.

Lemma same_tail_same_list (ds ds' : list cell) :
  NoDup ds → ds' ≡ₚ ds → drop 1 ds' = drop 1 ds → ds' = ds.
Proof.
  intros Hnd Hp Ht. destruct ds as [|a t], ds' as [|b t'].
  - done.
  - apply Permutation_length in Hp. done.
  - apply Permutation_length in Hp. done.
  - cbn in Ht. rewrite !drop_0 in Ht. subst t'. f_equal.
    apply NoDup_cons_1_1 in Hnd as Ha.
    assert (Hb : a ∈ b :: t) by (rewrite Hp; left).
    apply elem_of_cons in Hb as [->|Hb]; [done|contradiction].
Qed.

(** Every arrangement that agrees with [ds] above [i] is reached. *)
Lemma fisher_yates_from_surj i ds ds' :
  NoDup ds → (i < length ds)%nat → ds' ≡ₚ ds →
  (∀ p, (i < p)%nat → ds' !! p = ds !! p) →
  ∃ js, (∀ i', (1 ≤ i' ≤ i)%nat → (js i' ≤ i')%nat) ∧ fisher_yates_from js i ds = ds'.
Proof.
  revert ds. induction i as [|i IH]; intros ds Hnd Hi Hp Hab.
  - exists (λ _, 0%nat). split; [lia|]. cbn. symmetry.
    apply same_tail_same_list; [done..|].
    apply list_eq. intros p. rewrite !lookup_drop. apply Hab. lia.
  - assert (Hlen : length ds' = length ds) by now apply Permutation_length.
    destruct (lookup_lt_is_Some_2 ds' (S i) ltac:(lia)) as [x Hx].
    assert (Hin : x ∈ ds) by (rewrite <- Hp; eapply list_elem_of_lookup_2; eauto).
    apply list_elem_of_lookup_1 in Hin as [j Hj].
    assert (Hji : (j ≤ S i)%nat).
    { destruct (decide (j ≤ S i)%nat) as [|Hgt]; [done|]. exfalso.
      rewrite <- Hab in Hj by lia.
      assert (NoDup ds') as Hnd' by now rewrite Hp.
      pose proof (NoDup_lookup ds' _ _ x Hnd' Hj Hx). lia. }
    destruct (IH (swap ds (S i) (Some j))) as (js & Hjs & Hfy).
    + now apply swap_NoDup.
    + rewrite swap_length. lia.
    + now rewrite swap_perm.
    + intros p Hip. destruct (decide (p = S i)) as [->|Hne].
      * rewrite swap_lookup_target by lia. congruence.
      * rewrite swap_lookup_other by lia. apply Hab. lia.
    + exists (λ i', if decide (i' = S i) then j else js i'). split.
      * intros i' Hi'. case_decide; [lia|]. apply Hjs. lia.
      * cbn [fisher_yates_from]. rewrite decide_True by done.
        rewrite <- Hfy. apply fisher_yates_from_ext.
        intros i' Hi'. rewrite decide_False by lia. done.
Qed.

(** *** Counting the sequences of choices *)

Lemma length_bind_const {A B} (f : A → list B) (c : nat) (l : list A) :
  (∀ x, x ∈ l → length (f x) = c) → length (l ≫= f) = (length l * c)%nat.
Proof.
  induction l as [|x l IH]; intros Hf; [done|].
  rewrite bind_cons, length_app, IH, Hf; [cbn; lia|left|].
  intros y Hy. apply Hf. now right.
Qed.

Lemma choice_lists_length (m : nat) : length (choice_lists m) = fact (S m).
Proof.
  induction m as [|m IH]; [done|].
  cbn [choice_lists]. rewrite (length_bind_const _ (m + 2)).
  - rewrite IH. change (fact (S (S m))) with (S (S m) * fact (S m))%nat. lia.
  - intros l _. now rewrite length_fmap, length_seq.
Qed.

Lemma elem_of_choice_lists (m : nat) (l : list nat) :
  l ∈ choice_lists m ↔
  length l = m ∧ ∀ p, (p < m)%nat → ∃ j, l !! p = Some j ∧ (j ≤ p + 1)%nat.
Proof.
  revert l. induction m as [|m IH]; intros l.
  - cbn. rewrite list_elem_of_singleton. split.
    + intros ->. split; [done|]. intros; lia.
    + intros [Hl _]. now apply nil_length_inv.
  - cbn [choice_lists]. rewrite list_elem_of_bind. split.
    + intros (l0 & Hl & Hl0). apply list_elem_of_fmap in Hl as (j & -> & Hj).
      apply elem_of_seq in Hj. apply IH in Hl0 as [Hlen Hl0].
      split; [rewrite length_app; cbn; lia|].
      intros p Hp. destruct (decide (p < m)%nat) as [Hlt|Hge].
      * rewrite lookup_app_l by lia. now apply Hl0.
      * assert (p = m) as -> by lia. exists j.
        rewrite lookup_app_r by lia. rewrite Hlen, Nat.sub_diag. split; [done|lia].
    + intros [Hlen Hl]. destruct (Hl m ltac:(lia)) as (j & Hj & Hjm).
      exists (take m l). split.
      * apply list_elem_of_fmap. exists j. split; [|apply elem_of_seq; lia].
        rewrite <- (take_S_r _ _ _ Hj). now rewrite <- Hlen, firstn_all.
      * apply IH. split; [rewrite length_take; lia|].
        intros p Hp. destruct (Hl p ltac:(lia)) as (j' & Hj' & ?).
        exists j'. split; [|done]. now rewrite lookup_take_lt.
Qed.

Lemma choice_lists_NoDup (m : nat) : NoDup (choice_lists m).
Proof.
  induction m as [|m IH]; [apply NoDup_singleton|].
  cbn [choice_lists]. apply NoDup_bind; [| |done].
  - intros l1 l2 l _ _ H1 H2.
    apply list_elem_of_fmap in H1 as (j1 & -> & _), H2 as (j2 & E & _).
    now apply app_inj_tail in E as [? _].
  - intros l _. apply NoDup_fmap_2_strong; [|apply NoDup_seq].
    intros j1 j2 _ _ E. now apply app_inj_tail in E as [_ ?].
Qed.

Lemma filter_none {A} (P : A → Prop) `{∀ x, Decision (P x)} (l : list A) :
  (∀ y, y ∈ l → ¬ P y) → filter P l = [].
Proof.
  induction l as [|y l IH]; intros Hn; [done|].
  rewrite filter_cons_False by (apply Hn; left). apply IH. intros z Hz. apply Hn. now right.
Qed.

Lemma filter_the_one {A} (P : A → Prop) `{∀ x, Decision (P x)} (l : list A) (x : A) :
  NoDup l → x ∈ l → P x → (∀ y, y ∈ l → P y → y = x) → length (filter P l) = 1%nat.
Proof.
  induction 1 as [|x' l Hx' Hnd IH]; intros Hin HP Huniq.
  - now apply elem_of_nil in Hin.
  - destruct (decide (P x')) as [HP'|HP'].
    + assert (x' = x) as -> by (apply Huniq; [left|done]).
      rewrite filter_cons_True by done. rewrite filter_none; [done|].
      intros y Hy HPy. apply Hx'. rewrite <- (Huniq y); [done|now right|done].
    + rewrite filter_cons_False by done.
      apply IH; [|done|].
      * apply elem_of_cons in Hin as [->|?]; [contradiction|done].
      * intros y Hy. apply Huniq. now right.
Qed.

Lemma choices_of_lookup (l : list nat) (i j : nat) :
  (1 ≤ i)%nat → l !! (i - 1)%nat = Some j → choices_of l i = j.
Proof. intros _ H. unfold choices_of. now rewrite H. Qed.

Lemma choices_of_in_range (m : nat) (l : list nat) :
  l ∈ choice_lists m → ∀ i, (1 ≤ i ≤ m)%nat → (choices_of l i ≤ i)%nat.
Proof.
  intros [_ Hl]%elem_of_choice_lists i Hi.
  destruct (Hl (i - 1)%nat ltac:(lia)) as (j & Hj & ?).
  rewrite (choices_of_lookup l i j) by (lia || done). lia.
Qed.

(** Each permutation is the outcome of exactly one of the [n!] sequences of
    choices. *)
Lemma fisher_yates_one_in_factorial (ds ds' : list cell) :
  NoDup ds → ds' ≡ₚ ds →
  length (choice_lists (length ds - 1)) = fact (length ds)
  ∧ length (filter (λ l, fisher_yates (choices_of l) ds = ds')
                   (choice_lists (length ds - 1))) = 1%nat.
Proof.
  intros Hnd Hp. set (n := length ds). split.
  { rewrite choice_lists_length. destruct n; [done|]. do 2 f_equal. lia. }
  destruct (decide (n = 0%nat)) as [Hn|Hn].
  { assert (ds = []) as -> by now apply nil_length_inv.
    apply Permutation_nil_r in Hp as ->. reflexivity. }
  destruct (fisher_yates_from_surj (n - 1) ds ds' Hnd ltac:(lia) Hp) as (js & Hjs & Hfy).
  { intros p Hip. rewrite !lookup_ge_None_2; [done|fold n; lia|].
    apply Permutation_length in Hp. rewrite Hp. fold n. lia. }
  assert (Hagree : ∀ i, (1 ≤ i ≤ n - 1)%nat → choices_of (js <$> seq 1 (n - 1)) i = js i).
  { intros i Hi. apply choices_of_lookup; [lia|].
    rewrite list_lookup_fmap, lookup_seq_lt by lia. cbn. f_equal. f_equal. lia. }
  apply (filter_the_one _ _ (js <$> seq 1 (n - 1))).
  - apply choice_lists_NoDup.
  - apply elem_of_choice_lists. split; [now rewrite length_fmap, length_seq|].
    intros p Hp'. exists (js (1 + p)%nat).
    rewrite list_lookup_fmap, lookup_seq_lt by lia. split; [done|].
    specialize (Hjs (1 + p)%nat). lia.
  - rewrite <- Hfy. unfold fisher_yates. fold n. now apply fisher_yates_from_ext.
  - intros l Hl Hfl.
    pose proof (choices_of_in_range _ _ Hl) as Hr. fold n in Hr.
    assert (Heq : ∀ i, (1 ≤ i ≤ n - 1)%nat → choices_of l i = js i).
    { apply (fisher_yates_from_inj _ _ (n - 1) ds); [done|lia|done|done|].
      unfold fisher_yates in Hfl. fold n in Hfl. now rewrite Hfl, Hfy. }
    apply elem_of_choice_lists in Hl as [Hlen Hl]. fold n in Hlen, Hl.
    apply list_eq. intros p. destruct (decide (p < n - 1)%nat) as [Hlt|Hge].
    + destruct (Hl p Hlt) as (j & Hj & _). rewrite Hj.
      rewrite list_lookup_fmap, lookup_seq_lt by lia. cbn [fmap option_fmap option_map]. f_equal.
      rewrite <- (Heq (1 + p)%nat) by lia. symmetry. apply choices_of_lookup; [lia|].
      now replace (1 + p - 1)%nat with p by lia.
    + rewrite !lookup_ge_None_2; [done| |lia].
      rewrite length_fmap, length_seq. lia.
Qed.

(** *** The draws, in binary64

    With [Math.random()] a double [r] in [0, 1) and at most 2^53 cells,
    [Math.floor(r * (i + 1))] is an index [j] between 0 and [i]: the integer
    part of the rounded product, which is the integer part of the real
    product [r * (i + 1)] unless the rounding reaches the next integer, so
    that [j <= r * (i + 1) * (1 + 2^-53)] and [r * (i + 1) < j + 1]. *)

Lemma draw_float_spec (r : float) (i : nat) :
  in_unit_interval r → Z.of_nat (i + 1) ≤ 2 ^ 53 →
  ∃ j, as_index (draw r i) = Some j ∧ (j ≤ i)%nat
       ∧ (IZR (Z.of_nat j) * IZR (2 ^ 53) <= scaled_draw r i * (IZR (2 ^ 53) + 1))%R
       ∧ (scaled_draw r i < IZR (Z.of_nat j) + 1)%R.
Proof.
  intros [H0 H1] Hi. unfold draw, num_of_nat, scaled_draw.
  cbn [as_index Math_floor num_mul num_of_Z float_JsNum].
  set (m := Z.of_nat (i + 1)) in *. assert (Hm : 1 ≤ m ≤ 2 ^ 53) by lia.
  destruct (float_of_Z_spec m ltac:(lia)) as ((mm & em & Em) & Hnm & Rm).
  destruct (unit_interval r H0 H1) as (Hnr & Hr0 & Hr1).
  assert (Hmr : (1 <= IZR m)%R) by (apply IZR_le; lia).
  assert (Hm53 : (IZR m <= IZR (2 ^ 53))%R) by (apply IZR_le; lia).
  set (p := PrimFloat.mul r (float_of_Z m)).
  set (v := (float_real r * IZR m)%R).
  assert (Hp : nonneg (Prim2SF p) ∧ (float_real p < IZR m)%R
               ∧ (∀ z, 0 < z ≤ m → (IZR z <= v)%R → (IZR z <= float_real p)%R)
               ∧ ((1 <= float_real p)%R →
                  (float_real p * IZR (2 ^ 53) <= v * (IZR (2 ^ 53) + 1))%R)).
  { destruct (Prim2SF r) as [s|s| |[] mr er] eqn:Er; try done.
    - assert (Ep : Prim2SF p = S754_zero (xorb s false)).
      { unfold p. rewrite FloatAxioms.mul_spec, Er, Em. reflexivity. }
      assert (Ev : v = 0%R) by (unfold v, float_real; rewrite Er; cbn [SF2R]; ring).
      unfold float_real. rewrite Ep. cbn [nonneg SF2R]. split; [done|]. split; [lra|].
      split; [|intros; lra]. intros z Hz Hzv. assert (1 <= IZR z)%R by (apply IZR_le; lia). lra.
    - assert (Hr : rounds_to v (Prim2SF p)).
      { unfold v. rewrite <- Rm. apply (mul_rounds _ _ mr er mm em Er Em). right. by rewrite Rm. }
      destruct (valid_finite _ _ _ _ Em) as [Hcm Hem].
      assert (Rm' : (IZR (Z.pos mm) * pow2 em)%R = IZR m).
      { rewrite <- Rm. unfold float_real. rewrite Em. reflexivity. }
      assert (Hem' : -1074 < em).
      { destruct (decide (-1074 < em)) as [|Hn]; [done|].
        destruct (canonical_cases mm em Hcm) as (_ & [_ Hmm] & _).
        assert (H : (pow2 em <= pow2 (-53))%R) by (apply pow2_le; lia).
        assert (H' : (pow2 (-53) * IZR (2 ^ 53) = 1)%R).
        { rewrite <- (pow2_IZR 53), <- pow2_add by lia. reflexivity. }
        apply IZR_lt in Hmm. pose proof (pow2_pos em). pose proof (pow2_pos (-53)).
        assert (0 < IZR (Z.pos mm))%R by (apply IZR_lt; lia). nra. }
      destruct (rounds_to_strict v _ mm em Hr Hcm Hem' Hem) as [Hnp Hlt].
      { rewrite Rm'. unfold v. nra. }
      rewrite Rm' in Hlt. split; [done|]. split; [done|]. split.
      + intros z Hz Hzv.
        destruct (float_of_Z_spec z ltac:(lia)) as ((mz & ez & Ez) & Hnz & Rz).
        pose proof (rounds_to_above v _ _ mz ez Hr Ez Hnz) as Hge.
        change (SF2R (Prim2SF (float_of_Z z))) with (float_real (float_of_Z z)) in Hge.
        rewrite Rz in Hge. specialize (Hge Hzv).
        apply SFleb_real in Hge; [|done|done].
        change (SF2R (Prim2SF (float_of_Z z))) with (float_real (float_of_Z z)) in Hge.
        rewrite Rz in Hge. exact Hge.
      + intros H1p. by apply rounds_to_error. }
  destruct Hp as (Hnp & Hlt & Hge & Herr).
  destruct (float_floor_spec p Hnp ltac:(lra)) as (z & Hz & Hzp & Hnf & Rf).
  exists (Z.to_nat z). rewrite (float_index_spec _ z Hnf Rf). split; [done|].
  assert (Hzm : z < m) by (apply lt_IZR; lra).
  split; [lia|]. rewrite Z2Nat.id by lia.
  assert (Hv0 : (0 <= v)%R) by (unfold v; nra).
  split.
  - destruct (decide (z = 0)) as [->|Hz0].
    + assert (0 < IZR (2 ^ 53))%R by (apply IZR_lt; done). nra.
    + assert (H1z : (1 <= IZR z)%R) by (apply IZR_le; lia).
      specialize (Herr ltac:(lra)).
      assert (0 < IZR (2 ^ 53))%R by (apply IZR_lt; done). nra.
  - destruct (Rlt_le_dec v (IZR z + 1)) as [|Hle]; [done|].
    rewrite <- plus_IZR in Hle. specialize (Hge (z + 1) ltac:(lia) Hle).
    rewrite plus_IZR in Hge. lra.
Qed.

(** Every index between 0 and [i] is drawn for some value of
    [Math.random()]. *)
Lemma draw_float_onto (i j : nat) :
  (j ≤ i)%nat → Z.of_nat (i + 1) ≤ 2 ^ 51 →
  ∃ r, in_unit_interval r ∧ as_index (draw r i) = Some j.
Proof.
  intros Hj Hi. set (m := Z.of_nat (i + 1)) in *.
  set (N := (Z.of_nat j * 2 ^ 53 + m - 1) / m).
  assert (Hm : 1 ≤ m) by lia.
  assert (HN : m * N ≤ Z.of_nat j * 2 ^ 53 + m - 1 < m * (N + 1)).
  { unfold N. pose proof (Z.mul_div_le (Z.of_nat j * 2 ^ 53 + m - 1) m ltac:(lia)).
    pose proof (Z.mul_succ_div_gt (Z.of_nat j * 2 ^ 53 + m - 1) m ltac:(lia)). lia. }
  assert (HN0 : 0 ≤ N < 2 ^ 53) by nia.
  assert (Hr : ∃ r, nonneg (Prim2SF r) ∧ (float_real r * IZR (2 ^ 53))%R = IZR N).
  { destruct (decide (N = 0)) as [->|HNz].
    - exists (float_of_Z 0). unfold float_real. rewrite float_of_Z_0. cbn [nonneg SF2R].
      split; [done|ring].
    - assert (Hrd : rounds_to (IZR N * pow2 (-53)) (binary_normalize prec emax N (-53) false)).
      { destruct N as [|p|p]; try lia. cbn [binary_normalize]. apply binary_round_rounds.
        destruct (Zdigits2_bounds (Z.pos p)); lia. }
      assert (E1 : (pow2 (-53) * IZR (2 ^ 53) = 1)%R).
      { rewrite <- (pow2_IZR 53), <- pow2_add by lia. reflexivity. }
      destruct (rounds_to_exact _ _ N (-53) Hrd ltac:(lia) ltac:(lia) eq_refl) as (Hn & _ & Hv).
      { apply Rlt_trans with 1%R.
        - assert (IZR N < IZR (2 ^ 53))%R by (apply IZR_lt; lia).
          pose proof (pow2_pos (-53)). nra.
        - change 1%R with (pow2 0). apply pow2_lt. lia. }
      exists (SF2Prim (binary_normalize prec emax N (-53) false)).
      unfold float_real. rewrite FloatAxioms.Prim2SF_SF2Prim by (by apply nonneg_valid).
      split; [done|]. rewrite Hv, Rmult_assoc, E1. ring. }
  destruct Hr as (r & Hnr & Rr).
  assert (H53 : (0 < IZR (2 ^ 53))%R) by (apply IZR_lt; done).
  assert (Hunit : in_unit_interval r).
  { destruct (float_of_Z_nonneg 0 ltac:(lia)) as [Hz0 Rz0].
    destruct (float_of_Z_nonneg 1 ltac:(lia)) as [Hz1 Rz1].
    assert (0 <= IZR N < IZR (2 ^ 53))%R by (split; [apply IZR_le|apply IZR_lt]; lia).
    split; [apply leb_real|apply ltb_real]; try done; rewrite ?Rz0, ?Rz1; nra. }
  exists r. split; [done|].
  destruct (draw_float_spec r i Hunit ltac:(fold m; lia)) as (j' & Ej & Hj' & Ha & Hb).
  rewrite Ej. f_equal. unfold scaled_draw in Ha, Hb. fold m in Ha, Hb.
  assert (Hb' : N * m < (Z.of_nat j' + 1) * 2 ^ 53).
  { apply lt_IZR. rewrite !mult_IZR, plus_IZR, <- Rr. nra. }
  assert (Ha' : Z.of_nat j' * 2 ^ 53 * 2 ^ 53 ≤ N * m * (2 ^ 53 + 1)).
  { apply le_IZR. rewrite !mult_IZR, plus_IZR, <- Rr. nra. }
  change (2 ^ 53) with 9007199254740992 in *. change (2 ^ 51) with 2251799813685248 in *.
  set (W := N * m) in *. assert (HW : m * N = W) by (unfold W; lia). rewrite HW in HN.
  lia.
Qed.

(** The draw is [j] on the whole interval [j <= r * (i + 1)],
    [r * (i + 1) * (1 + 2^-53) < j + 1]: all of [j / (i + 1) <= r <
    (j + 1) / (i + 1)] but a part of relative size 2^-53 at its end. *)
Lemma draw_float_interval (r : float) (i j : nat) :
  in_unit_interval r → Z.of_nat (i + 1) ≤ 2 ^ 53 →
  (IZR (Z.of_nat j) <= scaled_draw r i)%R →
  (scaled_draw r i * (IZR (2 ^ 53) + 1) < (IZR (Z.of_nat j) + 1) * IZR (2 ^ 53))%R →
  as_index (draw r i) = Some j.
Proof.
  intros Hr Hi Hlo Hhi. destruct (draw_float_spec r i Hr Hi) as (j' & Ej & _ & Ha & Hb).
  rewrite Ej. f_equal.
  assert (H53 : (0 < IZR (2 ^ 53))%R) by (apply IZR_lt; done).
  assert (H1 : Z.of_nat j < Z.of_nat j' + 1).
  { apply lt_IZR. rewrite plus_IZR. lra. }
  assert (H2 : Z.of_nat j' < Z.of_nat j + 1).
  { apply lt_IZR. rewrite plus_IZR. apply Rmult_lt_reg_r with (IZR (2 ^ 53)); [done|]. lra. }
  lia.
Qed.

Lemma float_draws_in_range (random : nat → float) (k n : nat) :
  Z.of_nat n ≤ 2 ^ 53 → (∀ c, in_unit_interval (random c)) → draws_in_range random k n.
Proof.
  intros Hn Hr i Hi. unfold pick.
  destruct (draw_float_spec (random (k + (n - 1 - i))%nat) i (Hr _) ltac:(lia))
    as (j & Ej & Hj & _).
  by exists j.
Qed.

(** C9: the shuffle of [initRevealDots] is Fisher-Yates.  In binary64, on
    a list without duplicates of at most 2^32 cells and with every value of
    [Math.random()] in [0, 1): with [js i] the index drawn at position [i],
    the shuffle exchanges position [i] with position [js i], for [i] from
    the last position down to 1; [js i] lies in [0, i] and is the integer
    part of [Math.random() * (i + 1)] up to the rounding of the product
    ([js i <= r * (i + 1) * (1 + 2^-53)] and [r * (i + 1) < js i + 1]).
    The draw at position [i] is [j] for every [r] with [j <= r * (i + 1)]
    and [r * (i + 1) * (1 + 2^-53) < j + 1], an interval of [r] whose
    length is [1 / (i + 1)] up to the factor [1 + 2^-53], and every index
    of [0, i] is drawn for some value of [Math.random()].  Distinct
    sequences of choices give distinct arrangements and every permutation
    of the list is the outcome of one sequence of choices: of the [n!]
    sequences of choices for [n] cells exactly one produces any given
    permutation, so choices that are uniform on each [0, i] make every
    permutation equally likely, with probability [1 / n!]. *)
Theorem shuffle_is_fisher_yates (random : nat → float) (k : nat) (ds : list cell) :
  NoDup ds → Z.of_nat (length ds) ≤ 2 ^ 32 →
  (∀ i, (1 ≤ i < length ds)%nat → in_unit_interval (random (k + (length ds - 1 - i))%nat)) →
  let n := length ds in
  (∃ js, choices_in_range js n
     ∧ shuffle random k ds = fisher_yates js ds
     ∧ ∀ i, (1 ≤ i < n)%nat →
         let v := scaled_draw (random (k + (n - 1 - i))%nat) i in
         pick random k n i = Some (js i)
         ∧ (IZR (Z.of_nat (js i)) * IZR (2 ^ 53) <= v * (IZR (2 ^ 53) + 1))%R
         ∧ (v < IZR (Z.of_nat (js i)) + 1)%R)
  ∧ (∀ (r : float) i j, (j ≤ i < n)%nat → in_unit_interval r →
       (IZR (Z.of_nat j) <= scaled_draw r i)%R →
       (scaled_draw r i * (IZR (2 ^ 53) + 1) < (IZR (Z.of_nat j) + 1) * IZR (2 ^ 53))%R →
       as_index (draw r i) = Some j)
  ∧ (∀ i j, (j ≤ i < n)%nat →
       ∃ r, in_unit_interval r ∧ as_index (draw r i) = Some j)
  ∧ (∀ js js', choices_in_range js n → choices_in_range js' n →
         fisher_yates js ds = fisher_yates js' ds →
         ∀ i, (1 ≤ i < n)%nat → js i = js' i)
  ∧ (∀ ds', ds' ≡ₚ ds → ∃ js, choices_in_range js n ∧ fisher_yates js ds = ds')
  ∧ length (choice_lists (n - 1)) = fact n
  ∧ (∀ ds', ds' ≡ₚ ds →
       length (filter (λ l, fisher_yates (choices_of l) ds = ds')
                      (choice_lists (n - 1))) = 1%nat).
Proof.
  intros Hnd Hlen Hrand n. fold n in Hlen, Hrand.
  assert (H32 : 2 ^ 32 ≤ 2 ^ 51) by (apply Z.pow_le_mono_r; lia).
  assert (H51 : 2 ^ 51 ≤ 2 ^ 53) by (apply Z.pow_le_mono_r; lia).
  split; [|split; [|split; [|split; [|split; [|split]]]]];
    [| | | | |exact (proj1 (fisher_yates_one_in_factorial ds ds Hnd (reflexivity ds)))
           |intros ds' Hp; exact (proj2 (fisher_yates_one_in_factorial ds ds' Hnd Hp))].
  - set (js := λ i, default 0%nat (pick random k n i)).
    assert (Hjs : ∀ i, (1 ≤ i < n)%nat →
              pick random k n i = Some (js i) ∧ (js i ≤ i)%nat
              ∧ (IZR (Z.of_nat (js i)) * IZR (2 ^ 53)
                 <= scaled_draw (random (k + (n - 1 - i))%nat) i * (IZR (2 ^ 53) + 1))%R
              ∧ (scaled_draw (random (k + (n - 1 - i))%nat) i < IZR (Z.of_nat (js i)) + 1)%R).
    { intros i Hi.
      destruct (draw_float_spec (random (k + (n - 1 - i))%nat) i (Hrand i Hi) ltac:(lia))
        as (j & Ej & Hj & Ha & Hb).
      unfold js, pick. rewrite Ej. cbn [default]. done. }
    exists js. split; [|split].
    + intros i Hi. by destruct (Hjs i Hi) as (_ & ? & _).
    + apply shuffle_fisher_yates. intros i Hi. by destruct (Hjs i Hi) as (? & _).
    + intros i Hi v. destruct (Hjs i Hi) as (? & _ & ? & ?). done.
  - intros r i j Hij Hr. apply draw_float_interval; [done|lia].
  - intros i j Hij. apply draw_float_onto; lia.
  - intros js js' Hjs Hjs' Heq i Hi. unfold fisher_yates in Heq. fold n in Heq.
    apply (fisher_yates_from_inj js js' (n - 1) ds); auto with lia.
  - intros ds' Hp. destruct (decide (n = 0%nat)) as [Hn|Hn].
    + exists (λ _, 0%nat). split; [intros i; lia|].
      apply nil_length_inv in Hn. subst ds. now apply Permutation_nil_r in Hp.
    + destruct (fisher_yates_from_surj (n - 1) ds ds' Hnd) as (js & Hjs & Hfy);
        [lia | done | |].
      * intros p Hip. rewrite !lookup_ge_None_2; [done|fold n; lia|].
        apply Permutation_length in Hp. rewrite Hp. fold n. lia.
      * exists (λ i, if decide (i < n)%nat then js i else 0%nat). split.
        -- intros i Hi. rewrite decide_True by lia. apply Hjs. lia.
        -- rewrite <- Hfy. unfold fisher_yates. fold n. apply fisher_yates_from_ext.
           intros i' Hi'. rewrite decide_True by lia. done.
Qed.

(** ** Paint *)

Lemma covered_snoc ops op c : covered (ops ++ [op]) c = paint (covered ops c) op c.
Proof. unfold covered. now rewrite fold_left_app. Qed.

Lemma in_rect_unit (c d : cell) : in_rect d.1 d.2 1 1 c = bool_decide (c = d).
Proof.
  unfold in_rect. destruct c as [x y], d as [x' y']. cbn.
  destruct (decide (x = x')) as [->|Hx], (decide (y = y')) as [->|Hy].
  - now rewrite !bool_decide_true by (done || lia).
  - rewrite (bool_decide_false (_ ≤ y < _)%nat) by lia.
    rewrite (bool_decide_false (_ = _)) by congruence. apply andb_false_r.
  - rewrite (bool_decide_false (_ ≤ x < _)%nat) by lia.
    now rewrite (bool_decide_false (_ = _)) by congruence.
  - rewrite (bool_decide_false (_ ≤ x < _)%nat) by lia.
    now rewrite (bool_decide_false (_ = _)) by congruence.
Qed.

Lemma covered_clear_ops ops ds c :
  covered (ops ++ clear_ops ds) c = if bool_decide (c ∈ ds) then false else covered ops c.
Proof.
  induction ds as [|d ds IH] using rev_ind.
  - cbn. rewrite app_nil_r. case_bool_decide as H; [|done]. now apply elem_of_nil in H.
  - unfold clear_ops in *. rewrite fmap_app, app_assoc.
    change ((λ c0 : cell, ClearRect c0.1 c0.2 1 1) <$> [d]) with [ClearRect d.1 d.2 1 1].
    rewrite covered_snoc, IH. cbn. rewrite in_rect_unit.
    repeat case_bool_decide; try done;
      rewrite elem_of_app, list_elem_of_singleton in *; tauto.
Qed.

Lemma repaint_covered cv : fully_covered (repaint cv).
Proof.
  intros x y Hx Hy. unfold repaint in *. cbn [drawn width height] in *.
  rewrite covered_snoc. cbn [paint]. unfold in_rect. cbn [fst snd].
  now rewrite !bool_decide_true by lia.
Qed.

(** ** A whole session, from the initializer to the last frame *)

Section Session.
Context {num : Type} `{!JsNum num}.
Implicit Types (s : page num).

Lemma empty_session s cv t k :
  canvasRef s = Some cv → scheduled s = [] → dotsRef s = [] →
  let sk := frames (S k) (startRevealAnimation t s) in
  scheduled sk = []
  ∧ canvasRef sk = Some (Canvas (width cv) (height cv) (drawn cv ++ [])).
Proof.
  intros Hcv Hsch Hds. induction k as [|k [IH1 IH2]]; cbn zeta.
  - change (frames 1 ?x) with (animation_frame x).
    assert (Hs0 : scheduled (startRevealAnimation t s) =
                  [(next_request_id s, Closure [] 0 (frame_budget 0) t)]).
    { unfold startRevealAnimation. rewrite Hcv. cbn. now rewrite Hsch, Hds. }
    rewrite (animation_frame_one _ _ _ Hs0).
    unfold reveal. rewrite bool_decide_false by (cbn; lia).
    unfold clear_cells, startRevealAnimation. rewrite Hcv. cbn. now rewrite Hcv.
  - change (frames (S (S k)) ?x) with (animation_frame (frames (S k) x)).
    now rewrite (animation_frame_idle _ IH1).
Qed.

(** When nothing is scheduled any more, the session has cleared the whole
    permutation, in order. *)
Lemma session_cleared s cv t k :
  canvasRef s = Some cv → scheduled s = [] →
  scheduled (frames k (startRevealAnimation t s)) = [] →
  canvasRef (frames k (startRevealAnimation t s)) =
    Some (Canvas (width cv) (height cv) (drawn cv ++ clear_ops (dotsRef s))).
Proof.
  intros Hcv Hsch Hk. destruct (dotsRef s) as [|d ds] eqn:Hds.
  - destruct k as [|k].
    + exfalso. revert Hk. unfold frames, startRevealAnimation. cbn. rewrite Hcv. cbn.
      rewrite Hsch. discriminate.
    + now destruct (empty_session s cv t k Hcv Hsch Hds) as [_ ->].
  - assert (Hne : dotsRef s ≠ []) by (rewrite Hds; discriminate).
    destruct (session_frames s cv t k Hcv Hsch Hne) as [Hat _].
    pose proof (at_cursor_scheduled _ _ _ _ _ _ _ Hat) as Hiff.
    destruct Hat as [-> _]. rewrite <- Hds.
    assert (Hc : cursor (length (dotsRef s)) k = length (dotsRef s)).
    { pose proof (cursor_le (length (dotsRef s)) k).
      destruct (decide (cursor (length (dotsRef s)) k < length (dotsRef s))%nat) as [Hlt|]; [|lia].
      apply Hiff in Hlt. contradiction. }
    now rewrite Hc, firstn_all.
Qed.

Lemma session_ends s cv t :
  canvasRef s = Some cv → scheduled s = [] →
  let n := length (dotsRef s) in
  scheduled (frames (Nat.max 1 (ceil_div n (frame_budget n))) (startRevealAnimation t s)) = [].
Proof.
  intros Hcv Hsch n. destruct (dotsRef s) as [|d ds] eqn:Hds.
  - subst n. cbn [length]. replace (ceil_div 0 (frame_budget 0)) with 0%nat by reflexivity.
    cbn [Nat.max]. now destruct (empty_session s cv t 0 Hcv Hsch Hds).
  - assert (Hne : dotsRef s ≠ []) by (rewrite Hds; discriminate).
    assert (Hn : (0 < n)%nat) by (subst n; cbn; lia).
    assert (HK : (1 ≤ ceil_div n (frame_budget n))%nat).
    { destruct (decide (1 ≤ ceil_div n (frame_budget n))%nat) as [|H]; [done|].
      assert (ceil_div n (frame_budget n) ≤ 0)%nat as H0 by lia.
      apply ceil_div_le in H0; [lia|]. pose proof (frame_budget_pos n). lia. }
    rewrite Nat.max_r by done.
    destruct (session_frames s cv t (ceil_div n (frame_budget n)) Hcv Hsch Hne) as [Hat _].
    rewrite Hds in Hat. fold n in Hat.
    destruct Hat as [_ Hat]. rewrite bool_decide_false in Hat; [tauto|].
    subst n. rewrite <- Hds.
    assert (cursor (length (dotsRef s)) (ceil_div (length (dotsRef s)) (frame_budget (length (dotsRef s))))
            = length (dotsRef s)) as -> by now apply cursor_done.
    lia.
Qed.

End Session.

(** C1: for a canvas of width [w] and height [h], when the draws of the
    shuffle are indices in range, [initRevealDots] generates the [w * h]
    cells row-major, each pair [(x, y)] with [x < w] and [y < h] exactly
    once, stores a permutation of them as the reveal order and paints the
    whole canvas; the session that follows runs to an end, and once nothing
    is scheduled the cells it has cleared are exactly the reveal order, in
    order: each cell once, none missing, every pixel uncovered. *)
Theorem reveal_order_is_permutation {num : Type} `{!JsNum num}
    (random : nat → num) (s : page num) (cv : canvas) (t : Z) :
  canvasRef s = Some cv → scheduled s = [] →
  draws_in_range random (random_calls s) (width cv * height cv) →
  let w := width cv in
  let h := height cv in
  let s1 := initRevealDots random s in
  let ds := dotsRef s1 in
  let s0 := startRevealAnimation t s1 in
  length (grid w h) = (w * h)%nat
  ∧ (∀ x y, (x, y) ∈ grid w h ↔ (x < w)%nat ∧ (y < h)%nat)
  ∧ NoDup (grid w h)
  ∧ (∀ x y, (x < w)%nat → (y < h)%nat → grid w h !! (y * w + x)%nat = Some (x, y))
  ∧ ds = shuffle random (random_calls s) (grid w h)
  ∧ ds ≡ₚ grid w h ∧ NoDup ds ∧ length ds = (w * h)%nat
  ∧ (∃ cv1, canvasRef s1 = Some cv1 ∧ fully_covered cv1)
  ∧ (∃ k, scheduled (frames k s0) = [])
  ∧ (∀ k, scheduled (frames k s0) = [] →
       ∃ cvk, canvasRef (frames k s0) = Some cvk
              ∧ cleared (drawn cvk) = cleared (drawn cv) ++ ds
              ∧ ∀ x y, (x < w)%nat → (y < h)%nat → covered (drawn cvk) (x, y) = false).
Proof.
  intros Hcv Hsch _ w h s1 ds s0.
  assert (Hds : ds = shuffle random (random_calls s) (grid w h)).
  { unfold ds, s1, initRevealDots. now rewrite Hcv. }
  assert (Hperm : ds ≡ₚ grid w h) by (rewrite Hds; apply shuffle_perm).
  assert (Hcv1 : canvasRef s1 = Some (repaint cv)).
  { unfold s1, initRevealDots. now rewrite Hcv. }
  assert (Hsch1 : scheduled s1 = []).
  { unfold s1, initRevealDots. now rewrite Hcv. }
  split; [apply grid_length|]. split; [apply elem_of_grid|]. split; [apply grid_NoDup|].
  split; [apply grid_row_major|]. split; [done|]. split; [done|].
  split; [rewrite Hperm; apply grid_NoDup|].
  split; [rewrite Hperm; apply grid_length|].
  split; [eauto using repaint_covered|].
  split; [eexists; exact (session_ends s1 (repaint cv) t Hcv1 Hsch1)|].
  intros k Hk. eexists. split; [exact (session_cleared s1 (repaint cv) t k Hcv1 Hsch1 Hk)|].
  cbn [drawn]. split.
  - unfold repaint. cbn [drawn]. unfold cleared. rewrite !omap_app.
    change (omap _ [FillRect _ _ _ _ _]) with (@nil cell). rewrite app_nil_r. f_equal.
    apply cleared_clear_ops.
  - intros x y Hx Hy. rewrite covered_clear_ops, bool_decide_true; [done|].
    fold ds. rewrite Hperm. now apply elem_of_grid.
Qed.

(** ** The session controller *)

Section Controller.
Context {num : Type} `{!JsNum num}.
Variable random : nat → num.
Implicit Types (s : page num).

(** With nothing scheduled and no image awaited, frames and image loads
    find nothing to run. *)
Lemma idle_quiet s (es : list event) :
  scheduled s = [] → loading s = [] →
  Forall (λ ev, ev = AnimationFrame ∨ ev = ImageLoaded) es →
  run random s es = s.
Proof.
  intros Hsch Hld Hes. induction Hes as [|ev es [->| ->] _ IH]; [done| |].
  - unfold run in *. cbn [fold_left step]. now rewrite animation_frame_idle.
  - unfold run in *. cbn [fold_left step]. now rewrite Hld.
Qed.

(** A request on a page at rest: the canvas is painted over, a fresh reveal
    order is stored, the outputs are reset and the request is in flight. *)
Lemma generate_at_rest s cv :
  canvasRef s = Some cv → (2 ≤ length (selectedPaletteColors s))%nat →
  palettePreview s = None → isPaletteGenerating s = false → isPaletteRevealing s = false →
  scheduled s = [] → loading s = [] → fetching s = [] →
  ∃ a ds' k, step random s ClickGenerate =
            Page (selectedPaletteColors s) true false None (num_of_Z 0) None None
                 (num_of_Z 0) (rencontresMode s) (Some (repaint cv)) a ds' []
                 (next_request_id s) []
                 [Request (match rencontresMode s with
                           | nuages => "/api/generate-palette"
                           | brumes => "/api/generate-palette-crop"
                           end) (selectedPaletteColors s)] k.
Proof.
  intros Hcv Hsel Hpre Hgen Hrev Hsch Hld Hft.
  destruct s as [sel gen rev pre cnt res err prg md cvr ar dr sch nid ld ft rc].
  cbn in Hcv, Hsch, Hld, Hft, Hrev, Hpre, Hgen, Hsel. subst.
  unfold step. cbn [palettePreview isPaletteGenerating isPaletteRevealing selectedPaletteColors].
  rewrite bool_decide_true by done. rewrite (bool_decide_false (_ < 2)%nat) by lia.
  cbn [negb orb andb]. unfold handleGeneratePalette.
  cbn [selectedPaletteColors].
  rewrite (bool_decide_false (_ < 2)%nat) by lia.
  destruct ar as [id|].
  - cbn [animationRef]. case_bool_decide; do 3 eexists; lazy; reflexivity.
  - do 3 eexists. lazy. reflexivity.
Qed.

(** C8: when the body of the generation response carries an [error] field,
    the handler stores that string unchanged as the error to display, and
    touches neither the canvas, nor the scheduled callbacks, nor the images
    awaited; on a page at rest (a canvas, two colours or more, no preview,
    nothing generating, revealing, scheduled or loading) the request has
    painted the canvas over, so after the error response the canvas is
    fully covered, no cell has been cleared, no session is active, and no
    later frame or image load changes anything: the session never starts. *)
Theorem error_response_starts_nothing (s : page num) (cv : canvas)
    (e : string) (data : response) (now : nat) :
  r_error data = Some e →
  canvasRef s = Some cv → (2 ≤ length (selectedPaletteColors s))%nat →
  palettePreview s = None → isPaletteGenerating s = false → isPaletteRevealing s = false →
  scheduled s = [] → loading s = [] → fetching s = [] →
  let s1 := step random s ClickGenerate in
  let s2 := step random s1 (FetchResolved data now) in
  (∀ s' req rest, fetching s' = req :: rest →
     let s'' := step random s' (FetchResolved data now) in
     paletteError s'' = Some e ∧ isPaletteGenerating s'' = false
     ∧ canvasRef s'' = canvasRef s' ∧ scheduled s'' = scheduled s'
     ∧ loading s'' = loading s' ∧ isPaletteRevealing s'' = isPaletteRevealing s'
     ∧ dotsRef s'' = dotsRef s')
  ∧ paletteError s2 = Some e ∧ isPaletteGenerating s2 = false
  ∧ isPaletteRevealing s2 = false ∧ palettePreview s2 = None
  ∧ (∃ cv2, canvasRef s2 = Some cv2 ∧ fully_covered cv2
            ∧ cleared (drawn cv2) = cleared (drawn cv))
  ∧ scheduled s2 = [] ∧ loading s2 = []
  ∧ (∀ es, Forall (λ ev, ev = AnimationFrame ∨ ev = ImageLoaded) es →
           run random s2 es = s2).
Proof.
  intros He Hcv Hsel Hpre Hgen Hrev Hsch Hld Hft s1 s2.
  assert (Hstep : ∀ s' req rest, fetching s' = req :: rest →
            step random s' (FetchResolved data now) =
            setIsPaletteGenerating false (setPaletteError (Some e) (set_fetching rest s'))).
  { intros s' req rest Hf. cbn [step]. rewrite Hf. unfold handleResponse. now rewrite He. }
  split.
  { intros s' req rest Hf s''. subst s''. rewrite (Hstep _ _ _ Hf). cbn. done. }
  assert (Hs1 : ∃ a ds' k, s1 =
            Page (selectedPaletteColors s) true false None (num_of_Z 0) None None
                 (num_of_Z 0) (rencontresMode s) (Some (repaint cv)) a ds' []
                 (next_request_id s) []
                 [Request (match rencontresMode s with
                           | nuages => "/api/generate-palette"
                           | brumes => "/api/generate-palette-crop"
                           end) (selectedPaletteColors s)] k)
    by now apply generate_at_rest.
  destruct Hs1 as (a & ds' & k & Hs1).
  assert (Hs2 : s2 = setIsPaletteGenerating false (setPaletteError (Some e) (set_fetching [] s1))).
  { subst s2. eapply Hstep. rewrite Hs1. reflexivity. }
  clearbody s2 s1. subst s2 s1. cbn. do 4 (split; [reflexivity|]).
  split; [|split; [reflexivity|split; [reflexivity|]]].
  - exists (repaint cv). split; [reflexivity|]. split; [apply repaint_covered|].
    unfold repaint, cleared. cbn [drawn]. rewrite omap_app.
    change (omap _ [FillRect _ _ _ _ _]) with (@nil cell). now rewrite app_nil_r.
  - intros es Hes. now apply idle_quiet.
Qed.

(** C7, amended: the count handed to the revealer, which is also the count
    displayed until the first frame, is [total_available] when that field is
    present and not zero (positive or negative), and [count] otherwise: a
    response with [count = 500] and no [total_available] gives 500, and one
    with [total_available = 0] gives [count]. *)
Theorem target_total_fallback (s : page num) (cv : canvas) (data : response)
    (now : nat) (req : request) (rest : list request) :
  r_error data = None → canvasRef s = Some cv →
  fetching s = req :: rest → loading s = [] →
  let t := displayCount data in
  let s1 := step random s (FetchResolved data now) in
  let s2 := step random s1 ImageLoaded in
  paletteCount s1 = num_of_Z t ∧ loading s1 = [t]
  ∧ scheduled s2 =
      scheduled s ++ [(next_request_id s,
                       Closure (dotsRef s) 0 (frame_budget (length (dotsRef s))) t)]
  ∧ (∀ a, r_total_available data = Some a → a ≠ 0 → t = a)
  ∧ (r_total_available data = Some 0 → t = r_count data)
  ∧ (r_total_available data = None → t = r_count data)
  ∧ (r_total_available data = None → r_count data = 500 → t = 500).
Proof.
  intros He Hcv Hft Hld t s1 s2.
  assert (Hs1 : s1 = set_loading [t]
            (setIsPaletteGenerating false (setPaletteResult (Some data)
              (setPaletteCount (num_of_Z t)
                (setPalettePreview (Some (r_preview data, now)) (set_fetching rest s)))))).
  { subst s1. cbn [step]. rewrite Hft. unfold handleResponse. rewrite He. cbn. now rewrite Hld. }
  clearbody s1. subst s1.
  split; [reflexivity|]. split; [reflexivity|]. split.
  { subst s2. cbn [step]. cbn [loading set_loading]. unfold startRevealAnimation.
    cbn. rewrite Hcv. reflexivity. }
  clear s2. subst t. unfold displayCount.
  split; [|split; [|split]].
  - intros a -> Ha. now rewrite bool_decide_true.
  - intros ->. now rewrite bool_decide_false by lia.
  - now intros ->.
  - now intros -> ->.
Qed.

(** X18: what the three triggers do.  A new generation request cancels the
    callback recorded in [animationRef] (so that, when that was the only one
    scheduled, no frame runs any more), zeroes the displayed count and the
    progress, drops the preview and the result, paints the whole canvas over
    and stores a fresh reveal order; a click on a colour is ignored while
    generating or revealing, and otherwise cancels nothing and, when a
    preview is shown, zeroes count and progress, drops preview and result
    and paints the canvas over; a mode toggle that changes the mode drops
    preview and result and zeroes count and progress. *)
Theorem cancel_triggers (s : page num) :
  (∀ cv, canvasRef s = Some cv → (2 ≤ length (selectedPaletteColors s))%nat →
     let s' := handleGeneratePalette random s in
     scheduled s' =
       match animationRef s with
       | Some id => if bool_decide (id ≠ 0%nat)
                    then filter (λ e, e.1 ≠ id) (scheduled s) else scheduled s
       | None => scheduled s
       end
     ∧ (∀ id cl, animationRef s = Some id → id ≠ 0%nat → scheduled s = [(id, cl)] →
          scheduled s' = [] ∧ ∀ k, frames k s' = s')
     ∧ paletteCount s' = num_of_Z 0 ∧ revealProgress s' = num_of_Z 0
     ∧ palettePreview s' = None ∧ paletteResult s' = None
     ∧ canvasRef s' = Some (repaint cv) ∧ fully_covered (repaint cv)
     ∧ dotsRef s' = shuffle random (random_calls s) (grid (width cv) (height cv)))
  ∧ (∀ c, (isPaletteGenerating s || isPaletteRevealing s = true →
             step random s (ClickColor c) = s)
          ∧ (isPaletteGenerating s || isPaletteRevealing s = false →
             let s' := step random s (ClickColor c) in
             scheduled s' = scheduled s
             ∧ ∀ p, palettePreview s = Some p →
                 paletteCount s' = num_of_Z 0 ∧ revealProgress s' = num_of_Z 0
                 ∧ palettePreview s' = None ∧ paletteResult s' = None
                 ∧ ∀ cv, canvasRef s = Some cv →
                     canvasRef s' = Some (repaint cv) ∧ fully_covered (repaint cv)))
  ∧ (∀ m, m ≠ rencontresMode s →
       let s' := step random s (ClickMode m) in
       rencontresMode s' = m
       ∧ paletteCount s' = num_of_Z 0 ∧ revealProgress s' = num_of_Z 0
       ∧ palettePreview s' = None ∧ paletteResult s' = None).
Proof.
  destruct s as [sel gen rev pre cnt res err prg md cvr ar dr sch nid ld ft rc].
  split; [|split].
  - cbn [canvasRef selectedPaletteColors animationRef scheduled random_calls].
    intros cv -> Hsel. set (s' := handleGeneratePalette random _).
    assert (Hsch : scheduled s' =
              match ar with
              | Some id => if bool_decide (id ≠ 0%nat)
                           then filter (λ e, e.1 ≠ id) sch else sch
              | None => sch
              end).
    { subst s'. unfold handleGeneratePalette. cbn [selectedPaletteColors].
      rewrite (bool_decide_false (_ < 2)%nat) by lia.
      destruct ar as [id|]; [cbn [animationRef]; case_bool_decide|]; lazy; reflexivity. }
    split; [exact Hsch|]. split.
    { intros id cl -> Hid ->. rewrite bool_decide_true in Hsch by done.
      assert (Hnil : scheduled s' = []).
      { rewrite Hsch. cbn. now rewrite decide_False by (cbn; tauto). }
      split; [exact Hnil|]. clearbody s'. clear Hsch.
      induction k as [|k IH]; [done|].
      change (frames (S k) s') with (animation_frame (frames k s')).
      rewrite IH. now apply animation_frame_idle. }
    subst s'. unfold handleGeneratePalette. cbn [selectedPaletteColors].
    rewrite (bool_decide_false (_ < 2)%nat) by lia.
    repeat (split; [destruct ar as [id|]; [cbn [animationRef]; case_bool_decide|];
                    lazy; reflexivity|]).
    split; [apply repaint_covered|].
    destruct ar as [id|]; [cbn [animationRef]; case_bool_decide|]; reflexivity.
  - intros c. cbn [step isPaletteGenerating isPaletteRevealing]. split.
    + now intros ->.
    + intros ->. unfold togglePaletteColor. cbn [palettePreview scheduled canvasRef].
      split.
      * destruct pre; [destruct cvr|]; reflexivity.
      * intros p ->. do 4 (split; [destruct cvr; reflexivity|]).
        intros cv ->. split; [reflexivity | apply repaint_covered].
  - cbn [rencontresMode]. intros m Hm. cbn [step]. unfold toggleMode.
    cbn [rencontresMode]. rewrite bool_decide_true by done. repeat split.
Qed.

End Controller.

(** The mode toggle leaves the scheduled callbacks and the canvas alone, so
    a session in progress goes on: whatever the canvas size, the next frame
    clears the next batch. *)
Lemma toggleMode_keeps {num : Type} `{!JsNum num} (s : page num) (m : mode) :
  scheduled (toggleMode m s) = scheduled s ∧ canvasRef (toggleMode m s) = canvasRef s.
Proof. unfold toggleMode. case_bool_decide; split; reflexivity. Qed.

Lemma toggleMode_mid_session {num : Type} `{!JsNum num} (s : page num) (m : mode)
    (ds : list cell) (t : Z) (w h : nat) (d0 : list draw_op) (c : nat) :
  at_cursor ds t w h d0 c s → (c < length ds)%nat →
  at_cursor ds t w h d0 (Nat.min (c + frame_budget (length ds)) (length ds))
            (animation_frame (toggleMode m s)).
Proof.
  intros [Hcv Hrun] Hc. apply frame_at_cursor; [|done].
  destruct (toggleMode_keeps s m) as [Hs Hc'].
  split; [now rewrite Hc'|]. rewrite bool_decide_true in Hrun |- * by done.
  rewrite Hs. split; [|tauto]. destruct Hrun as [Hact _].
  unfold toggleMode. case_bool_decide; exact Hact.
Qed.

(** ** Concrete runs in binary64 *)

(** C7, as stated, fails on a negative [total_available]: the code passes
    it on, the stated rule falls back to [count]. *)
Lemma negative_total_counterexample :
  let data := Response None 500 (Some (-1)) "/generated/palette_preview.png" None in
  displayCount data = -1
  ∧ targetTotal_when_positive data = 500
  ∧ displayCount data ≠ targetTotal_when_positive data.
Proof. cbn. repeat split; discriminate. Qed.

(** C5 fails on a mode toggle in the middle of a reveal.  The handler of
    the mode buttons resets the preview, the result, the count and the
    progress, but it neither cancels the scheduled callback nor paints the
    canvas over, which [handleGeneratePalette] and [togglePaletteColor] do:
    the callback stays scheduled, the canvas keeps its cleared cells, and
    the next frame clears the remaining cell and publishes count and
    progress again. *)
Lemma mode_toggle_counterexample :
  let s := mid_reveal in
  let s' := step lcg s (ClickMode brumes) in
  let s'' := step lcg s' AnimationFrame in
  isPaletteRevealing s = true ∧ length (scheduled s) = 1%nat
  ∧ length (cleared_cells s) = 2000%nat
  ∧ scheduled s' = scheduled s
  ∧ canvasRef s' = canvasRef s
  ∧ (∃ cv, canvasRef s' = Some cv ∧ covered (drawn cv) (0, 0)%nat = false)
  ∧ paletteCount s' = 0%float ∧ revealProgress s' = 0%float
  ∧ length (cleared_cells s'') = 2001%nat
  ∧ paletteCount s'' = 1185512%float ∧ revealProgress s'' = 1%float.
Proof.
  cbv zeta. destruct (toggleMode_keeps mid_reveal brumes) as [Hsch Hcv].
  split; [vm_compute; reflexivity|]. split; [vm_compute; reflexivity|].
  split; [vm_compute; reflexivity|]. split; [exact Hsch|]. split; [exact Hcv|].
  split; [eexists; split; [vm_compute; reflexivity | vm_compute; reflexivity]|].
  split; [vm_compute; reflexivity|]. split; [vm_compute; reflexivity|].
  split; [vm_compute; reflexivity|]. split; vm_compute; reflexivity.
Qed.

(** A colour change while the preview image is still loading repaints the
    canvas, but the reveal starts all the same once the image has loaded. *)
Lemma colour_change_then_reveal :
  let s := step lcg awaiting_page (FetchResolved sample_response 0) in
  let s' := step lcg s (ClickColor vert) in
  let s'' := run lcg s' [ImageLoaded; AnimationFrame] in
  palettePreview s' = None ∧ loading s' = [1185512]
  ∧ cleared_cells s' = [] ∧ length (cleared_cells s'') = 6%nat.
Proof. vm_compute. repeat split; reflexivity. Qed.

(** C4, as stated, fails on an empty permutation: [ceil(0 / B)] is 0, but
    the loop is still scheduled after 0 frames and ends after one. *)
Lemma empty_frame_count_counterexample :
  let s0 := startRevealAnimation 500 fresh_page in
  length (dotsRef fresh_page) = 0%nat
  ∧ ceil_div 0 (frame_budget 0) = 0%nat
  ∧ ¬ completes_after (ceil_div 0 (frame_budget 0)) s0
  ∧ completes_after 1 s0.
Proof.
  cbv zeta. split; [reflexivity|]. split; [reflexivity|]. split.
  - intros [H _]. revert H. vm_compute. discriminate.
  - split; [vm_compute; reflexivity|]. intros j Hj.
    assert (j = 0%nat) as -> by lia. vm_compute. discriminate.
Qed.

(** C6, as stated, fails on the count shown when a session starts, on a
    negative total and on an empty permutation.  On a canvas of 2001 cells
    and the response of the specification's scenario, the session starts
    with 1,185,512 on screen, the total set when the response arrived, and
    its first frame lowers the count to 1,184,919.  With a total of -1000
    on 4001 cells the frames publish -500 and then -1000, negative and
    decreasing.  On the page as first rendered the frame publishes a
    progress that is not a number. *)
Lemma displayed_count_counterexample :
  let s0 := run lcg wide_page [FetchResolved sample_response 0; ImageLoaded] in
  let s1 := frames 1 s0 in
  let u0 := run lcg (initial_page (Some (Canvas 4001 1 [])))
              [ClickColor bleu; ClickColor rouge; ClickGenerate;
               FetchResolved negative_response 0; ImageLoaded] in
  let e1 := frames 1 (startRevealAnimation 500 fresh_page) in
  (isPaletteRevealing s0 = true ∧ paletteCount s0 = 1185512%float)
  ∧ (isPaletteRevealing s1 = true ∧ paletteCount s1 = 1184919%float)
  ∧ PrimFloat.leb (paletteCount s0) (paletteCount s1) = false
  ∧ paletteCount (frames 1 u0) = (-500)%float
  ∧ paletteCount (frames 2 u0) = (-1000)%float
  ∧ PrimFloat.leb (paletteCount (frames 1 u0)) (paletteCount (frames 2 u0)) = false
  ∧ PrimFloat.leb (float_of_Z 0) (paletteCount (frames 1 u0)) = false
  ∧ PrimFloat.leb (float_of_Z 0) (revealProgress e1) = false
  ∧ PrimFloat.leb (revealProgress e1) (float_of_Z 1) = false.
Proof.
  vm_compute. split; [split; reflexivity|]. split; [split; reflexivity|].
  split; [reflexivity|]. split; [reflexivity|]. split; [reflexivity|].
  split; [reflexivity|]. split; [reflexivity|]. split; reflexivity.
Qed.

(** ** Instances on concrete pages

    Each theorem above that has hypotheses is applied here to a concrete
    page on which the hypotheses are checked by computation. *)

Lemma lcg_draws_in_range : draws_in_range lcg 0 6.
Proof.
  intros i Hi.
  destruct i as [|[|[|[|[|[|i]]]]]]; try lia;
    (eexists; split; [vm_compute; reflexivity | lia]).
Defined.

Lemma reveal_order_is_permutation_witness :
  draws_in_range lcg 0 6
  ∧ dotsRef (initRevealDots lcg (initial_page (Some small_canvas))) ≡ₚ grid 3 2
  ∧ ∃ k, scheduled (frames k (startRevealAnimation 500
                      (initRevealDots lcg (initial_page (Some small_canvas))))) = [].
Proof.
  split; [exact lcg_draws_in_range|].
  pose proof (reveal_order_is_permutation lcg (initial_page (Some small_canvas))
                small_canvas 500 eq_refl eq_refl lcg_draws_in_range) as H.
  cbv zeta in H. destruct H as (_ & _ & _ & _ & _ & Hp & _ & _ & _ & Hk & _).
  split; [exact Hp | exact Hk].
Defined.

Lemma awaiting_page_ready :
  canvasRef awaiting_page = Some (repaint small_canvas)
  ∧ scheduled awaiting_page = []
  ∧ (0 < length (dotsRef awaiting_page))%nat
  ∧ fetching awaiting_page = [Request "/api/generate-palette" [bleu; rouge]]
  ∧ loading awaiting_page = [].
Proof.
  split; [vm_compute; reflexivity|]. split; [vm_compute; reflexivity|].
  split; [vm_compute; lia|]. split; vm_compute; reflexivity.
Defined.

Lemma reveal_completion_witness :
  (canvasRef awaiting_page = Some (repaint small_canvas)
   ∧ scheduled awaiting_page = [] ∧ (0 < length (dotsRef awaiting_page))%nat)
  ∧ cursor (length (dotsRef awaiting_page))
           (ceil_div (length (dotsRef awaiting_page))
                     (frame_budget (length (dotsRef awaiting_page))))
    = length (dotsRef awaiting_page).
Proof.
  destruct awaiting_page_ready as (H1 & H2 & H3 & _).
  split; [auto|].
  exact (proj2 (proj2 (reveal_completion awaiting_page _ 500 H1 H2 H3))).
Defined.

Lemma big_page_length : Z.of_nat (length (dotsRef big_page)) = 640000.
Proof.
  change (dotsRef big_page) with (grid 800 800). rewrite grid_length.
  rewrite Nat2Z.inj_mul. reflexivity.
Defined.

Lemma count_follows_progress_witness :
  (canvasRef big_page = Some (Canvas 800 800 []) ∧ scheduled big_page = []
   ∧ Z.of_nat (length (dotsRef big_page)) = 640000)
  ∧ paletteCount (frames 100 (startRevealAnimation 1185512 big_page)) = 592756%float
  ∧ paletteCount (frames 200 (startRevealAnimation 1185512 big_page)) = 1185512%float.
Proof.
  split; [split; [reflexivity|split; [reflexivity|exact big_page_length]]|].
  pose proof (proj2 count_follows_progress big_page (Canvas 800 800 [])
                eq_refl eq_refl big_page_length) as H.
  cbv zeta in H. destruct H as (_ & _ & H100 & _ & H200).
  split; [exact H100 | exact H200].
Defined.

Lemma frame_budget_frames_witness :
  (canvasRef awaiting_page = Some (repaint small_canvas)
   ∧ scheduled awaiting_page = [] ∧ (0 < length (dotsRef awaiting_page))%nat)
  ∧ completes_after (ceil_div (length (dotsRef awaiting_page))
                              (frame_budget (length (dotsRef awaiting_page))))
                    (startRevealAnimation 500 awaiting_page).
Proof.
  destruct awaiting_page_ready as (H1 & H2 & H3 & _).
  split; [auto|].
  pose proof (frame_budget_frames awaiting_page _ 500 H1 H2 H3) as H.
  cbv zeta in H. destruct H as (_ & _ & _ & _ & Hc & _). exact Hc.
Defined.

Lemma two_colours_at_rest :
  canvasRef two_colours = Some small_canvas
  ∧ (2 ≤ length (selectedPaletteColors two_colours))%nat
  ∧ palettePreview two_colours = None
  ∧ isPaletteGenerating two_colours = false ∧ isPaletteRevealing two_colours = false
  ∧ scheduled two_colours = [] ∧ loading two_colours = [] ∧ fetching two_colours = [].
Proof. vm_compute. repeat split; lia. Defined.

Lemma cancel_triggers_witness :
  (canvasRef two_colours = Some small_canvas
   ∧ (2 ≤ length (selectedPaletteColors two_colours))%nat)
  ∧ paletteCount (handleGeneratePalette lcg two_colours) = num_of_Z 0
  ∧ canvasRef (handleGeneratePalette lcg two_colours) = Some (repaint small_canvas).
Proof.
  destruct two_colours_at_rest as (H1 & H2 & _).
  split; [auto|].
  pose proof (proj1 (cancel_triggers lcg two_colours) small_canvas H1 H2) as H.
  cbv zeta in H. destruct H as (_ & _ & Hc & _ & _ & _ & Hcv & _).
  split; [exact Hc | exact Hcv].
Defined.

Lemma wide_page_ready :
  canvasRef wide_page = Some (repaint (Canvas 2001 1 []))
  ∧ scheduled wide_page = []
  ∧ (0 < length (dotsRef wide_page))%nat
  ∧ Z.of_nat (length (dotsRef wide_page)) ≤ safe_integer.
Proof.
  vm_compute. split; [reflexivity|]. split; [reflexivity|].
  split; [lia|discriminate].
Defined.

Lemma observed_values_monotone_witness :
  (canvasRef wide_page = Some (repaint (Canvas 2001 1 [])) ∧ scheduled wide_page = []
   ∧ (0 < length (dotsRef wide_page))%nat
   ∧ Z.of_nat (length (dotsRef wide_page)) ≤ safe_integer
   ∧ 0 ≤ 1185512 ≤ safe_integer ∧ (1 ≤ 1 ≤ 2)%nat)
  ∧ PrimFloat.leb (paletteCount (frames 1 (startRevealAnimation 1185512 wide_page)))
                  (paletteCount (frames 2 (startRevealAnimation 1185512 wide_page))) = true.
Proof.
  destruct wide_page_ready as (H1 & H2 & H3 & H4).
  assert (H5 : 0 ≤ 1185512 ≤ safe_integer) by (vm_compute; split; discriminate).
  assert (H6 : (1 ≤ 1 ≤ 2)%nat) by lia.
  split; [auto 10|].
  pose proof (observed_values_monotone wide_page _ 1185512 1 2 H1 H2 H3 H4 H5 H6) as H.
  cbv zeta in H. destruct H as (_ & Hc & _). exact Hc.
Defined.

Lemma target_total_fallback_witness :
  (r_error sample_response = None
   ∧ canvasRef awaiting_page = Some (repaint small_canvas)
   ∧ fetching awaiting_page = [Request "/api/generate-palette" [bleu; rouge]]
   ∧ loading awaiting_page = [])
  ∧ loading (step lcg awaiting_page (FetchResolved sample_response 0))
    = [displayCount sample_response].
Proof.
  destruct awaiting_page_ready as (H1 & _ & _ & H4 & H5).
  split; [auto|].
  pose proof (target_total_fallback lcg awaiting_page _ sample_response 0 _ _
                eq_refl H1 H4 H5) as H.
  cbv zeta in H. destruct H as (_ & Hl & _). exact Hl.
Defined.

Lemma error_response_starts_nothing_witness :
  (r_error error_response = Some "Nombre de couleurs invalide (1-8 requis)"
   ∧ canvasRef two_colours = Some small_canvas
   ∧ (2 ≤ length (selectedPaletteColors two_colours))%nat
   ∧ palettePreview two_colours = None
   ∧ isPaletteGenerating two_colours = false ∧ isPaletteRevealing two_colours = false
   ∧ scheduled two_colours = [] ∧ loading two_colours = [] ∧ fetching two_colours = [])
  ∧ paletteError (step lcg (step lcg two_colours ClickGenerate)
                       (FetchResolved error_response 0))
    = Some "Nombre de couleurs invalide (1-8 requis)".
Proof.
  destruct two_colours_at_rest as (H1 & H2 & H3 & H4 & H5 & H6 & H7 & H8).
  split; [auto 10|].
  pose proof (error_response_starts_nothing lcg two_colours small_canvas _
                error_response 0 eq_refl H1 H2 H3 H4 H5 H6 H7 H8) as H.
  cbv zeta in H. destruct H as (_ & He & _). exact He.
Defined.

Lemma lcg_in_unit_interval (k : nat) : in_unit_interval (lcg k).
Proof.
  unfold lcg. set (a := (Z.of_nat k * 37 + 11) mod 64).
  assert (Ha : 0 ≤ a < 64) by (apply Z.mod_pos_bound; lia). clearbody a.
  assert (H : forallb (λ a, PrimFloat.leb (float_of_Z 0)
                               (PrimFloat.div (float_of_Z a) (float_of_Z 64))
                            && PrimFloat.ltb (PrimFloat.div (float_of_Z a) (float_of_Z 64))
                                 (float_of_Z 1)) (seqZ 0 64) = true)
    by (vm_compute; reflexivity).
  pose proof (proj1 (forallb_forall _ _) H a) as Hx.
  apply andb_true_iff in Hx; [done|]. apply list_elem_of_In, elem_of_seqZ. lia.
Defined.

Lemma shuffle_is_fisher_yates_witness :
  (NoDup (grid 2 2) ∧ Z.of_nat (length (grid 2 2)) ≤ 2 ^ 32
   ∧ ∀ i, (1 ≤ i < length (grid 2 2))%nat →
          in_unit_interval (lcg (0 + (length (grid 2 2) - 1 - i))%nat))
  ∧ ∃ js, choices_in_range js 4 ∧ shuffle lcg 0 (grid 2 2) = fisher_yates js (grid 2 2).
Proof.
  assert (H2 : Z.of_nat (length (grid 2 2)) ≤ 2 ^ 32) by (vm_compute; discriminate).
  assert (H3 : ∀ i, (1 ≤ i < length (grid 2 2))%nat →
                    in_unit_interval (lcg (0 + (length (grid 2 2) - 1 - i))%nat))
    by (intros i _; apply lcg_in_unit_interval).
  split; [split; [apply grid_NoDup|split; [exact H2|exact H3]]|].
  pose proof (shuffle_is_fisher_yates lcg 0 (grid 2 2) (grid_NoDup 2 2) H2 H3) as H.
  cbv zeta in H. destruct H as ((js & Hr & Hs & _) & _).
  exists js. split; [exact Hr|exact Hs].
Defined.

Lemma empty_permutation_nan_witness :
  (canvasRef fresh_page = Some (Canvas 800 800 []) ∧ scheduled fresh_page = []
   ∧ dotsRef fresh_page = [])
  ∧ Prim2SF (revealProgress (frames 1 (startRevealAnimation 500 fresh_page))) = S754_nan
  ∧ paletteCount (frames 1 (startRevealAnimation 500 fresh_page)) = float_of_Z 500.
Proof.
  split; [repeat split|].
  pose proof (empty_permutation_nan fresh_page (Canvas 800 800 []) 500
                eq_refl eq_refl eq_refl) as H.
  cbv zeta in H. destruct H as (_ & _ & _ & _ & Hc & _ & Hn & _).
  split; [exact Hn | exact Hc].
Defined.

(** * Further properties of the page *)

(** ** The selection *)

Lemma elem_of_all_colors (c : ColorKey) : c ∈ all_colors.
Proof. destruct c; unfold all_colors; repeat first [by left | right]. Qed.

Lemma selection_at_most_8 (sel : list ColorKey) : NoDup sel → (length sel ≤ 8)%nat.
Proof.
  intros Hnd. change 8%nat with (length all_colors).
  apply submseteq_length, NoDup_submseteq; [done|]. intros c _. apply elem_of_all_colors.
Qed.

Lemma toggle_NoDup c sel : NoDup sel → NoDup (toggle c sel).
Proof.
  intros Hnd. unfold toggle. case_bool_decide as Hc.
  - by apply list.NoDup_filter.
  - apply list.NoDup_app. split; [done|]. split; [|apply NoDup_singleton].
    intros x Hx Hx'. apply list_elem_of_singleton in Hx'. by subst.
Qed.

Lemma elem_of_toggle c c' sel :
  c' ∈ toggle c sel ↔ if decide (c' = c) then c ∉ sel else c' ∈ sel.
Proof.
  unfold toggle. case_bool_decide as Hc; case_decide as He; subst.
  - rewrite list_elem_of_filter. tauto.
  - rewrite list_elem_of_filter. tauto.
  - rewrite elem_of_app, list_elem_of_singleton. tauto.
  - rewrite elem_of_app, list_elem_of_singleton. tauto.
Qed.

Lemma filter_not_in c (sel : list ColorKey) : c ∉ sel → filter (λ c', c' ≠ c) sel = sel.
Proof.
  induction sel as [|x sel IH]; intros Hc; [done|].
  apply not_elem_of_cons in Hc as [Hx Hc]. rewrite filter_cons_True by done. by rewrite IH.
Qed.

(** X1: on a selection without duplicates, a click on a colour flips the
    membership of that colour and of no other, keeps the selection free of
    duplicates (so of at most eight colours) and changes its size by one;
    a second click on the same colour restores the same set of colours, and
    the same order too when the colour was not selected at first (otherwise
    the colour moves to the end of the order). *)
Theorem toggle_flips_membership (c : ColorKey) (sel : list ColorKey) :
  NoDup sel →
  NoDup (toggle c sel)
  ∧ (c ∈ toggle c sel ↔ c ∉ sel)
  ∧ (∀ c', c' ≠ c → c' ∈ toggle c sel ↔ c' ∈ sel)
  ∧ length (toggle c sel) = (if bool_decide (c ∈ sel) then length sel - 1 else length sel + 1)%nat
  ∧ toggle c (toggle c sel) ≡ₚ sel
  ∧ (c ∉ sel → toggle c (toggle c sel) = sel)
  ∧ (length (toggle c sel) ≤ 8)%nat.
Proof.
  intros Hnd. split; [by apply toggle_NoDup|]. split.
  { rewrite elem_of_toggle. by rewrite decide_True. }
  split.
  { intros c' Hc'. rewrite elem_of_toggle. by rewrite decide_False. }
  assert (Hback : c ∉ sel → toggle c (toggle c sel) = sel).
  { intros Hc. unfold toggle at 2. rewrite bool_decide_false by done.
    unfold toggle. rewrite bool_decide_true by (rewrite elem_of_app, list_elem_of_singleton; tauto).
    rewrite list.filter_app, filter_not_in by done. cbn. rewrite decide_False by tauto.
    apply app_nil_r. }
  split; [|split; [|split; [done|by apply selection_at_most_8, toggle_NoDup]]].
  - unfold toggle. case_bool_decide as Hc.
    + apply elem_of_Permutation in Hc as [sel' Hp].
      assert (Hnd' : NoDup (c :: sel')) by by rewrite <- Hp.
      apply list.NoDup_cons in Hnd' as [Hc' _].
      rewrite Hp at 1 2. rewrite filter_cons_False by tauto.
      rewrite filter_not_in by done. cbn. lia.
    + rewrite length_app. cbn. lia.
  - destruct (decide (c ∈ sel)) as [Hc|Hc]; [|by rewrite Hback].
    unfold toggle at 2. rewrite bool_decide_true by done.
    unfold toggle. rewrite bool_decide_false by (rewrite list_elem_of_filter; tauto).
    apply elem_of_Permutation in Hc as [sel' Hp].
    assert (Hnd' : NoDup (c :: sel')) by by rewrite <- Hp.
    apply list.NoDup_cons in Hnd' as [Hc' _].
    rewrite Hp. rewrite filter_cons_False by tauto. rewrite filter_not_in by done.
    by rewrite Permutation_app_comm.
Qed.

(** ** What every run of the page keeps *)

Section Reachable.
Context {num : Type} `{!JsNum num}.
Variable random : nat → num.
Implicit Types (s : page num).

Lemma reveal_keeps cl s :
  selectedPaletteColors (reveal cl s) = selectedPaletteColors s
  ∧ fetching (reveal cl s) = fetching s
  ∧ isPaletteGenerating (reveal cl s) = isPaletteGenerating s
  ∧ loading (reveal cl s) = loading s
  ∧ palettePreview (reveal cl s) = palettePreview s.
Proof.
  unfold reveal, clear_cells. destruct (canvasRef s); case_bool_decide; cbn; done.
Qed.

Lemma animation_frame_keeps s :
  selectedPaletteColors (animation_frame s) = selectedPaletteColors s
  ∧ fetching (animation_frame s) = fetching s
  ∧ isPaletteGenerating (animation_frame s) = isPaletteGenerating s
  ∧ loading (animation_frame s) = loading s
  ∧ palettePreview (animation_frame s) = palettePreview s.
Proof.
  unfold animation_frame.
  change (selectedPaletteColors s) with (selectedPaletteColors (set_scheduled [] s)).
  change (fetching s) with (fetching (set_scheduled [] s)).
  change (isPaletteGenerating s) with (isPaletteGenerating (set_scheduled [] s)).
  change (loading s) with (loading (set_scheduled [] s)).
  change (palettePreview s) with (palettePreview (set_scheduled [] s)).
  generalize (set_scheduled [] s). induction (scheduled s) as [|e l IH]; intros s'; [done|].
  cbn [fold_left]. destruct (IH (reveal e.2 s')) as (-> & -> & -> & -> & ->).
  apply reveal_keeps.
Qed.

Lemma initRevealDots_keeps s :
  selectedPaletteColors (initRevealDots random s) = selectedPaletteColors s
  ∧ fetching (initRevealDots random s) = fetching s
  ∧ isPaletteGenerating (initRevealDots random s) = isPaletteGenerating s
  ∧ loading (initRevealDots random s) = loading s
  ∧ palettePreview (initRevealDots random s) = palettePreview s
  ∧ scheduled (initRevealDots random s) = scheduled s
  ∧ isPaletteRevealing (initRevealDots random s) = isPaletteRevealing s
  ∧ rencontresMode (initRevealDots random s) = rencontresMode s.
Proof. unfold initRevealDots. destruct (canvasRef s); cbn; done. Qed.

Lemma togglePaletteColor_keeps c s :
  selectedPaletteColors (togglePaletteColor c s) = toggle c (selectedPaletteColors s)
  ∧ fetching (togglePaletteColor c s) = fetching s
  ∧ isPaletteGenerating (togglePaletteColor c s) = isPaletteGenerating s
  ∧ loading (togglePaletteColor c s) = loading s
  ∧ scheduled (togglePaletteColor c s) = scheduled s
  ∧ isPaletteRevealing (togglePaletteColor c s) = isPaletteRevealing s
  ∧ palettePreview (togglePaletteColor c s) = None.
Proof.
  destruct s as [sel gen rev pre cnt res err prg md cvr ar dr sch nid ld ft rc].
  unfold togglePaletteColor. cbn [palettePreview].
  destruct pre as [p|]; [cbn [canvasRef setRevealProgress setPaletteCount setPaletteResult
                                setPalettePreview]; destruct cvr|]; cbn.
  all: try done.
Qed.

(** What a request does to the selection and to the requests in flight. *)
Lemma handleGeneratePalette_request s :
  (2 ≤ length (selectedPaletteColors s))%nat →
  let s' := handleGeneratePalette random s in
  selectedPaletteColors s' = selectedPaletteColors s
  ∧ isPaletteGenerating s' = true
  ∧ loading s' = loading s
  ∧ palettePreview s' = None
  ∧ ∃ e, fetching s' = fetching s ++ [Request e (selectedPaletteColors s)].
Proof.
  intros Hsel. cbv zeta. unfold handleGeneratePalette.
  rewrite bool_decide_false by lia.
  set (s1 := match animationRef s with Some id => _ | None => s end).
  assert (H1 : selectedPaletteColors s1 = selectedPaletteColors s ∧ fetching s1 = fetching s
               ∧ loading s1 = loading s).
  { subst s1. destruct (animationRef s) as [id|]; [case_bool_decide|]; done. }
  destruct H1 as (E1 & E2 & E3). clearbody s1.
  set (s2 := setRevealProgress _ _).
  assert (H2 : selectedPaletteColors s2 = selectedPaletteColors s ∧ fetching s2 = fetching s
               ∧ loading s2 = loading s ∧ isPaletteGenerating s2 = true
               ∧ palettePreview s2 = None).
  { subst s2. cbn. done. }
  clearbody s2. destruct H2 as (F1 & F2 & F3 & F4 & F5).
  destruct (initRevealDots_keeps s2) as (G1 & G2 & G3 & G4 & G5 & _).
  cbn. rewrite G1, G2, G3, G4, G5, F1, F2, F3, F4, F5. eauto 10.
Qed.

Lemma step_requests_ok s e : requests_ok s → requests_ok (step random s e).
Proof.
  intros Hs. pose proof Hs as (Hnd & Hreq & Hlen & Hgen).
  destruct e as [c|m| |data now|err| |]; cbn [step].
  - destruct (isPaletteGenerating s || isPaletteRevealing s); [exact Hs|].
    destruct (togglePaletteColor_keeps c s) as (E1 & E2 & E3 & _).
    unfold requests_ok. rewrite E1, E2, E3. split; [by apply toggle_NoDup|done].
  - unfold toggleMode. destruct (bool_decide (rencontresMode s ≠ m)); [|exact Hs].
    unfold requests_ok; cbn; done.
  - destruct (bool_decide (palettePreview s = None)); [|exact Hs]. cbn [andb].
    destruct (decide (length (selectedPaletteColors s) < 2)%nat) as [Hsel|Hsel];
      [by rewrite bool_decide_true|rewrite bool_decide_false by done]. cbn [orb].
    destruct (isPaletteGenerating s) eqn:Hg; [exact Hs|]. cbn [orb].
    destruct (isPaletteRevealing s); [exact Hs|]. cbn [negb].
    symmetry in Hgen. apply bool_decide_eq_false in Hgen.
    assert (Hf : fetching s = []) by (by destruct (fetching s); [|exfalso; apply Hgen]).
    destruct (handleGeneratePalette_request s ltac:(lia)) as (E1 & E2 & _ & _ & e & E4).
    unfold requests_ok. rewrite E1, E2, E4, Hf. cbn. split; [done|]. split; [|done].
    constructor; [|constructor]. split; cbn; [done|].
    split; [lia|by apply selection_at_most_8].
  - destruct (fetching s) as [|r rest] eqn:Hf; [exact Hs|].
    assert (rest = []) as -> by (destruct rest; [done|cbn in Hlen; lia]).
    unfold requests_ok, handleResponse. destruct (r_error data); cbn;
      (split; [done|split; [constructor|split; [lia|done]]]).
  - destruct (fetching s) as [|r rest] eqn:Hf; [exact Hs|].
    assert (rest = []) as -> by (destruct rest; [done|cbn in Hlen; lia]).
    unfold requests_ok, handleFailure. cbn.
    split; [done|split; [constructor|split; [lia|done]]].
  - destruct (loading s) as [|t rest]; [exact Hs|].
    unfold requests_ok, startRevealAnimation. cbn. destruct (canvasRef s); done.
  - unfold requests_ok. destruct (animation_frame_keeps s) as (-> & -> & -> & _). done.
Qed.

Lemma run_requests_ok s es : requests_ok s → requests_ok (run random s es).
Proof.
  revert s. induction es as [|e es IH]; intros s Hs; [done|].
  apply IH. by apply step_requests_ok.
Qed.

(** X2: whatever the visitor does and whatever the server answers, from
    the page as first rendered: the selection has no duplicate and at most
    eight colours, every request in flight carries between two and eight
    distinct colours, there is at most one request in flight, and
    [isPaletteGenerating] is set exactly while there is one. *)
Theorem requests_carry_a_selection (cv : option canvas) (es : list event) :
  let s := run random (initial_page cv) es in
  NoDup (selectedPaletteColors s)
  ∧ (length (selectedPaletteColors s) ≤ 8)%nat
  ∧ (∀ r, r ∈ fetching s → NoDup (colors r) ∧ (2 ≤ length (colors r) ≤ 8)%nat)
  ∧ (length (fetching s) ≤ 1)%nat
  ∧ (isPaletteGenerating s = true ↔ fetching s ≠ []).
Proof.
  cbv zeta. destruct (run_requests_ok (initial_page cv) es) as (Hnd & Hreq & Hlen & Hgen).
  { unfold requests_ok. cbn. split; [constructor|split; [constructor|split; [lia|done]]]. }
  split; [done|]. split; [by apply selection_at_most_8|]. split.
  { intros r Hr. exact (proj1 (list.Forall_forall _ _) Hreq r Hr). }
  split; [done|]. rewrite Hgen. apply bool_decide_eq_true.
Qed.

End Reachable.
(** ** No session without an image *)

Section Quiet.
Context {num : Type} `{!JsNum num}.
Variable random : nat → num.
Implicit Types (s : page num).

Lemma cleared_repaint cv : cleared (drawn (repaint cv)) = cleared (drawn cv).
Proof.
  unfold repaint, cleared. cbn [drawn]. rewrite omap_app.
  change (omap _ [FillRect _ _ _ _ _]) with (@nil cell). apply app_nil_r.
Qed.

Lemma initRevealDots_canvas s :
  canvasRef (initRevealDots random s) = repaint <$> canvasRef s
  ∧ paletteCount (initRevealDots random s) = paletteCount s
  ∧ revealProgress (initRevealDots random s) = revealProgress s
  ∧ loading (initRevealDots random s) = loading s
  ∧ scheduled (initRevealDots random s) = scheduled s
  ∧ isPaletteRevealing (initRevealDots random s) = isPaletteRevealing s
  ∧ palettePreview (initRevealDots random s) = palettePreview s.
Proof. unfold initRevealDots. destruct (canvasRef s) eqn:E; cbn; rewrite ?E; done. Qed.

Lemma handleGeneratePalette_quiet s :
  scheduled s = [] →
  let s' := handleGeneratePalette random s in
  loading s' = loading s ∧ scheduled s' = [] ∧ isPaletteRevealing s' = isPaletteRevealing s
  ∧ (palettePreview s = None → palettePreview s' = None)
  ∧ (paletteCount s = num_of_Z 0 → paletteCount s' = num_of_Z 0)
  ∧ (revealProgress s = num_of_Z 0 → revealProgress s' = num_of_Z 0)
  ∧ cleared_on (canvasRef s') = cleared_on (canvasRef s).
Proof.
  intros Hsch. cbv zeta. unfold handleGeneratePalette.
  destruct (bool_decide (length (selectedPaletteColors s) < 2)%nat); [done|].
  set (s1 := match animationRef s with Some id => _ | None => s end).
  assert (H1 : loading s1 = loading s ∧ scheduled s1 = [] ∧ canvasRef s1 = canvasRef s
               ∧ isPaletteRevealing s1 = isPaletteRevealing s).
  { subst s1. destruct (animationRef s) as [id|]; [destruct (bool_decide (id ≠ 0%nat))|];
      cbn; rewrite ?Hsch; done. }
  destruct H1 as (E1 & E2 & E3 & E4). clearbody s1.
  set (s2 := setRevealProgress _ _).
  assert (H2 : loading s2 = loading s ∧ scheduled s2 = [] ∧ canvasRef s2 = canvasRef s
               ∧ isPaletteRevealing s2 = isPaletteRevealing s ∧ palettePreview s2 = None
               ∧ paletteCount s2 = num_of_Z 0 ∧ revealProgress s2 = num_of_Z 0).
  { subst s2. cbn. done. }
  clearbody s2. destruct H2 as (F1 & F2 & F3 & F4 & F5 & F6 & F7).
  destruct (initRevealDots_canvas s2) as (G1 & G2 & G3 & G4 & G5 & G6 & G7).
  cbn. rewrite G1, G2, G3, G4, G5, G6, G7, F1, F2, F3, F4, F5, F6, F7.
  repeat split; try done. destruct (canvasRef s) as [cv|]; [apply cleared_repaint|done].
Qed.

Lemma step_nothing_revealed cv0 s e :
  fails e → nothing_revealed cv0 s → nothing_revealed cv0 (step random s e).
Proof.
  intros He Hs. pose proof Hs as (Hld & Hsch & Hrev & Hpre & Hcnt & Hprg & Hcv).
  destruct e as [c|m| |data now|err| |]; cbn [step].
  - destruct (isPaletteGenerating s || isPaletteRevealing s); [exact Hs|].
    unfold nothing_revealed, togglePaletteColor. rewrite Hpre. cbn. done.
  - unfold toggleMode. destruct (bool_decide (rencontresMode s ≠ m)); [|exact Hs].
    unfold nothing_revealed. cbn. done.
  - destruct (_ && _); [|exact Hs].
    destruct (handleGeneratePalette_quiet s Hsch) as (E1 & E2 & E3 & E4 & E5 & E6 & E7).
    unfold nothing_revealed. rewrite E1, E2, E3, E4, E5, E6, E7 by done. done.
  - destruct (fetching s) as [|r rest]; [exact Hs|]. cbn in He.
    unfold handleResponse. destruct (r_error data); [|done].
    unfold nothing_revealed. cbn. done.
  - destruct (fetching s) as [|r rest]; [exact Hs|].
    unfold nothing_revealed, handleFailure. cbn. done.
  - rewrite Hld. exact Hs.
  - by rewrite animation_frame_idle.
Qed.

Lemma run_nothing_revealed cv0 s es :
  Forall fails es → nothing_revealed cv0 s → nothing_revealed cv0 (run random s es).
Proof.
  intros Hes. revert s. induction Hes as [|e es He _ IH]; intros s Hs; [done|].
  apply IH. by apply step_nothing_revealed.
Qed.

(** X3: as long as every response received carries an [error] field (or
    the fetch is rejected), whatever else happens, no reveal session ever
    starts: no image is awaited, no frame callback is scheduled, the page is
    not revealing, there is no preview, count and progress are 0, and no
    cell of the canvas has been cleared. *)
Theorem no_reveal_without_a_result (cv : option canvas) (es : list event) :
  (∀ data now, FetchResolved data now ∈ es → r_error data ≠ None) →
  let s := run random (initial_page cv) es in
  loading s = [] ∧ scheduled s = [] ∧ isPaletteRevealing s = false
  ∧ palettePreview s = None
  ∧ paletteCount s = num_of_Z 0 ∧ revealProgress s = num_of_Z 0
  ∧ cleared_on (canvasRef s) = cleared_on cv.
Proof.
  intros Hes. cbv zeta.
  assert (Hall : Forall fails es).
  { apply list.Forall_forall. intros [c|m| |data now|err| |] He; cbn; try done. eauto. }
  apply (run_nothing_revealed cv (initial_page cv) es Hall). by repeat split.
Qed.

End Quiet.

(** ** The number of frames *)

Lemma frames_200_iff (n : nat) :
  (ceil_div n (frame_budget n) ≤ 200)%nat ↔ Z.of_nat n ≤ 400000 ∨ (n mod 200 = 0)%nat.
Proof.
  pose proof (frame_budget_pos n) as Hb. rewrite ceil_div_le by lia.
  unfold frame_budget in *.
  pose proof (Nat.div_mod_eq n 200) as Hdm.
  pose proof (Nat.mod_upper_bound n 200 ltac:(lia)) as Hm.
  lia.
Qed.

Lemma frames_201 (n : nat) : (ceil_div n (frame_budget n) ≤ 201)%nat.
Proof.
  pose proof (frame_budget_pos n) as Hb. rewrite ceil_div_le by lia.
  unfold frame_budget in *.
  pose proof (Nat.div_mod_eq n 200) as Hdm.
  pose proof (Nat.mod_upper_bound n 200 ltac:(lia)) as Hm.
  lia.
Qed.

Section Bound.
Context {num : Type} `{!JsNum num}.
Implicit Types (s : page num).

Lemma session_scheduled s cv t k :
  canvasRef s = Some cv → scheduled s = [] → (1 ≤ k)%nat →
  let n := length (dotsRef s) in
  scheduled (frames k (startRevealAnimation t s)) = [] ↔ (ceil_div n (frame_budget n) ≤ k)%nat.
Proof.
  intros Hcv Hsch Hk n. destruct (dotsRef s) as [|d ds] eqn:Hds.
  - destruct k as [|k]; [lia|]. destruct (empty_session s cv t k Hcv Hsch Hds) as [-> _].
    subst n. cbn [length]. replace (ceil_div 0 (frame_budget 0)) with 0%nat by reflexivity.
    split; [lia|done].
  - assert (Hne : dotsRef s ≠ []) by (rewrite Hds; discriminate).
    destruct (session_frames s cv t k Hcv Hsch Hne) as [Hat _].
    pose proof (at_cursor_scheduled _ _ _ _ _ _ _ Hat) as Hiff.
    rewrite Hds in Hiff. fold n in Hiff. rewrite <- cursor_done.
    pose proof (cursor_le n k).
    destruct (scheduled (frames k (startRevealAnimation t s))) eqn:E.
    + split; [|done]. intros _. destruct (decide (cursor n k < n)%nat) as [Hlt|]; [|lia].
      apply Hiff in Hlt. done.
    + split; [done|]. intros Hc. exfalso. assert (cursor n k < n)%nat; [|lia]. by apply Hiff.
Qed.

(** X4: whatever the number [n] of cells (none included), a session is over
    after 201 frames: nothing is scheduled any more and the whole reveal
    order has been cleared; it is over after 200 frames exactly when [n] is
    at most 400,000 or a multiple of 200; and it is never over before
    [k * B >= n]. *)
Theorem reveal_takes_200_or_201_frames (s : page num) (cv : canvas) (t : Z) :
  canvasRef s = Some cv → scheduled s = [] →
  let n := length (dotsRef s) in
  let s0 := startRevealAnimation t s in
  scheduled (frames 201 s0) = []
  ∧ canvasRef (frames 201 s0) =
      Some (Canvas (width cv) (height cv) (drawn cv ++ clear_ops (dotsRef s)))
  ∧ (scheduled (frames 200 s0) = [] ↔ Z.of_nat n ≤ 400000 ∨ (n mod 200 = 0)%nat)
  ∧ (∀ k, (1 ≤ k)%nat → scheduled (frames k s0) = [] → (n ≤ k * frame_budget n)%nat).
Proof.
  intros Hcv Hsch n s0.
  assert (H201 : scheduled (frames 201 s0) = []).
  { apply (session_scheduled s cv t 201 Hcv Hsch); [lia|apply frames_201]. }
  split; [done|]. split; [by apply session_cleared|]. split.
  - unfold s0. rewrite (session_scheduled s cv t 200 Hcv Hsch) by lia. apply frames_200_iff.
  - intros k Hk Hs. apply (session_scheduled s cv t k Hcv Hsch Hk) in Hs.
    pose proof (frame_budget_pos (length (dotsRef s))).
    apply ceil_div_le in Hs; [done|lia].
Qed.

End Bound.

(** ** Two sessions at once *)

Section Overlap.
Context {num : Type} `{!JsNum num}.
Variable random : nat → num.
Implicit Types (s : page num).

(** A click on Generate when the button is shown and enabled. *)
Lemma generate_enabled sel pre_cnt res err pre_prg md cv ar dr nid ld rc :
  (2 ≤ length sel)%nat →
  ∃ k, step random
         (Page sel false false None pre_cnt res err pre_prg md (Some cv) ar dr [] nid ld [] rc)
         ClickGenerate
       = Page sel true false None (num_of_Z 0) None None (num_of_Z 0) md
              (Some (repaint cv)) ar
              (shuffle random rc (grid (width cv) (height cv))) [] nid ld
              [Request (endpoint_of md) sel] k.
Proof.
  intros Hsel. unfold step.
  cbn [palettePreview isPaletteGenerating isPaletteRevealing selectedPaletteColors].
  rewrite bool_decide_true by done. rewrite (bool_decide_false (_ < 2)%nat) by lia.
  cbn [negb orb andb]. unfold handleGeneratePalette. cbn [selectedPaletteColors].
  rewrite (bool_decide_false (_ < 2)%nat) by lia.
  destruct ar as [id|].
  - cbn [animationRef]. destruct (bool_decide (id ≠ 0%nat)), md; eexists; reflexivity.
  - destruct md; eexists; reflexivity.
Qed.

Lemma response_received sel cnt res err prg md cv ar dr sch nid ld r rest rc
    (data : response) (now : nat) :
  r_error data = None →
  step random (Page sel true false None cnt res err prg md cv ar dr sch nid ld (r :: rest) rc)
       (FetchResolved data now)
  = Page sel false false (Some (r_preview data, now)) (num_of_Z (displayCount data))
         (Some data) err prg md cv ar dr sch nid (ld ++ [displayCount data]) rest rc.
Proof. intros He. cbn [step fetching]. unfold handleResponse. rewrite He. reflexivity. Qed.

Lemma mode_changed sel gen rev pre cnt res err prg md cv ar dr sch nid ld ft rc (m : mode) :
  m ≠ md →
  step random (Page sel gen rev pre cnt res err prg md cv ar dr sch nid ld ft rc) (ClickMode m)
  = Page sel gen rev None (num_of_Z 0) None err (num_of_Z 0) m cv ar dr sch nid ld ft rc.
Proof.
  intros Hm. cbn [step]. unfold toggleMode. cbn [rencontresMode].
  rewrite bool_decide_true by done. reflexivity.
Qed.

Lemma image_loaded sel gen rev pre cnt res err prg md cv ar dr sch nid t ld ft rc :
  step random (Page sel gen rev pre cnt res err prg md (Some cv) ar dr sch nid (t :: ld) ft rc)
       ImageLoaded
  = Page sel gen true pre cnt res err prg md (Some cv) (Some nid) dr
         (sch ++ [(nid, Closure dr 0 (frame_budget (length dr)) t)]) (S nid) ld ft rc.
Proof. reflexivity. Qed.

Lemma reveal_cleared cl s cv :
  canvasRef s = Some cv →
  ∃ cv', canvasRef (reveal cl s) = Some cv'
         ∧ cleared (drawn cv') =
             cleared (drawn cv)
             ++ slice (dots cl) (currentIndex cl)
                      (Nat.min (currentIndex cl + dotsPerFrame cl) (length (dots cl))).
Proof.
  intros Hcv. unfold reveal, clear_cells. rewrite Hcv.
  eexists. split.
  - destruct (bool_decide _); reflexivity.
  - cbn [drawn]. unfold cleared. rewrite omap_app. f_equal. apply cleared_clear_ops.
Qed.

Lemma slice_from_0 (ds : list cell) (b : nat) :
  slice ds 0 (Nat.min (0 + b) (length ds)) = take b ds.
Proof.
  unfold slice. rewrite drop_0, Nat.sub_0_r. cbn [Nat.add].
  destruct (decide (b ≤ length ds)%nat) as [Hb|Hb].
  - by rewrite Nat.min_l.
  - rewrite Nat.min_r by lia. by rewrite !take_ge by lia.
Qed.

(** X5: a second request made while the image of the first is still
    loading (the mode toggle brings the Generate button back) leaves two
    images awaited; when both have loaded, two reveal callbacks are
    scheduled at once, both over the reveal order of the second request,
    and the next frame clears the same first batch of cells twice. *)
Theorem sessions_can_overlap (s : page num) (cv : canvas) (d1 d2 : response)
    (now1 now2 : nat) (m : mode) :
  canvasRef s = Some cv → (2 ≤ length (selectedPaletteColors s))%nat →
  palettePreview s = None → isPaletteGenerating s = false → isPaletteRevealing s = false →
  scheduled s = [] → loading s = [] → fetching s = [] →
  r_error d1 = None → r_error d2 = None → m ≠ rencontresMode s →
  let s' := run random s [ClickGenerate; FetchResolved d1 now1; ClickMode m;
                          ClickGenerate; FetchResolved d2 now2; ImageLoaded; ImageLoaded] in
  let ds := dotsRef s' in
  let b := frame_budget (length ds) in
  scheduled s' = [(next_request_id s, Closure ds 0 b (displayCount d1));
                  (S (next_request_id s), Closure ds 0 b (displayCount d2))]
  ∧ isPaletteRevealing s' = true
  ∧ cleared_on (canvasRef (animation_frame s')) = cleared (drawn cv) ++ take b ds ++ take b ds.
Proof.
  intros Hcv Hsel Hpre Hgen Hrev Hsch Hld Hft Hd1 Hd2 Hm.
  destruct s as [sel gen rev pre cnt res err prg md cvr ar dr sch nid ld ft rc].
  cbn in Hcv, Hsch, Hld, Hft, Hrev, Hpre, Hgen, Hsel, Hm. subst.
  unfold run. cbn [fold_left].
  edestruct generate_enabled as [k1 E1]; [exact Hsel|]. rewrite E1. clear E1.
  rewrite (response_received _ _ _ _ _ _ _ _ _ _ _ _ _ _ _ d1 now1 Hd1).
  rewrite (mode_changed _ _ _ _ _ _ _ _ _ _ _ _ _ _ _ _ _ m Hm).
  edestruct generate_enabled as [k2 E2]; [exact Hsel|]. rewrite E2. clear E2.
  rewrite (response_received _ _ _ _ _ _ _ _ _ _ _ _ _ _ _ d2 now2 Hd2).
  cbn [app]. rewrite !image_loaded. cbn [app].
  cbv zeta. cbn [scheduled dotsRef isPaletteRevealing next_request_id].
  split; [reflexivity|]. split; [reflexivity|].
  set (ds := shuffle random k1 _). set (b := frame_budget (length ds)).
  unfold animation_frame. cbn [scheduled fold_left snd].
  match goal with
  | |- cleared_on (canvasRef (reveal ?c2 (reveal ?c1 ?s0))) = _ =>
      destruct (reveal_cleared c1 s0 _ eq_refl) as (cv1 & Hcv1 & Hcl1);
      destruct (reveal_cleared c2 (reveal c1 s0) _ Hcv1) as (cv2 & Hcv2 & Hcl2)
  end.
  rewrite Hcv2. cbn [cleared_on]. rewrite Hcl2, Hcl1. cbn [dots currentIndex dotsPerFrame].
  rewrite !slice_from_0, !cleared_repaint. by rewrite <- app_assoc.
Qed.
End Overlap.

(** * The generation route *)

Lemma chars_app (a b : string) : chars (a +:+ b) = chars a ++ chars b.
Proof. induction a as [|c a IH]; [done|]. simpl. f_equal. exact IH. Qed.

Lemma valid_color_letters (c : string) :
  c ∈ VALID_COLORS → c ≠ EmptyString ∧ Forall lowercase_letter (chars c).
Proof.
  unfold VALID_COLORS. intros H.
  repeat (apply elem_of_cons in H as [->|H];
          [split; [discriminate|repeat constructor; unfold lowercase_letter; cbn; lia]|]).
  by apply elem_of_nil in H.
Qed.

Lemma join_cons (sep p : string) (rest : list string) :
  rest ≠ [] → join sep (p :: rest) = p +:+ sep +:+ join sep rest.
Proof. by destruct rest. Qed.

Lemma join_chars (names : list string) :
  Forall (λ c, c ∈ VALID_COLORS) names →
  Forall (λ c, lowercase_letter c ∨ c = comma) (chars (join "," names)).
Proof.
  induction 1 as [|p rest Hp _ IH]; [constructor|].
  assert (Hl : Forall (λ c, lowercase_letter c ∨ c = comma) (chars p)).
  { eapply Forall_impl; [apply valid_color_letters, Hp|]. cbn. tauto. }
  destruct rest as [|q rest]; [done|].
  rewrite join_cons by done. rewrite !chars_app.
  apply Forall_app. split; [done|]. apply Forall_app. split; [|done].
  change (chars ",") with [comma]. constructor; [by right|constructor].
Qed.

Lemma join_head (p : string) (rest : list string) :
  p ∈ VALID_COLORS →
  ∃ c tl, chars (join "," (p :: rest)) = c :: tl ∧ lowercase_letter c.
Proof.
  intros Hp. destruct (valid_color_letters p Hp) as [Hne Hl].
  destruct p as [|c p]; [done|]. apply Forall_cons in Hl as [Hc _].
  exists c. destruct rest; [by eexists|]. rewrite join_cons by done.
  eexists. split; [reflexivity|done].
Qed.

Lemma check_colors_valid (l : list json) :
  check_colors l = AllValid ↔
  ∃ names, l = JStr <$> names ∧ Forall (λ c, toLowerCase c ∈ VALID_COLORS) names.
Proof.
  induction l as [|v l IH].
  - split; [exists []; by split|done].
  - destruct v as [|b|x|c|items|members]; cbn [check_colors];
      try (split; [done|intros ([|??] & E & _); discriminate]).
    destruct (decide (toLowerCase c ∈ VALID_COLORS)) as [Hc|Hc].
    + rewrite bool_decide_true by done. rewrite IH. split.
      * intros (names & -> & Hn). exists (c :: names). split; [done|by constructor].
      * intros ([|c' names] & E & Hn); [done|]. injection E as -> ->.
        apply Forall_cons in Hn as [_ Hn]. eauto.
    + rewrite bool_decide_false by done. split; [done|].
      intros ([|c' names] & E & Hn); [done|]. injection E as -> ->.
      by apply Forall_cons in Hn as [? _].
Qed.

Lemma lowered_strings (names : list string) : lowered (JStr <$> names) = toLowerCase <$> names.
Proof. induction names as [|c names IH]; [done|]. cbn. by rewrite <- IH. Qed.

Section RouteFacts.
Variable scriptPath : string.
Variable JSON_parse : string → json + string.
Variable trim : string → string.
Variable type_error : json → string.
Variable python3 : list string → process_end.

Lemma validate_runs (body : json + thrown) (args : list string) :
  validate scriptPath type_error body = RunPython args ↔
  ∃ (o : json) (names : list string),
    body = inl o
    ∧ property "colors" o = Some (JArr (JStr <$> names))
    ∧ (1 ≤ length names ≤ 8)%nat
    ∧ Forall (λ c, toLowerCase c ∈ VALID_COLORS) names
    ∧ args = [scriptPath; join "," (toLowerCase <$> names)]
             ++ (if truthy (property "full" o) then ["--full"] else []).
Proof.
  split.
  - destruct body as [o|e]; [|done]. unfold validate.
    destruct o as [|b|x|c|items|members]; try done.
    cbn [property]. destruct (member "colors" members) as [[|b|x|c|l|ms]|] eqn:Hc; try done.
    destruct (decide (length l < 1)%nat) as [H1|H1]; [by rewrite bool_decide_true|].
    rewrite (bool_decide_false _ H1).
    destruct (decide (8 < length l)%nat) as [H8|H8]; [by rewrite bool_decide_true|].
    rewrite (bool_decide_false _ H8). cbn [orb].
    destruct (check_colors l) eqn:Hv; try done.
    apply check_colors_valid in Hv as (names & -> & Hn). intros [= <-].
    rewrite length_fmap in H1, H8.
    exists (JObj members), names. cbn [property]. rewrite Hc, lowered_strings.
    repeat split; try done; lia.
  - intros (o & names & -> & Hc & Hlen & Hn & ->). unfold validate.
    destruct o as [|b|x|c|items|members]; try done.
    rewrite Hc. rewrite length_fmap.
    rewrite !bool_decide_false by lia. cbn [orb].
    rewrite (proj2 (check_colors_valid _)) by eauto. by rewrite lowered_strings.
Qed.

(** X6: the route runs the script exactly when the parsed body is an
    object whose [colors] is an array of one to eight strings, each of
    which is, lowercased, one of [VALID_COLORS]; the arguments are then the
    script path, the lowercased names joined by commas, and [--full] when
    [full] is truthy. *)
Theorem python_runs_on_valid_colours_only (body : json + thrown) (args : list string) :
  validate scriptPath type_error body = RunPython args ↔
  ∃ (o : json) (names : list string),
    body = inl o
    ∧ property "colors" o = Some (JArr (JStr <$> names))
    ∧ (1 ≤ length names ≤ 8)%nat
    ∧ Forall (λ c, toLowerCase c ∈ VALID_COLORS) names
    ∧ args = [scriptPath; join "," (toLowerCase <$> names)]
             ++ (if truthy (property "full" o) then ["--full"] else []).
Proof. apply validate_runs. Qed.

(** X7: whatever the request, the colours argument handed to [python3] is
    a comma-separated list of one to eight names taken from
    [VALID_COLORS]: it holds only lowercase letters and commas and starts
    with a letter; the only other argument is [--full]. *)
Theorem python_arguments_are_colour_names (body : json + thrown) (args : list string) :
  validate scriptPath type_error body = RunPython args →
  ∃ names : list string,
    (1 ≤ length names ≤ 8)%nat
    ∧ Forall (λ c, c ∈ VALID_COLORS) names
    ∧ (args = [scriptPath; join "," names] ∨ args = [scriptPath; join "," names; "--full"])
    ∧ Forall (λ c, lowercase_letter c ∨ c = comma) (chars (join "," names))
    ∧ ∃ c tl, chars (join "," names) = c :: tl ∧ lowercase_letter c.
Proof.
  intros Hv. apply validate_runs in Hv
    as (o & names & -> & Hc & Hlen & Hn & ->).
  assert (Hn' : Forall (λ c, c ∈ VALID_COLORS) (toLowerCase <$> names)).
  { by apply Forall_fmap. }
  exists (toLowerCase <$> names). split; [by rewrite length_fmap|]. split; [done|].
  split; [destruct (truthy _); [by right|by left]|]. split; [by apply join_chars|].
  destruct (toLowerCase <$> names) as [|p rest] eqn:E.
  { apply (f_equal length) in E. rewrite length_fmap in E. cbn in E. lia. }
  apply join_head. by apply Forall_cons in Hn' as [? _].
Qed.

Lemma caught_error (e : thrown) : status (caught e) = 500 ∧ error_body (caught e).
Proof. split; [done|]. unfold error_body, caught. eauto. Qed.

Lemma finish_cases (p : process_end) :
  let r := finish JSON_parse trim p in
  (status r = 200
   ∧ ∃ out err, p = Close (Some 0) out err ∧ JSON_parse (trim out) = inl (body r))
  ∨ (status r = 500 ∧ error_body r
     ∧ ∀ out err v, p = Close (Some 0) out err → JSON_parse (trim out) ≠ inl v).
Proof.
  cbv zeta. destruct p as [[[|c|c]|] out err|e]; cbn [finish];
    try (right; split; [done|split; [unfold error_body; cbn; eauto|intros; discriminate]]).
  destruct (JSON_parse (trim out)) as [v|m] eqn:Hp.
  - left. split; [done|]. eauto.
  - right. split; [done|]. split; [unfold error_body; cbn; eauto|].
    intros out' err' v [= <- <-]. congruence.
Qed.

Lemma validate_responds (b : json + thrown) (r : http_response) :
  validate scriptPath type_error b = Respond r →
  (status r = 400 ∨ status r = 500) ∧ error_body r.
Proof.
  unfold validate. intros Hv.
  repeat match type of Hv with
         | Respond _ = Respond _ =>
             injection Hv as <-; unfold error_body; cbn; split; [tauto|eauto]
         | RunPython _ = Respond _ => discriminate
         | context [match ?x with _ => _ end] => destruct x
         | context [if ?x then _ else _] => destruct x
         end.
Qed.

(** X8: the palette route answers 200, 400 or 500 and the spectrum route
    200 or 500; every answer other than 200 is an object with a single
    [error] string; the answer is 200 exactly when the script was run,
    exited with code 0 and printed text that parses as JSON, and its body is
    then that JSON value; a 400 is answered without running the script. *)
Theorem route_failures_carry_an_error (b : json + thrown) (spectrumPath : string) :
  let r := POST scriptPath JSON_parse trim type_error python3 b in
  let rs := POST_spectrum JSON_parse trim python3 spectrumPath in
  (status r = 200 ∨ status r = 400 ∨ status r = 500)
  ∧ (status r ≠ 200 → error_body r)
  ∧ (status r = 200 ↔
       ∃ args out err, validate scriptPath type_error b = RunPython args
         ∧ python3 args = Close (Some 0) out err
         ∧ JSON_parse (trim out) = inl (body r))
  ∧ (status r = 400 → ∀ args, validate scriptPath type_error b ≠ RunPython args)
  ∧ (status rs = 200 ∨ status rs = 500)
  ∧ (status rs ≠ 200 → error_body rs)
  ∧ (status rs = 200 ↔
       ∃ out err, python3 [spectrumPath] = Close (Some 0) out err
                  ∧ JSON_parse (trim out) = inl (body rs)).
Proof.
  cbv zeta. unfold POST, POST_spectrum.
  assert (Hspec : ∀ args,
    let r := finish JSON_parse trim (python3 args) in
    (status r = 200 ∨ status r = 500) ∧ (status r ≠ 200 → error_body r)
    ∧ (status r = 200 ↔ ∃ out err, python3 args = Close (Some 0) out err
                                   ∧ JSON_parse (trim out) = inl (body r))).
  { intros args. cbv zeta.
    destruct (finish_cases (python3 args)) as [[Hs H]|(Hs & He & Hn)]; cbv zeta in *.
    - split; [by left|]. split; [done|]. split; [done|]. by intros _.
    - split; [by right|]. split; [done|]. split; [rewrite Hs; done|].
      intros (out & err & Hp & Hj). exfalso. by eapply Hn. }
  split_and!; try apply Hspec.
  - destruct (validate scriptPath type_error b) as [r|args] eqn:Hv.
    + destruct (validate_responds b r Hv) as [[|] _]; tauto.
    + destruct (Hspec args) as ([|] & _); tauto.
  - destruct (validate scriptPath type_error b) as [r|args] eqn:Hv.
    + intros _. by destruct (validate_responds b r Hv).
    + apply Hspec.
  - destruct (validate scriptPath type_error b) as [r|args] eqn:Hv.
    + split; [|by intros (? & ? & ? & ? & _)].
      destruct (validate_responds b r Hv) as [[Hs|Hs] _]; rewrite Hs; discriminate.
    + destruct (Hspec args) as (_ & _ & Hiff). cbv zeta in Hiff. rewrite Hiff. split.
      * intros (out & err & ? & ?). eauto 6.
      * intros (args' & out & err & [= <-] & ? & ?). eauto.
  - destruct (validate scriptPath type_error b) as [r|args] eqn:Hv; [done|].
    destruct (Hspec args) as ([Hs|Hs] & _); cbv zeta in Hs; rewrite Hs; discriminate.
Qed.

Lemma key_name_valid (c : ColorKey) :
  toLowerCase (key_name c) = key_name c ∧ key_name c ∈ VALID_COLORS.
Proof. destruct c; (split; [reflexivity|]); unfold VALID_COLORS; repeat first [by left|right]. Qed.

(** X9: the body of every request the page has in flight, whatever led to
    it, passes the validation of the route, which runs the script on the
    names of the selected colours, in the order of their selection, without
    [--full]. *)
Theorem page_requests_pass_validation {num : Type} `{!JsNum num} (random : nat → num)
    (cv : option canvas) (es : list event) (r : request) :
  r ∈ fetching (run random (initial_page cv) es) →
  validate scriptPath type_error (inl (request_body r))
  = RunPython [scriptPath; join "," (key_name <$> colors r)].
Proof.
  intros Hr.
  destruct (run_requests_ok random (initial_page cv) es) as (_ & Hreq & _).
  { unfold requests_ok. cbn. split; [constructor|split; [constructor|split; [lia|done]]]. }
  destruct (proj1 (list.Forall_forall _ _) Hreq r Hr) as [_ Hlen].
  apply validate_runs. exists (request_body r), (key_name <$> colors r).
  split; [done|]. split.
  { unfold request_body. cbn. by rewrite <- list_fmap_compose. }
  split; [rewrite length_fmap; lia|]. split.
  { apply Forall_fmap, list.Forall_forall. intros c _. cbn.
    destruct (key_name_valid c) as [-> ?]. done. }
  cbn. do 3 f_equal. rewrite <- list_fmap_compose.
  apply list_fmap_ext. intros i c _. cbn. by destruct (key_name_valid c).
Qed.

End RouteFacts.

(** * The HD viewer and the info pages *)

Lemma SFcompare_antisym (x y : spec_float) (c : comparison) :
  SFcompare x y = Some c → SFcompare y x = Some (CompOpp c).
Proof.
  destruct x as [sx|sx| |sx mx ex], y as [sy|sy| |sy my ey]; cbn; intros [= <-];
    try (destruct sx; try destruct sy; reflexivity);
    try (destruct sy; reflexivity).
  destruct sx, sy; try reflexivity; rewrite (Z.compare_antisym ex ey);
    destruct (ex ?= ey); cbn; try reflexivity.
  - f_equal. f_equal. symmetry. apply (Pos.compare_cont_antisym mx my Eq).
  - f_equal. symmetry. apply (Pos.compare_cont_antisym mx my Eq).
Qed.

Lemma SFcompare_refl (x : spec_float) : x ≠ S754_nan → SFcompare x x = Some Eq.
Proof.
  destruct x as [s|s| |s m e]; cbn; try done; intros _.
  - by destruct s.
  - rewrite Z.compare_refl, Pos.compare_cont_refl. by destruct s.
Qed.

Lemma is_nan_spec (x : float) : PrimFloat.is_nan x = false ↔ Prim2SF x ≠ S754_nan.
Proof.
  unfold PrimFloat.is_nan. rewrite FloatAxioms.eqb_spec. unfold SFeqb. split.
  - intros H E. rewrite E in H. discriminate.
  - intros H. by rewrite SFcompare_refl.
Qed.

Lemma SFcompare_total (x y : spec_float) :
  x ≠ S754_nan → y ≠ S754_nan → ∃ c, SFcompare x y = Some c.
Proof. destruct x, y; cbn; try done; eauto. Qed.

Lemma ltb_leb (x y : float) : PrimFloat.ltb x y = true → PrimFloat.leb x y = true.
Proof.
  rewrite FloatAxioms.ltb_spec, FloatAxioms.leb_spec. unfold SFltb, SFleb.
  by destruct (SFcompare _ _) as [[]|].
Qed.

Lemma not_ltb_leb (x y : float) :
  PrimFloat.is_nan x = false → PrimFloat.is_nan y = false →
  PrimFloat.ltb x y = false → PrimFloat.leb y x = true.
Proof.
  rewrite !is_nan_spec, FloatAxioms.ltb_spec, FloatAxioms.leb_spec. unfold SFltb, SFleb.
  intros Hx Hy. destruct (SFcompare_total _ _ Hx Hy) as [c Hc].
  rewrite Hc, (SFcompare_antisym _ _ _ Hc). by destruct c.
Qed.

Lemma leb_refl (x : float) : PrimFloat.is_nan x = false → PrimFloat.leb x x = true.
Proof.
  rewrite is_nan_spec, FloatAxioms.leb_spec. unfold SFleb. intros H. by rewrite SFcompare_refl.
Qed.

Lemma leb_not_nan (x y : float) :
  PrimFloat.leb x y = true → PrimFloat.is_nan x = false ∧ PrimFloat.is_nan y = false.
Proof.
  rewrite !is_nan_spec, FloatAxioms.leb_spec. unfold SFleb.
  destruct (Prim2SF x), (Prim2SF y); cbn; try done.
Qed.

(** [Math.max(a, lo)] and [Math.min(a, hi)] on numbers. *)
Lemma float_max_bounds (a lo : float) :
  PrimFloat.is_nan a = false → PrimFloat.is_nan lo = false →
  PrimFloat.is_nan (float_max a lo) = false
  ∧ PrimFloat.leb lo (float_max a lo) = true
  ∧ (float_max a lo = a ∨ float_max a lo = lo).
Proof.
  intros Ha Hlo. unfold float_max. rewrite Ha, Hlo. cbn [orb].
  destruct (PrimFloat.ltb a lo) eqn:E1; [auto using leb_refl|].
  destruct (PrimFloat.ltb lo a) eqn:E2; [auto using ltb_leb|].
  destruct (PrimFloat.get_sign a); auto using leb_refl, not_ltb_leb.
Qed.

Lemma float_min_bounds (a hi : float) :
  PrimFloat.is_nan a = false → PrimFloat.is_nan hi = false →
  PrimFloat.is_nan (float_min a hi) = false
  ∧ PrimFloat.leb (float_min a hi) hi = true
  ∧ (float_min a hi = a ∨ float_min a hi = hi).
Proof.
  intros Ha Hhi. unfold float_min. rewrite Ha, Hhi. cbn [orb].
  destruct (PrimFloat.ltb a hi) eqn:E1; [auto using ltb_leb|].
  destruct (PrimFloat.ltb hi a) eqn:E2; [auto using leb_refl|].
  destruct (PrimFloat.get_sign a); auto using leb_refl, not_ltb_leb.
Qed.

(** The clamp of [handleWheel]. *)
Lemma clamp_bounds (a : float) :
  PrimFloat.is_nan a = false →
  let c := float_min (float_max a (float_of_Z 1)) (float_of_Z 25) in
  PrimFloat.leb (float_of_Z 1) c = true ∧ PrimFloat.leb c (float_of_Z 25) = true.
Proof.
  intros Ha c.
  destruct (float_max_bounds a (float_of_Z 1) Ha eq_refl) as (Hn & Hlo & _).
  destruct (float_min_bounds _ (float_of_Z 25) Hn eq_refl) as (_ & Hhi & [E|E]).
  - subst c. rewrite E in *. done.
  - subst c. rewrite E. split; [reflexivity|apply leb_refl; reflexivity].
Qed.

(** Rounding a non-negative mantissa never yields NaN. *)
Lemma iter_pos_invariant {A} (P : A → Prop) (f : A → A) (p : positive) (x : A) :
  (∀ y, P y → P (f y)) → P x → P (SpecFloat.iter_pos f p x).
Proof.
  intros Hf. revert x. induction p as [p IH|p IH|]; intros x Hx; cbn; auto.
Qed.

Lemma shr_1_nonneg (mrs : shr_record) : 0 ≤ shr_m mrs → 0 ≤ shr_m (shr_1 mrs).
Proof. destruct mrs as [[|[p|p|]|p] r s]; cbn; lia. Qed.

Lemma shr_fexp_nonneg (m e : Z) (l : location) :
  0 ≤ m → 0 ≤ shr_m (shr_fexp prec emax m e l).1.
Proof.
  intros Hm. unfold shr_fexp, shr.
  assert (H0 : 0 ≤ shr_m (shr_record_of_loc m l)) by (by destruct l as [|[]]).
  destruct (fexp _ _ _ - e) as [|p|p]; cbn [fst]; [done| |done].
  by apply (iter_pos_invariant (λ r, 0 ≤ shr_m r)); [apply shr_1_nonneg|].
Qed.

Lemma binary_round_aux_not_nan (s : bool) (m e : Z) (l : location) :
  0 ≤ m → binary_round_aux prec emax s m e l ≠ S754_nan.
Proof.
  intros Hm. unfold binary_round_aux.
  pose proof (shr_fexp_nonneg m e l Hm) as H1.
  destruct (shr_fexp prec emax m e l) as [mrs' e']. cbn [fst] in H1.
  assert (H2 : 0 ≤ round_nearest_even (shr_m mrs') (loc_of_shr_record mrs')).
  { unfold round_nearest_even. destruct (loc_of_shr_record mrs') as [|[]];
      try destruct (IntDef.Z.even _); lia. }
  pose proof (shr_fexp_nonneg _ e' loc_Exact H2) as H3.
  destruct (shr_fexp prec emax _ e' loc_Exact) as [mrs'' e'']. cbn [fst] in H3.
  destruct (shr_m mrs'') as [|p|p]; [done| |lia]. by destruct (_ <=? _).
Qed.

Lemma mul_not_nan (x y : float) (sx sy : bool) (mx my : positive) (ex ey : Z) :
  Prim2SF x = S754_finite sx mx ex → Prim2SF y = S754_finite sy my ey →
  PrimFloat.is_nan (PrimFloat.mul x y) = false.
Proof.
  intros Hx Hy. apply is_nan_spec. rewrite FloatAxioms.mul_spec, Hx, Hy.
  unfold SF64mul, SFmul. apply binary_round_aux_not_nan. lia.
Qed.

(** A double between 1 and 25 is a positive finite number. *)
Lemma in_range_finite (x : float) :
  PrimFloat.leb (float_of_Z 1) x = true → PrimFloat.leb x (float_of_Z 25) = true →
  ∃ m e, Prim2SF x = S754_finite false m e.
Proof.
  rewrite !FloatAxioms.leb_spec. unfold SFleb.
  destruct (Prim2SF x) as [s|s| |s m e].
  - by destruct s.
  - by destruct s.
  - done.
  - destruct s; [done|]. eauto.
Qed.

Lemma handleWheel_in_range x y d rect (v : viewer float) :
  scale_in_range v → scale_in_range (handleWheel x y d rect v).
Proof.
  intros [H1 H25]. unfold handleWheel. destruct rect as [[l t]|]; [|done].
  unfold scale_in_range. cbn [imageScale]. apply clamp_bounds.
  destruct (in_range_finite _ H1 H25) as (m & e & Hs).
  cbn [num_mul float_JsNum].
  destruct (num_ltb _ d); eapply mul_not_nan; try exact Hs; vm_compute; reflexivity.
Qed.

Lemma viewer_step_in_range (v : viewer float) (e : viewer_event float) :
  scale_in_range v → scale_in_range (viewer_step v e).
Proof.
  intros Hv. assert (H1 : scale_in_range (closeHdModal v)) by (split; reflexivity).
  destruct e as [p t| |x y|x y| |x y d rect|key|p| | |]; cbn [viewer_step].
  - split; reflexivity.
  - by destruct (modal_shown v).
  - destruct (modal_shown v); [|done]. unfold handleMouseDown. by destruct (num_leb _ _).
  - destruct (modal_shown v); [|done]. unfold handleMouseMove. by destruct (isDragging v).
  - by destruct (modal_shown v).
  - destruct (modal_shown v); [|done]. by apply handleWheel_in_range.
  - unfold handleKeyDown. destruct (String.eqb _ _); [|done].
    destruct (hdModalOpen v); [destruct (infoPage (closeHdModal v))|destruct (infoPage v)]; done.
  - done.
  - by destruct (infoPage v).
  - by destruct (infoPage v).
  - by destruct (infoPage v).
Qed.

Lemma viewer_run_in_range (v : viewer float) (es : list (viewer_event float)) :
  scale_in_range v → scale_in_range (viewer_run v es).
Proof.
  revert v. induction es as [|e es IH]; intros v Hv; [done|].
  apply IH. by apply viewer_step_in_range.
Qed.

(** X10: in binary64, whatever the events (any coordinates and wheel
    deltas, NaN included), the zoom factor of the HD viewer is a number
    between 1 and 25. *)
Theorem zoom_stays_between_1_and_25 (es : list (viewer_event float)) :
  let v := viewer_run initial_viewer es in
  PrimFloat.leb (float_of_Z 1) (imageScale v) = true
  ∧ PrimFloat.leb (imageScale v) (float_of_Z 25) = true
  ∧ PrimFloat.is_nan (imageScale v) = false.
Proof.
  cbv zeta. destruct (viewer_run_in_range initial_viewer es) as [H1 H25].
  { split; reflexivity. }
  split; [done|]. split; [done|]. by destruct (leb_not_nan _ _ H1).
Qed.

Section Drag.
Context {num : Type} `{!JsNum num} `{!JsArith num}.

(** X11: while the zoom factor is at most 1 and no drag is in progress,
    pressing, moving and releasing the mouse change nothing: the image
    cannot be dragged. *)
Theorem no_drag_unless_zoomed (v : viewer num) (es : list (viewer_event num)) :
  isDragging v = false → num_leb (imageScale v) (num_of_Z 1) = true →
  Forall mouse_only es →
  viewer_run v es = v.
Proof.
  intros Hd Hs Hes. induction Hes as [|e es He _ IH]; [done|].
  unfold viewer_run in *. cbn [fold_left].
  assert (Hstep : viewer_step v e = v); [|by rewrite Hstep].
  destruct e; try done; cbn [viewer_step]; destruct (modal_shown v); try done.
  - unfold handleMouseDown. by rewrite Hs.
  - unfold handleMouseMove. by rewrite Hd.
  - unfold handleMouseUp. destruct v. cbn in *. by subst.
Qed.

End Drag.

(** [Math.max(a, lo)] is at least [a] and [Math.min(a, hi)] at most [a],
    for numbers. *)
Lemma float_max_ge (a lo : float) :
  PrimFloat.is_nan a = false → PrimFloat.is_nan lo = false →
  PrimFloat.leb a (float_max a lo) = true.
Proof.
  intros Ha Hlo. unfold float_max. rewrite Ha, Hlo. cbn [orb].
  destruct (PrimFloat.ltb a lo) eqn:E1; [auto using ltb_leb|].
  destruct (PrimFloat.ltb lo a) eqn:E2; [auto using leb_refl|].
  destruct (PrimFloat.get_sign a); auto using leb_refl, not_ltb_leb.
Qed.

Lemma float_min_le (a hi : float) :
  PrimFloat.is_nan a = false → PrimFloat.is_nan hi = false →
  PrimFloat.leb (float_min a hi) a = true.
Proof.
  intros Ha Hhi. unfold float_min. rewrite Ha, Hhi. cbn [orb].
  destruct (PrimFloat.ltb a hi) eqn:E1; [auto using leb_refl|].
  destruct (PrimFloat.ltb hi a) eqn:E2; [auto using ltb_leb|].
  destruct (PrimFloat.get_sign a); auto using leb_refl, not_ltb_leb.
Qed.

Lemma nonneg_not_nan (x : float) : nonneg (Prim2SF x) → PrimFloat.is_nan x = false.
Proof. intros H. apply is_nan_spec. intros E. by rewrite E in H. Qed.

(** A zoom factor in range, as a real number. *)
Lemma scale_real (s : float) :
  PrimFloat.leb (float_of_Z 1) s = true → PrimFloat.leb s (float_of_Z 25) = true →
  (∃ m e, Prim2SF s = S754_finite false m e) ∧ nonneg (Prim2SF s)
  ∧ (1 <= float_real s <= 25)%R.
Proof.
  intros H1 H25. destruct (in_range_finite s H1 H25) as (m & e & E).
  assert (Hn : nonneg (Prim2SF s)) by (rewrite E; by destruct (valid_finite _ _ _ _ E)).
  destruct (float_of_Z_nonneg 1 ltac:(lia)) as [Hn1 R1].
  destruct (float_of_Z_nonneg 25 ltac:(lia)) as [Hn25 R25].
  apply leb_real in H1; [|done|done]. apply leb_real in H25; [|done|done].
  rewrite R1 in H1. rewrite R25 in H25. split; [eauto|]. split; [done|lra].
Qed.

(** The factors 0.9 and 1.1 are doubles on either side of 1. *)
Lemma zoom_factors :
  (∃ m e, Prim2SF (@decimal float _ 9 10) = S754_finite false m e)
  ∧ PrimFloat.leb (@decimal float _ 9 10) (float_of_Z 1) = true
  ∧ (∃ m e, Prim2SF (@decimal float _ 11 10) = S754_finite false m e)
  ∧ PrimFloat.leb (float_of_Z 1) (@decimal float _ 11 10) = true.
Proof.
  split; [eexists _, _; reflexivity|]. split; [reflexivity|].
  split; [eexists _, _; reflexivity|reflexivity].
Qed.


Section Dragging.
Context {num : Type} `{!JsNum num} `{!JsArith num}.

(** After a release, moves are ignored; while dragging, moves keep the
    anchor of the drag and the zoom factor. *)
Lemma mouse_up_ends_drag (w : viewer num) (x y : num) :
  viewer_step (viewer_step w MouseUp) (MouseMove x y) = viewer_step w MouseUp.
Proof.
  cbn [viewer_step]. destruct (modal_shown w) eqn:E; [|by rewrite E].
  assert (H : modal_shown (handleMouseUp w) = true) by exact E. by rewrite H.
Qed.

Lemma moves_while_dragging (ms : list (num * num)) (w : viewer num) :
  modal_shown w = true → isDragging w = true →
  let w' := fold_left viewer_step ((λ p, MouseMove p.1 p.2) <$> ms) w in
  modal_shown w' = true ∧ isDragging w' = true ∧ dragStart w' = dragStart w
  ∧ imageScale w' = imageScale w.
Proof.
  revert w. induction ms as [|m ms IH]; intros w Hw Hd; [done|].
  cbn [fmap list_fmap fold_left].
  destruct (IH (viewer_step w (MouseMove m.1 m.2))) as (E1 & E2 & E3 & E4).
  - cbn [viewer_step]. rewrite Hw. unfold handleMouseMove. by rewrite Hd.
  - cbn [viewer_step]. rewrite Hw. unfold handleMouseMove. by rewrite Hd.
  - cbv zeta. rewrite E1, E2, E3, E4. cbn [viewer_step]. rewrite Hw.
    unfold handleMouseMove. by rewrite Hd.
Qed.

(** X13: with the modal shown and a zoom factor above 1, after a press at
    [(x0, y0)] and any moves ending at [(x, y)] the image position is
    [(x - (x0 - imagePos.x), y - (y0 - imagePos.y))], computed from the
    press and the last move alone: the moves in between leave no trace and
    no rounding error accumulates.  The zoom factor is unchanged and the
    drag is in progress; releasing ends the drag, leaves the image there,
    and later moves change nothing.  This holds in any arithmetic, binary64
    included. *)
Theorem drag_follows_the_pointer (v : viewer num) (x0 y0 x y : num) (moves : list (num * num)) :
  modal_shown v = true → num_leb (imageScale v) (num_of_Z 1) = false →
  let es := MouseDown x0 y0 :: ((λ p, MouseMove p.1 p.2) <$> moves) ++ [MouseMove x y] in
  let v' := viewer_run v es in
  imagePos v' = (num_sub x (num_sub x0 (imagePos v).1), num_sub y (num_sub y0 (imagePos v).2))
  ∧ imagePos v' = imagePos (viewer_run v [MouseDown x0 y0; MouseMove x y])
  ∧ imageScale v' = imageScale v ∧ isDragging v' = true
  ∧ isDragging (viewer_step v' MouseUp) = false
  ∧ imagePos (viewer_step v' MouseUp) = imagePos v'
  ∧ ∀ x' y', viewer_step (viewer_step v' MouseUp) (MouseMove x' y') = viewer_step v' MouseUp.
Proof.
  intros Hshown Hs es v'.
  assert (H : ∀ ms, let w := viewer_run v (MouseDown x0 y0 :: ((λ p, MouseMove p.1 p.2) <$> ms)
                                            ++ [MouseMove x y]) in
            modal_shown w = true ∧ isDragging w = true ∧ imageScale w = imageScale v
            ∧ imagePos w = (num_sub x (num_sub x0 (imagePos v).1),
                            num_sub y (num_sub y0 (imagePos v).2))).
  { intros ms. cbv zeta. unfold viewer_run. cbn [fold_left viewer_step].
    rewrite Hshown. unfold handleMouseDown. rewrite Hs.
    rewrite fold_left_app. cbn [fold_left].
    set (v1 := Viewer _ _ _ true _ _ _ _).
    assert (Hv1 : modal_shown v1 = true) by exact Hshown.
    destruct (moves_while_dragging ms v1 Hv1 eq_refl) as (E1 & E2 & E3 & E4). cbv zeta in *.
    set (v2 := fold_left _ _ v1) in *.
    cbn [viewer_step]. rewrite E1. unfold handleMouseMove. rewrite E2, E3, E4.
    cbn [imagePos imageScale isDragging dragStart v1 fst snd]. split; [exact E1|done]. }
  destruct (H moves) as (Hm & Hd & Hsc & Hp). destruct (H []) as (_ & _ & _ & Hp0).
  cbv zeta in Hm, Hd, Hsc, Hp, Hp0. fold es v' in Hm, Hd, Hsc, Hp.
  split; [exact Hp|]. split; [by rewrite Hp, <- Hp0|]. split; [exact Hsc|]. split; [exact Hd|].
  split; [cbn [viewer_step]; by rewrite Hm|]. split; [cbn [viewer_step]; by rewrite Hm|].
  intros x' y'. apply mouse_up_ends_drag.
Qed.

End Dragging.

(** X14: the two arrows of an info page lead to the two other pages and
    undo each other, three steps forward come back to the page, two steps
    back are one step forward, and the label beside each arrow is the end
    of the navigation link of the page the arrow leads to, and of no other
    page. *)
Theorem info_pages_cycle (p : InfoPageKey) :
  (∃ q, previous_page (Some p) = Some q ∧ q ≠ p ∧ next_page (Some q) = Some p)
  ∧ (∃ q, next_page (Some p) = Some q ∧ q ≠ p ∧ previous_page (Some q) = Some p)
  ∧ next_page (next_page (next_page (Some p))) = Some p
  ∧ previous_page (previous_page (Some p)) = next_page (Some p)
  ∧ (∀ q, ends_with (left_label (Some p)) (link_label q) = true
          ↔ previous_page (Some p) = Some q)
  ∧ (∀ q, ends_with (right_label (Some p)) (link_label q) = true
          ↔ next_page (Some p) = Some q).
Proof.
  split_and!.
  - destruct p; eexists; (split; [reflexivity|split; [discriminate|reflexivity]]).
  - destruct p; eexists; (split; [reflexivity|split; [discriminate|reflexivity]]).
  - by destruct p.
  - by destruct p.
  - intros q. destruct p, q; vm_compute; split; (done || discriminate).
  - intros q. destruct p, q; vm_compute; split; (done || discriminate).
Qed.

(** * Text *)

Lemma append_cons (c : Ascii.ascii) (a b : string) : String c a +:+ b = String c (a +:+ b).
Proof. reflexivity. Qed.

Lemma append_nil (b : string) : EmptyString +:+ b = b.
Proof. reflexivity. Qed.

Lemma split_nonempty is_sep keep s : split_string is_sep keep s ≠ [].
Proof. destruct s as [|c s]; cbn; [done|]. destruct (is_sep c); [done|]. by destruct (split_string _ _ _). Qed.

Lemma split_concat is_sep s : concat_strings (split_string is_sep true s) = s.
Proof.
  induction s as [|c s IH]; [done|]. cbn [split_string].
  destruct (is_sep c).
  - cbn [app concat_strings]. by rewrite append_nil, append_cons, append_nil, IH.
  - pose proof (split_nonempty is_sep true s) as Hne.
    destruct (split_string is_sep true s) as [|p rest]; [done|].
    cbn [concat_strings] in *. by rewrite append_cons, IH.
Qed.

(** The pieces at even positions hold no separator; with [keep], those at
    odd positions are the separators met, in order. *)
Lemma split_pieces is_sep s :
  ∃ first rest,
    split_string is_sep true s = first :: (rest ≫= λ p, [String p.1 EmptyString; p.2])
    ∧ Forall (λ c, is_sep c = false) (chars first)
    ∧ Forall (λ p, is_sep p.1 = true ∧ Forall (λ c, is_sep c = false) (chars p.2)) rest
    ∧ rest.*1 = filter (λ c, is_sep c = true) (chars s).
Proof.
  induction s as [|c s (first & rest & E & Hf & Hr & Hs)].
  - exists EmptyString, []. cbn. repeat split; constructor.
  - cbn [split_string chars]. rewrite E. destruct (is_sep c) eqn:Hc.
    + exists EmptyString, ((c, first) :: rest). cbn [app]. split; [done|].
      split; [constructor|]. split; [by constructor|].
      rewrite filter_cons_True by done. cbn. by f_equal.
    + exists (String c first), rest. split; [done|]. split; [by constructor|]. split; [done|].
      rewrite filter_cons_False by (by rewrite Hc). done.
Qed.

Lemma lower_is_s (c : Ascii.ascii) :
  lower c = Ascii.ascii_of_nat 115 ↔ is_s c = true.
Proof.
  destruct c as [[] [] [] [] [] [] [] []]; vm_compute; split; (discriminate || reflexivity).
Qed.

Lemma underline_test (p : string) :
  String.eqb (toLowerCase p) "s" = true ↔ ∃ c, p = String c EmptyString ∧ is_s c = true.
Proof.
  rewrite String.eqb_eq. split.
  - destruct p as [|c [|c' p]]; cbn [toLowerCase]; try discriminate.
    intros [= E]. exists c. split; [done|]. by apply lower_is_s.
  - intros (c & -> & Hc). cbn [toLowerCase]. f_equal. by apply lower_is_s.
Qed.

Lemma render_separator (c : Ascii.ascii) :
  is_s c = true → render_part (String c EmptyString) = Underlined (String c EmptyString).
Proof.
  intros Hc. unfold render_part.
  assert (E : String.eqb (toLowerCase (String c EmptyString)) "s" = true)
    by (apply underline_test; eauto).
  by rewrite E.
Qed.

Lemma render_plain (p : string) :
  Forall (λ c, is_s c = false) (chars p) → render_part p = PlainText p.
Proof.
  intros Hp. unfold render_part. destruct (String.eqb _ _) eqn:E; [|done].
  apply underline_test in E as (c & -> & Hc). apply list.Forall_cons in Hp as [Hp _]. congruence.
Qed.

Lemma text_of_render (l : list string) : text_of <$> (render_part <$> l) = l.
Proof.
  induction l as [|p l IH]; [done|]. cbn. rewrite IH. f_equal.
  unfold render_part. by destruct (String.eqb _ _).
Qed.

Lemma render_pieces (rest : list (Ascii.ascii * string)) :
  Forall (λ p, is_s p.1 = true ∧ Forall (λ c, is_s c = false) (chars p.2)) rest →
  render_part <$> (rest ≫= λ p, [String p.1 EmptyString; p.2])
  = rest ≫= λ p, [Underlined (String p.1 EmptyString); PlainText p.2].
Proof.
  induction 1 as [|[c p] rest [Hc Hp] _ IH]; [done|].
  rewrite !bind_cons, fmap_app, IH. cbn [fmap list_fmap fst snd].
  by rewrite render_separator, render_plain.
Qed.

(** X15: [UnderlineS] renders the text it is given, unchanged, and
    underlines exactly its letters [s] and [S]: the underlined spans are
    these letters, one per span and in order, no plain piece holds one, and
    there are [2 k + 1] pieces for [k] such letters. *)
Theorem UnderlineS_underlines_each_s (children : string) :
  let nodes := UnderlineS children in
  concat_strings (text_of <$> nodes) = children
  ∧ text_of <$> filter (λ n, is_underlined n = true) nodes
    = (λ c, String c EmptyString) <$> filter (λ c, is_s c = true) (chars children)
  ∧ (∀ n, n ∈ nodes → is_underlined n = false →
          Forall (λ c, is_s c = false) (chars (text_of n)))
  ∧ length nodes = (2 * length (filter (λ c, is_s c = true) (chars children)) + 1)%nat.
Proof.
  cbv zeta. unfold UnderlineS. fold render_part.
  split; [by rewrite text_of_render, split_concat|].
  destruct (split_pieces is_s children) as (first & rest & -> & Hf & Hr & <-).
  rewrite fmap_cons, (render_plain first Hf), (render_pieces rest Hr).
  rewrite filter_cons_False by done. cbn [length].
  split; [|split].
  - clear Hf. induction Hr as [|[c p] rest _ _ IH]; [done|].
    rewrite bind_cons. cbn [app fst snd].
    rewrite filter_cons_True by done. rewrite filter_cons_False by done.
    cbn [fmap list_fmap text_of]. f_equal. exact IH.
  - intros n Hn Hu. apply elem_of_cons in Hn as [->|Hn]; [done|].
    apply list_elem_of_bind in Hn as ([c p] & Hn & Hcp).
    rewrite list.Forall_forall in Hr. destruct (Hr _ Hcp) as [_ Hp].
    apply elem_of_cons in Hn as [->|Hn]; [done|].
    apply list_elem_of_singleton in Hn as ->. done.
  - rewrite length_fmap. f_equal. clear. induction rest as [|[c p] rest IH]; [done|].
    rewrite bind_cons. cbn [app length fmap list_fmap]. lia.
Qed.

Lemma split_no_separator is_sep keep (s : string) :
  Forall (λ c, is_sep c = false) (chars s) → split_string is_sep keep s = [s].
Proof.
  induction s as [|c s IH]; [done|]. intros H. apply list.Forall_cons in H as [Hc Hs].
  cbn [split_string]. by rewrite Hc, IH.
Qed.

Lemma last_cons_nonempty {A} (x : A) (l : list A) : l ≠ [] → list.last (x :: l) = list.last l.
Proof. by destruct l. Qed.

Lemma split_last_segment is_sep (dir base : string) (sep : Ascii.ascii) :
  is_sep sep = true → Forall (λ c, is_sep c = false) (chars base) →
  list.last (split_string is_sep false (dir +:+ String sep base)) = Some base
  ∧ (2 ≤ length (split_string is_sep false (dir +:+ String sep base)))%nat.
Proof.
  intros Hsep Hbase. induction dir as [|c dir [IH1 IH2]].
  - rewrite append_nil. cbn [split_string]. rewrite Hsep, split_no_separator by done. by cbn.
  - rewrite append_cons. cbn [split_string]. destruct (is_sep c).
    + cbn [app]. rewrite last_cons_nonempty by apply split_nonempty.
      split; [done|]. cbn [length]. lia.
    + destruct (split_string is_sep false (dir +:+ String sep base)) as [|p [|q rest]];
        cbn [length] in IH2; try lia.
      split; [exact IH1|cbn [length]; lia].
Qed.

(** X16: the name given to a download is what follows the last slash of
    the path, or the whole path when it has no slash, and the fallback name
    when that is empty; it is never empty when the fallback is not;
    [handleDownload] does nothing without a path or with an empty one, and
    otherwise links to the path under that name. *)
Theorem download_name_is_last_segment (fallback path : string) :
  let name := file_name fallback path in
  (∀ dir base, path = dir +:+ "/" +:+ base → slash_free base →
     name = if String.eqb base "" then fallback else base)
  ∧ (slash_free path → name = if String.eqb path "" then fallback else path)
  ∧ (fallback ≠ EmptyString → name ≠ EmptyString)
  ∧ handleDownload None = None
  ∧ handleDownload (Some EmptyString) = None
  ∧ (path ≠ EmptyString →
     handleDownload (Some path) = Some (Link path (file_name "colorpaps.png" path))).
Proof.
  cbv zeta. split_and!.
  - intros dir base -> Hbase. unfold file_name.
    change ("/" +:+ base) with (String (Ascii.ascii_of_nat 47) base).
    by destruct (split_last_segment is_slash dir base (Ascii.ascii_of_nat 47) eq_refl Hbase) as [-> _].
  - intros Hp. unfold file_name. by rewrite split_no_separator.
  - intros Hf. unfold file_name. destruct (list.last _) as [name|]; [|done].
    destruct (String.eqb name "") eqn:E; [done|]. by apply String.eqb_neq in E.
  - done.
  - done.
  - intros Hp. unfold handleDownload. apply String.eqb_neq in Hp. by rewrite Hp.
Qed.

(** * The background colour *)

Lemma same_float_eq (x y : float) : same_float x y = true → x = y.
Proof.
  unfold same_float. intros H%bool_decide_eq_true.
  by rewrite <- (SF2Prim_Prim2SF x), <- (SF2Prim_Prim2SF y), H.
Qed.

(** Adding a channel of a tint to an integer sum is exact, and so is the
    rounded quotient of a sum by a number of colours from 2 to 8. *)
Lemma sums_checked :
  forallb (λ a, forallb (λ b, same_float (PrimFloat.add (float_of_Z a) (float_of_Z b))
                                         (float_of_Z (a + b))) tint_channels)
          (seqZ 0 1786) = true.
Proof. vm_cast_no_check (eq_refl true). Qed.

Lemma means_checked :
  forallb (λ a, forallb (λ n, same_float (float_round (PrimFloat.div (float_of_Z a) (float_of_Z n)))
                                         (float_of_Z ((2 * a + n) / (2 * n))))
                        [2; 3; 4; 5; 6; 7; 8])
          (seqZ 0 2041) = true.
Proof. vm_cast_no_check (eq_refl true). Qed.

Lemma channel_range (k : nat) (c : ColorKey) : (k < 3)%nat → 0 ≤ channel k c ≤ 255.
Proof.
  intros Hk. destruct k as [|[|[|k]]]; [| | |lia]; destruct c; vm_compute; split; discriminate.
Qed.

Lemma channel_tint (k : nat) (c : ColorKey) : (k < 3)%nat → channel k c ∈ tint_channels.
Proof.
  intros Hk. unfold tint_channels. apply list_elem_of_bind. exists c.
  split; [|apply elem_of_all_colors]. apply list_elem_of_fmap. exists k. split; [done|].
  destruct k as [|[|[|k]]]; [| | |lia]; repeat first [by left|right].
Qed.

Lemma rgb_of_channels (c : ColorKey) :
  rgb_of c = (float_of_Z (channel 0 c), float_of_Z (channel 1 c), float_of_Z (channel 2 c)).
Proof. destruct c; vm_compute; reflexivity. Qed.

Lemma add_channel (a : Z) (k : nat) (c : ColorKey) :
  0 ≤ a ≤ 1785 → (k < 3)%nat →
  PrimFloat.add (float_of_Z a) (float_of_Z (channel k c)) = float_of_Z (a + channel k c).
Proof.
  intros Ha Hk. apply same_float_eq.
  assert (Ha' : In a (seqZ 0 1786)) by (apply list_elem_of_In, elem_of_seqZ; lia).
  assert (Hb : In (channel k c) tint_channels) by (by apply list_elem_of_In, channel_tint).
  exact (proj1 (forallb_forall _ _) (proj1 (forallb_forall _ _) sums_checked a Ha') _ Hb).
Qed.

Lemma round_mean (a n : Z) :
  0 ≤ a ≤ 2040 → 2 ≤ n ≤ 8 →
  float_round (PrimFloat.div (float_of_Z a) (float_of_Z n)) = float_of_Z ((2 * a + n) / (2 * n)).
Proof.
  intros Ha Hn. apply same_float_eq.
  assert (Ha' : In a (seqZ 0 2041)) by (apply list_elem_of_In, elem_of_seqZ; lia).
  assert (Hb : In n [2; 3; 4; 5; 6; 7; 8]).
  { assert (n = 2 ∨ n = 3 ∨ n = 4 ∨ n = 5 ∨ n = 6 ∨ n = 7 ∨ n = 8) as Hc by lia.
    destruct Hc as [->|[->|[->|[->|[->|[->| ->]]]]]]; cbn; tauto. }
  exact (proj1 (forallb_forall _ _) (proj1 (forallb_forall _ _) means_checked a Ha') _ Hb).
Qed.

Lemma channel_sum_bounds (k : nat) (l : list ColorKey) :
  (k < 3)%nat → 0 ≤ channel_sum k l ≤ 255 * Z.of_nat (length l).
Proof.
  intros Hk. induction l as [|c l IH]; [cbn; lia|].
  unfold channel_sum in *. cbn [fmap list_fmap foldr length].
  pose proof (channel_range k c Hk). lia.
Qed.

Lemma fold_channels (l : list ColorKey) (a0 a1 a2 : Z) :
  0 ≤ a0 → 0 ≤ a1 → 0 ≤ a2 →
  a0 + 255 * Z.of_nat (length l) ≤ 2040 →
  a1 + 255 * Z.of_nat (length l) ≤ 2040 →
  a2 + 255 * Z.of_nat (length l) ≤ 2040 →
  fold_left (λ (a c : float * float * float),
               (PrimFloat.add a.1.1 c.1.1, PrimFloat.add a.1.2 c.1.2, PrimFloat.add a.2 c.2))
            (rgb_of <$> l) (float_of_Z a0, float_of_Z a1, float_of_Z a2)
  = (float_of_Z (a0 + channel_sum 0 l), float_of_Z (a1 + channel_sum 1 l),
     float_of_Z (a2 + channel_sum 2 l)).
Proof.
  revert a0 a1 a2. induction l as [|c l IH]; intros a0 a1 a2 H0 H1 H2 B0 B1 B2.
  - cbn. by rewrite !Z.add_0_r.
  - cbn [fmap list_fmap fold_left length] in *. rewrite rgb_of_channels. cbn [fst snd].
    rewrite !add_channel by lia.
    pose proof (channel_range 0 c ltac:(lia)). pose proof (channel_range 1 c ltac:(lia)).
    pose proof (channel_range 2 c ltac:(lia)).
    rewrite IH by lia. unfold channel_sum. cbn [fmap list_fmap foldr].
    by rewrite !Z.add_assoc.
Qed.

Lemma channel_sum_perm (k : nat) (l l' : list ColorKey) :
  l' ≡ₚ l → channel_sum k l' = channel_sum k l.
Proof.
  unfold channel_sum. induction 1 as [|c l1 l2 _ IH|c1 c2 l1|l1 l2 l3 _ IH1 _ IH2];
    cbn [fmap list_fmap foldr] in *; lia.
Qed.

(** X17: for every selection of two to eight colours (in any order, which
    is every selection of at least two the page can hold), the background
    of a "Rencontres" tab is [rgb(r, g, b)] where each channel is the mean
    of that channel over the tints of the selected colours, rounded to the
    nearest integer with a tie going up: the binary64 sums, quotients and
    roundings are exact.  The colour does not depend on the order of the
    selection and each channel is between 0 and 255. *)
Theorem background_is_the_mean_tint (colors : list ColorKey) (selectedColor : ColorKey)
    (other : list ColorKey) :
  (2 ≤ length colors ≤ 8)%nat →
  let mean k := rounded_mean (channel k <$> colors) in
  bgColor rencontres selectedColor colors other
    = Rgb (float_of_Z (mean 0%nat)) (float_of_Z (mean 1%nat)) (float_of_Z (mean 2%nat))
  ∧ bgColor rencontrescrop selectedColor other colors
    = bgColor rencontres selectedColor colors other
  ∧ (∀ colors', colors' ≡ₚ colors →
       bgColor rencontres selectedColor colors' other
       = bgColor rencontres selectedColor colors other)
  ∧ (∀ k, (k < 3)%nat → 0 ≤ mean k ≤ 255).
Proof.
  intros Hlen mean.
  assert (Hmix : ∀ l, (2 ≤ length l ≤ 8)%nat →
            mix l = Rgb (float_of_Z (rounded_mean (channel 0 <$> l)))
                        (float_of_Z (rounded_mean (channel 1 <$> l)))
                        (float_of_Z (rounded_mean (channel 2 <$> l)))).
  { intros l Hl. destruct l as [|c1 [|c2 l]]; cbn [length] in Hl; [lia|lia|].
    set (l' := c1 :: c2 :: l) in *. unfold mix. fold l'.
    change (float_of_Z 0, float_of_Z 0, float_of_Z 0)
      with (float_of_Z 0, float_of_Z 0, float_of_Z 0).
    assert (Hn : (2 ≤ length l' ≤ 8)%nat) by (subst l'; cbn [length]; lia).
    replace (match l' with [] => _ | _ => _ end)
      with (Rgb (float_round (PrimFloat.div
                   (fold_left (λ (a c : float * float * float),
                      (PrimFloat.add a.1.1 c.1.1, PrimFloat.add a.1.2 c.1.2,
                       PrimFloat.add a.2 c.2))
                      (rgb_of <$> l') (float_of_Z 0, float_of_Z 0, float_of_Z 0)).1.1
                   (float_of_Z (Z.of_nat (length l')))))
                (float_round (PrimFloat.div
                   (fold_left (λ (a c : float * float * float),
                      (PrimFloat.add a.1.1 c.1.1, PrimFloat.add a.1.2 c.1.2,
                       PrimFloat.add a.2 c.2))
                      (rgb_of <$> l') (float_of_Z 0, float_of_Z 0, float_of_Z 0)).1.2
                   (float_of_Z (Z.of_nat (length l')))))
                (float_round (PrimFloat.div
                   (fold_left (λ (a c : float * float * float),
                      (PrimFloat.add a.1.1 c.1.1, PrimFloat.add a.1.2 c.1.2,
                       PrimFloat.add a.2 c.2))
                      (rgb_of <$> l') (float_of_Z 0, float_of_Z 0, float_of_Z 0)).2
                   (float_of_Z (Z.of_nat (length l'))))))
      by (subst l'; reflexivity).
    clearbody l'. rewrite (fold_channels l' 0 0 0) by lia. cbn [fst snd].
    rewrite !Z.add_0_l.
    pose proof (channel_sum_bounds 0 l' ltac:(lia)).
    pose proof (channel_sum_bounds 1 l' ltac:(lia)).
    pose proof (channel_sum_bounds 2 l' ltac:(lia)).
    rewrite !round_mean by lia. unfold rounded_mean, channel_sum.
    by rewrite !length_fmap. }
  assert (Hperm : ∀ k l l', l' ≡ₚ l →
            rounded_mean (channel k <$> l') = rounded_mean (channel k <$> l)).
  { intros k l l' Hp. unfold rounded_mean. rewrite !length_fmap.
    rewrite (Permutation_length Hp). do 3 f_equal. by apply (channel_sum_perm k). }
  cbn [bgColor]. split; [by apply Hmix|]. split; [done|]. split.
  - intros colors' Hp. rewrite !Hmix by (rewrite ?(Permutation_length Hp); done).
    by rewrite !(Hperm _ colors colors' Hp).
  - intros k Hk. subst mean. cbn beta. unfold rounded_mean. rewrite length_fmap.
    pose proof (channel_sum_bounds k colors Hk) as Hb. unfold channel_sum in Hb.
    set (S := foldr Z.add 0 (channel k <$> colors)) in *.
    set (n := Z.of_nat (length colors)) in *.
    assert (2 ≤ n ≤ 8) by lia. split.
    + apply Z.div_pos; lia.
    + assert ((2 * S + n) / (2 * n) < 256); [|lia].
      apply Z.div_lt_upper_bound; [lia|]. nia.
Qed.

(** * Instances of the further properties *)

Lemma toggle_flips_membership_witness :
  NoDup [bleu; rouge] ∧ toggle vert (toggle vert [bleu; rouge]) = [bleu; rouge].
Proof.
  assert (Hnd : NoDup [bleu; rouge]) by exact (bool_decide_unpack (NoDup [bleu; rouge]) I).
  split; [exact Hnd|].
  destruct (toggle_flips_membership vert [bleu; rouge] Hnd) as (_ & _ & _ & _ & _ & Hback & _).
  apply Hback. exact (bool_decide_unpack (vert ∉ [bleu; rouge]) I).
Defined.

Lemma no_reveal_without_a_result_witness :
  let es := [ClickColor bleu; ClickColor rouge; ClickGenerate;
             FetchResolved error_response 0; ImageLoaded; AnimationFrame] in
  (∀ data now, FetchResolved data now ∈ es → r_error data ≠ None)
  ∧ scheduled (run lcg (initial_page (Some small_canvas)) es) = [].
Proof.
  cbv zeta.
  assert (H : ∀ data now,
            FetchResolved data now ∈ [ClickColor bleu; ClickColor rouge; ClickGenerate;
                                      FetchResolved error_response 0; ImageLoaded;
                                      AnimationFrame] →
            r_error data ≠ None).
  { intros data now H.
    repeat (apply elem_of_cons in H as [H|H]; [try discriminate|]).
    - injection H as -> ->. discriminate.
    - by apply elem_of_nil in H. }
  split; [exact H|].
  exact (proj1 (proj2 (no_reveal_without_a_result lcg (Some small_canvas) _ H))).
Defined.

Lemma reveal_takes_200_or_201_frames_witness :
  (canvasRef awaiting_page = Some (repaint small_canvas) ∧ scheduled awaiting_page = [])
  ∧ scheduled (frames 201 (startRevealAnimation 500 awaiting_page)) = [].
Proof.
  destruct awaiting_page_ready as (H1 & H2 & _).
  split; [auto|].
  exact (proj1 (reveal_takes_200_or_201_frames awaiting_page _ 500 H1 H2)).
Defined.

Lemma sessions_can_overlap_witness :
  (canvasRef two_colours = Some small_canvas
   ∧ (2 ≤ length (selectedPaletteColors two_colours))%nat
   ∧ palettePreview two_colours = None
   ∧ isPaletteGenerating two_colours = false ∧ isPaletteRevealing two_colours = false
   ∧ scheduled two_colours = [] ∧ loading two_colours = [] ∧ fetching two_colours = []
   ∧ r_error sample_response = None ∧ brumes ≠ rencontresMode two_colours)
  ∧ length (scheduled (run lcg two_colours
              [ClickGenerate; FetchResolved sample_response 0; ClickMode brumes;
               ClickGenerate; FetchResolved sample_response 1; ImageLoaded; ImageLoaded]))
    = 2%nat.
Proof.
  destruct two_colours_at_rest as (H1 & H2 & H3 & H4 & H5 & H6 & H7 & H8).
  assert (Hm : brumes ≠ rencontresMode two_colours) by (vm_compute; discriminate).
  split; [repeat split; auto|].
  pose proof (sessions_can_overlap lcg two_colours small_canvas sample_response
                sample_response 0 1 brumes H1 H2 H3 H4 H5 H6 H7 H8 eq_refl eq_refl Hm) as H.
  cbv zeta in H. destruct H as (Hs & _). rewrite Hs. reflexivity.
Defined.

Lemma python_runs_on_valid_colours_only_witness :
  validate "generate_palette.py" (λ _, "TypeError") (inl sample_body)
  = RunPython ["generate_palette.py"; "bleu,rouge"; "--full"].
Proof.
  apply (proj2 (python_runs_on_valid_colours_only "generate_palette.py" (λ _, "TypeError")
                  (inl sample_body) _)).
  exists sample_body, ["Bleu"; "rouge"]. split; [reflexivity|]. split; [reflexivity|].
  split; [cbn; lia|]. split; [|reflexivity].
  constructor; [exact (bool_decide_unpack (toLowerCase "Bleu" ∈ VALID_COLORS) I)|].
  constructor; [exact (bool_decide_unpack (toLowerCase "rouge" ∈ VALID_COLORS) I)|].
  constructor.
Defined.

Lemma python_arguments_are_colour_names_witness :
  validate "generate_palette.py" (λ _, "TypeError") (inl sample_body)
  = RunPython ["generate_palette.py"; "bleu,rouge"; "--full"]
  ∧ ∃ names : list string,
      (1 ≤ length names ≤ 8)%nat
      ∧ Forall (λ c, c ∈ VALID_COLORS) names
      ∧ (["generate_palette.py"; "bleu,rouge"; "--full"]
           = ["generate_palette.py"; join "," names]
         ∨ ["generate_palette.py"; "bleu,rouge"; "--full"]
           = ["generate_palette.py"; join "," names; "--full"]).
Proof.
  assert (Hv : validate "generate_palette.py" (λ _, "TypeError") (inl sample_body)
               = RunPython ["generate_palette.py"; "bleu,rouge"; "--full"])
    by reflexivity.
  split; [exact Hv|].
  destruct (python_arguments_are_colour_names "generate_palette.py" (λ _, "TypeError")
              _ _ Hv) as (names & H1 & H2 & H3 & _).
  exists names. auto.
Defined.

Lemma page_requests_pass_validation_witness :
  let es := [ClickColor bleu; ClickColor rouge; ClickGenerate] in
  let r := Request "/api/generate-palette" [bleu; rouge] in
  r ∈ fetching (run lcg (initial_page (Some small_canvas)) es)
  ∧ validate "generate_palette.py" (λ _, "TypeError") (inl (request_body r))
    = RunPython ["generate_palette.py"; "bleu,rouge"].
Proof.
  cbv zeta.
  assert (Hr : Request "/api/generate-palette" [bleu; rouge]
               ∈ fetching (run lcg (initial_page (Some small_canvas))
                             [ClickColor bleu; ClickColor rouge; ClickGenerate])).
  { change (run lcg (initial_page (Some small_canvas))
                [ClickColor bleu; ClickColor rouge; ClickGenerate]) with awaiting_page.
    destruct awaiting_page_ready as (_ & _ & _ & -> & _). left. }
  split; [exact Hr|].
  exact (page_requests_pass_validation "generate_palette.py" (λ _, "TypeError") lcg
           (Some small_canvas) _ _ Hr).
Defined.


Lemma no_drag_unless_zoomed_witness :
  (isDragging (@initial_viewer float _) = false
   ∧ num_leb (imageScale (@initial_viewer float _)) (num_of_Z 1) = true
   ∧ Forall mouse_only sample_drag)
  ∧ viewer_run initial_viewer sample_drag = initial_viewer.
Proof.
  assert (Hm : Forall mouse_only sample_drag) by (repeat constructor).
  split; [split; [reflexivity|split; [reflexivity|exact Hm]]|].
  exact (no_drag_unless_zoomed initial_viewer sample_drag eq_refl eq_refl Hm).
Defined.

Lemma drag_follows_the_pointer_witness :
  (modal_shown zoomed_viewer = true
   ∧ num_leb (imageScale zoomed_viewer) (num_of_Z 1) = false)
  ∧ imagePos (viewer_run zoomed_viewer
                [MouseDown (float_of_Z 100) (float_of_Z 100);
                 MouseMove (float_of_Z 100) (float_of_Z 100)])
    = (0x1.99999999998p-4%float, 0%float)
  ∧ isDragging (viewer_run zoomed_viewer
                  [MouseDown (float_of_Z 100) (float_of_Z 100);
                   MouseMove (float_of_Z 100) (float_of_Z 100)]) = true.
Proof.
  split; [split; reflexivity|].
  pose proof (drag_follows_the_pointer zoomed_viewer (float_of_Z 100) (float_of_Z 100)
                (float_of_Z 100) (float_of_Z 100) [] eq_refl eq_refl) as H.
  cbv zeta in H. destruct H as (Hp & _ & _ & Hd & _).
  split; [|exact Hd]. etransitivity; [exact Hp|]. reflexivity.
Defined.

Lemma background_is_the_mean_tint_witness :
  (2 ≤ length [bleu; rouge] ≤ 8)%nat
  ∧ bgColor rencontres bleu [bleu; rouge] []
    = Rgb (float_of_Z (rounded_mean (channel 0 <$> [bleu; rouge])))
          (float_of_Z (rounded_mean (channel 1 <$> [bleu; rouge])))
          (float_of_Z (rounded_mean (channel 2 <$> [bleu; rouge]))).
Proof.
  assert (Hl : (2 ≤ length [bleu; rouge] ≤ 8)%nat) by (cbn; lia).
  split; [exact Hl|].
  exact (proj1 (background_is_the_mean_tint [bleu; rouge] bleu [] Hl)).
Defined.
